(** * Visibility-subset engine and build handle of the decision-tree viewer

    Shallow embedding of [comp_algo_decision_tree/decision_tree_gen/Nodes.py]
    (classes [NodeHolder] and [Nodes]), of the constants of [Config.py] and of
    the eager view of [Elements.py], with the properties of the
    specification stated and proved over these definitions. *)

From Stdlib Require Import ZArith List Bool Lia Sorted Arith Ascii.
From Stdlib Require String.
Import ListNotations.
Open Scope Z_scope.

(** ** Config.py *)

Module Config.
Definition DISPLAY_DEPTH : Z := 3.
Definition LABEL_CROP_LENGTH : Z := 50.
Definition LABEL_MAX_LENGTH : Z := 300.
Definition MAX_ELEMENTS : Z := 500.
Definition MAX_CACHED_DECISION_TREES : Z := 10.
End Config.

(** ** Results of Python code

    A call either returns, raises, or (in the model of a [while] loop) uses
    up the fuel it was given. *)

Inductive exn : Type :=
| AttributeError   (* attribute access on [None] *)
| IndexError.      (* list index out of range *)

Inductive result (A : Type) : Type :=
| Ok (a : A)
| Raise (e : exn)
| OutOfFuel.

Arguments Ok {A} a.
Arguments Raise {A} e.
Arguments OutOfFuel {A}.

Definition bind {A B : Type} (m : result A) (k : A -> result B) : result B :=
  match m with
  | Ok a => k a
  | Raise e => Raise e
  | OutOfFuel => OutOfFuel
  end.

Notation "x <- m ;; k" := (bind m (fun x => k))
  (at level 61, m at next level, right associativity).

(** ** Python and numpy primitives used by Nodes.py *)

Definition len {A : Type} (l : list A) : Z := Z.of_nat (length l).

(** [l[i]] for a Python list: a negative index counts from the end, an index
    outside [-len, len) raises [IndexError]. *)
Definition getitem {A : Type} (l : list A) (i : Z) : result A :=
  let j := if i <? 0 then i + len l else i in
  if (j <? 0) || (len l <=? j) then Raise IndexError
  else match nth_error l (Z.to_nat j) with
       | Some x => Ok x
       | None => Raise IndexError
       end.

(** [x in s] for the Python set [in_valid], kept as the list of its members. *)
Definition mem (x : Z) (s : list Z) : bool := existsb (Z.eqb x) s.

(** [a.searchsorted(v)] (numpy, side left) on an ascending array: the first
    index whose element is not below [v], [len(a)] when there is none. The
    library's binary search is represented by this result. *)
Fixpoint searchsorted (a : list Z) (v : Z) : nat :=
  match a with
  | [] => O
  | x :: a' => if x <? v then S (searchsorted a' v) else O
  end.

(** [snp.merge(a, b, duplicates=snp.DROP)] (sortednp): the two-finger merge
    of two ascending arrays in which a value present in both is emitted
    once. *)
Fixpoint merge (a : list Z) : list Z -> list Z :=
  fix merge_a (b : list Z) : list Z :=
    match a, b with
    | [], _ => b
    | _, [] => a
    | x :: a', y :: b' =>
        if x <? y then x :: merge a' b
        else if y <? x then y :: merge_a b'
        else x :: merge a' b'
    end.

(** [np.delete(a, idxs)]: the array without the positions listed in [idxs]. *)
Fixpoint np_delete_from (k : nat) (a : list Z) (idxs : list nat) : list Z :=
  match a with
  | [] => []
  | x :: a' =>
      if existsb (Nat.eqb k) idxs then np_delete_from (S k) a' idxs
      else x :: np_delete_from (S k) a' idxs
  end.

Definition np_delete (a : list Z) (idxs : list nat) : list Z :=
  np_delete_from 0 a idxs.

(** An optional value as a list of at most one element. *)
Definition opt_list {A : Type} (o : option A) : list A :=
  match o with
  | Some x => [x]
  | None => []
  end.

(** ** Tree nodes *)

(** Modelled from the spec: the class [DecisionTreeNode] of
    [decision_tree.py], which is not part of the sources at hand. A node has
    an integer [id], an optional [parent] back-reference and at most two
    children, [left] and [right]. The list [node_holder.nodes] is the arena:
    [left] and [right] hold the position of the child object in it, and
    [parent] holds the parent's id, the only attribute Nodes.py reads
    through the back-reference. *)
Record DecisionTreeNode : Type := mkNode {
  id : Z;
  parent : option Z;
  left : option nat;
  right : option nat
}.

Definition deref (nodes : list DecisionTreeNode) (r : option nat)
  : option DecisionTreeNode :=
  match r with
  | Some i => nth_error nodes i
  | None => None
  end.

(** [for child in (node.left, node.right): if child is not None] *)
Definition child_nodes (nodes : list DecisionTreeNode) (node : DecisionTreeNode)
  : list DecisionTreeNode :=
  flat_map (fun r => match deref nodes r with Some c => [c] | None => [] end)
           [left node; right node].

(** ** class NodeHolder

    The handle of one (algorithm, N) key. The generator [decision_tree], the
    table [cmp_algorithms] and the class [CmpAlgorithm] live in modules that
    are not part of the sources at hand; they are parameters here. One call
    of the generator is represented by what the handle can observe of it: the
    progress callbacks it makes, then the tuple it returns or the exception
    it raises. [Exception] stands for the Python exceptions that
    [except Exception] catches. *)

Module NodeHolder.

Section WithGenerator.

Context {CmpAlgorithm : Type} {Exception : Type}.
Variable cmp_algorithms : list CmpAlgorithm.
Variable idx_use_letter_of : CmpAlgorithm -> Z -> bool.
Variable IndexError : Exception.

Inductive outcome (A : Type) : Type :=
| Returned (a : A)
| Raised (e : Exception)
| Blocked.                       (* waiting for [self.lock] *)

Arguments Returned {A} a.
Arguments Raised {A} e.
Arguments Blocked {A}.

Definition built : Type := (list DecisionTreeNode * list Z * Z)%type.

Record generation : Type := mkGeneration {
  progress_calls : list (Z * Z);
  gen_result : built + Exception
}.

Inductive printed : Type :=
| Print_init (algorithm : CmpAlgorithm) (N : Z)
| Print_fin (algorithm : CmpAlgorithm) (N : Z)
| Print_exc (e : Exception).

Record t : Type := mk {
  lock : bool;                                (* held *)
  progress : Z;
  initialize_scheduled : Z;                   (* one byte *)
  initialized_flag : Z;                       (* one byte *)
  cmp_algorithm : option CmpAlgorithm;
  idx_use_letter : option bool;
  nodes : option (list DecisionTreeNode);
  operation_cnts : option (list Z);
  leaf_cnt : option Z;
  stdout : list printed
}.

Definition with_lock (b : bool) (h : t) : t :=
  mk b (progress h) (initialize_scheduled h) (initialized_flag h)
     (cmp_algorithm h) (idx_use_letter h) (nodes h) (operation_cnts h)
     (leaf_cnt h) (stdout h).

Definition with_progress (x : Z) (h : t) : t :=
  mk (lock h) x (initialize_scheduled h) (initialized_flag h)
     (cmp_algorithm h) (idx_use_letter h) (nodes h) (operation_cnts h)
     (leaf_cnt h) (stdout h).

Definition with_initialize_scheduled (x : Z) (h : t) : t :=
  mk (lock h) (progress h) x (initialized_flag h)
     (cmp_algorithm h) (idx_use_letter h) (nodes h) (operation_cnts h)
     (leaf_cnt h) (stdout h).

Definition with_initialized_flag (x : Z) (h : t) : t :=
  mk (lock h) (progress h) (initialize_scheduled h) x
     (cmp_algorithm h) (idx_use_letter h) (nodes h) (operation_cnts h)
     (leaf_cnt h) (stdout h).

Definition with_algorithm (a : CmpAlgorithm) (letter : bool) (h : t) : t :=
  mk (lock h) (progress h) (initialize_scheduled h) (initialized_flag h)
     (Some a) (Some letter) (nodes h) (operation_cnts h)
     (leaf_cnt h) (stdout h).

Definition with_built (b : built) (h : t) : t :=
  mk (lock h) (progress h) (initialize_scheduled h) (initialized_flag h)
     (cmp_algorithm h) (idx_use_letter h)
     (Some (fst (fst b))) (Some (snd (fst b))) (Some (snd b)) (stdout h).

Definition print (p : printed) (h : t) : t :=
  mk (lock h) (progress h) (initialize_scheduled h) (initialized_flag h)
     (cmp_algorithm h) (idx_use_letter h) (nodes h) (operation_cnts h)
     (leaf_cnt h) (stdout h ++ [p]).

(** [set_progress]: the word stored in the cell. The cell is an 8-byte
    signed integer, and a store of a word outside [-2^63, 2^63) raises
    [OverflowError] in the source; that error is not represented, and what
    is proved of the progress word is proved of words that fit. *)
Definition set_progress (i total : Z) (h : t) : t :=
  with_progress (Z.lor (Z.shiftl i 32) total) h.

Definition get_progress (h : t) : Z * Z :=
  (Z.shiftr (progress h) 32, Z.land (progress h) 4294967295).

(** [time.sleep(0)] leaves the handle as it is. *)
Definition set_progress_and_yield (i total : Z) (h : t) : t :=
  set_progress i total h.

Definition __init__ : t :=
  set_progress 0 1 (mk false 0 0 0 None None None None None []).

(** [bit_test_set(0)]: the old value of bit 0, and the byte with it set. *)
Definition get_and_set_initialize_scheduled (h : t) : bool * t :=
  (Z.testbit (initialize_scheduled h) 0,
   with_initialize_scheduled (Z.lor (initialize_scheduled h) 1) h).

Definition _initialize (decision_tree : CmpAlgorithm -> Z -> generation)
  (algorithm : CmpAlgorithm) (N : Z) (h : t) : outcome unit * t :=
  let run := decision_tree algorithm N in
  let h := fold_left
             (fun h call => set_progress_and_yield (fst call) (snd call) h)
             (progress_calls run) h in
  match gen_result run with
  | inl b => (Returned tt, with_built b h)
  | inr e => (Raised e, with_initialize_scheduled 0 (print (Print_exc e) h))
  end.

Definition initialize (decision_tree : CmpAlgorithm -> Z -> generation)
  (cmp_algorithm_i N : Z) (h : t) : outcome unit * t :=
  if lock h then (Blocked, h)
  else
    let h := with_lock true h in
    let '(r, h) :=
      match getitem cmp_algorithms cmp_algorithm_i with
      | Ok algorithm =>
          let h := with_algorithm algorithm
                     (idx_use_letter_of algorithm N) h in
          let h := print (Print_init algorithm N) h in
          match _initialize decision_tree algorithm N h with
          | (Returned _, h) =>
              let h := print (Print_fin algorithm N) h in
              (Returned tt, with_initialized_flag 1 h)
          | (r, h) => (r, h)
          end
      | _ => (Raised IndexError, h)
      end in
    (r, with_lock false h).

Definition wait_until_initialized (h : t) : outcome unit :=
  if initialized_flag h =? 1 then Returned tt
  else if lock h then Blocked
  else Returned tt.

End WithGenerator.

Arguments outcome : clear implicits.
Arguments generation : clear implicits.
Arguments t : clear implicits.
Arguments Returned {Exception A} a.
Arguments Raised {Exception A} e.
Arguments Blocked {Exception A}.

End NodeHolder.

(** ** class Nodes *)

Module Nodes.

Section WithTree.

Variable nodes : list DecisionTreeNode.   (* self.node_holder.nodes *)

(** [_validate_visiblity_state]: the body of the [for] loop over
    [tmp_visiblity_state[1:]]; [valid] and [in_valid] are the two
    accumulators of the source. *)
Fixpoint validate_loop (l valid in_valid : list Z) : result (list Z) :=
  match l with
  | [] => Ok valid
  | node_id :: rest =>
      if len nodes <=? node_id then Ok valid            (* break *)
      else
        node <- getitem nodes node_id ;;
        match parent node with
        | None => Raise AttributeError                   (* None.id *)
        | Some parent_id =>
            if mem parent_id in_valid
            then validate_loop rest (valid ++ [node_id]) (node_id :: in_valid)
            else validate_loop rest valid in_valid
        end
  end.

Definition _validate_visiblity_state (tmp_visiblity_state : list Z)
  : result (list Z) :=
  validate_loop (tl tmp_visiblity_state) [0] [0].

Definition node_id_visiblity (state : list Z) (node_id : Z) : bool :=
  let i := searchsorted state node_id in
  (i <? length state)%nat &&
  match nth_error state i with
  | Some x => x =? node_id
  | None => false
  end.

Definition node_visiblity (state : list Z) (node : DecisionTreeNode) : bool :=
  node_id_visiblity state (id node).

Definition node_has_hidden_child (state : list Z) (node : DecisionTreeNode)
  : bool :=
  existsb (fun child => negb (node_visiblity state child))
          (child_nodes nodes node).

Definition node_is_leaf (node : DecisionTreeNode) : bool :=
  match deref nodes (left node), deref nodes (right node) with
  | None, None => true
  | _, _ => false
  end.

(** [expand_children]: one run of [for _ in range(len(Q))], which pops the
    nodes that were in the queue when it started and appends their children
    behind them. *)
Definition expand_level (display_depth depth : Z)
  (Q : list DecisionTreeNode) (update : list Z)
  : list Z * list DecisionTreeNode :=
  fold_left
    (fun acc node =>
       fold_left
         (fun '(update, Q') child =>
            (update ++ [id child],
             if depth <? display_depth then Q' ++ [child] else Q'))
         (child_nodes nodes node) acc)
    Q (update, []).

Fixpoint expand_loop (display_depth : Z) (fuel : nat)
  (Q : list DecisionTreeNode) (depth : Z) (update : list Z)
  : result (list Z) :=
  match Q with
  | [] => Ok update
  | _ :: _ =>
      match fuel with
      | O => OutOfFuel
      | S fuel' =>
          let '(update', Q') := expand_level display_depth depth Q update in
          expand_loop display_depth fuel' Q' (depth + 1) update'
      end
  end.

(** [expandSubtree(node, depthLimit)]; the source fixes the limit to
    [DISPLAY_DEPTH]. The [while] loop runs once per level, and nothing is
    queued from the level [display_depth] on: the fuel is one more than
    that. *)
Definition expand_subtree (display_depth : Z) (node : DecisionTreeNode)
  (state : list Z) : result (list Z) :=
  update <- expand_loop display_depth (S (Z.to_nat display_depth))
                        [node] 1 [] ;;
  Ok (merge state update).

Definition expand_children (node : DecisionTreeNode) (state : list Z)
  : result (list Z) :=
  expand_subtree Config.DISPLAY_DEPTH node state.

(** [hide_children]: the [for child] body and the [while Q] loop. *)
Definition hide_step (state : list Z) (node : DecisionTreeNode)
  (deletes : list nat) (Q : list DecisionTreeNode)
  : list nat * list DecisionTreeNode :=
  fold_left
    (fun '(deletes, Q) child =>
       let i := searchsorted state (id child) in
       if (i <? length state)%nat &&
          match nth_error state i with
          | Some x => x =? id child
          | None => false
          end
       then (deletes ++ [i], Q ++ [child])
       else (deletes, Q))
    (child_nodes nodes node) (deletes, Q).

Fixpoint hide_loop (state : list Z) (fuel : nat)
  (Q : list DecisionTreeNode) (deletes : list nat) : result (list nat) :=
  match Q with
  | [] => Ok deletes
  | node :: Q' =>
      match fuel with
      | O => OutOfFuel
      | S fuel' =>
          let '(deletes', Q'') := hide_step state node deletes Q' in
          hide_loop state fuel' Q'' deletes'
      end
  end.

(** The [while] loop pops one node per round, and in a tree no node is
    queued twice: the fuel is the number of nodes. *)
Definition hide_children (node : DecisionTreeNode) (state : list Z)
  : result (list Z) :=
  deletes <- hide_loop state (length nodes) [node] [] ;;
  Ok (np_delete state deletes).

Definition on_tap_node (node_id : Z) (state : list Z) : result (list Z) :=
  if (len nodes <=? node_id) || negb (node_id_visiblity state node_id)
  then Ok state
  else
    node <- getitem nodes node_id ;;
    if node_is_leaf node then Ok state
    else if node_has_hidden_child state node
         then expand_children node state
         else hide_children node state.

(** [expand_all]: the [for child] body and the [while Q and tot < cap]
    loop; the result of the loop is [(elem, tot)]. *)
Definition expand_all_step (cap : Z) (node : DecisionTreeNode)
  (tot : Z) (Q : list DecisionTreeNode) : Z * list DecisionTreeNode :=
  fold_left
    (fun '(tot, Q) child =>
       match child with
       | Some c => if tot <? cap then (tot + 1, Q ++ [c]) else (tot, Q)
       | None => (tot, Q)
       end)
    [deref nodes (left node); deref nodes (right node)] (tot, Q).

Fixpoint expand_all_loop (cap : Z) (fuel : nat)
  (Q : list DecisionTreeNode) (tot : Z) (elem : list Z)
  : result (list Z * Z) :=
  match Q with
  | [] => Ok (elem, tot)
  | node :: Q' =>
      if tot <? cap then
        match fuel with
        | O => OutOfFuel
        | S fuel' =>
            let '(tot', Q'') := expand_all_step cap node tot Q' in
            expand_all_loop cap fuel' Q'' tot' (elem ++ [id node])
        end
      else Ok (elem, tot)
  end.

(** [expandAll(cap)]: the new visibility array and the returned flag. Every
    node that is popped was counted in [tot] when it was queued, and the
    loop stops once [tot] reaches [cap]: the fuel is [cap]. *)
Definition expand_all_cap (cap : Z) : result (list Z * bool) :=
  root <- getitem nodes 0 ;;
  r <- expand_all_loop cap (Z.to_nat cap) [root] 1 [] ;;
  Ok (fst r, snd r <? cap).

Definition expand_all : result (list Z * bool) :=
  expand_all_cap Config.MAX_ELEMENTS.

(** [Nodes.__init__]: [visiblity_state] is the decoded token, when one is
    given. *)
Definition __init__ (visiblity_state : option (list Z))
  (validate_visiblity_state : bool) : result (list Z) :=
  match visiblity_state with
  | Some state =>
      if validate_visiblity_state then _validate_visiblity_state state
      else Ok state
  | None =>
      root <- getitem nodes 0 ;;
      expand_children root [0]
  end.

End WithTree.

(** *** The cache of handles

    [Nodes.cached] is an [OrderedDict] from the key (algorithm index, N) to
    the handle of that key; it is kept here as the list of its items, least
    recently used first. A handle is an object with an identity: it is
    represented by the number of [NodeHolder()] calls that preceded its
    creation. [cached_lock] is held during the whole call, so that calls
    happen one after the other. *)

Definition key : Type := (Z * Z)%type.

Definition key_eqb (a b : key) : bool :=
  (fst a =? fst b) && (snd a =? snd b).

Record cache : Type := mkCache {
  cached : list (key * nat);
  created : nat                       (* [NodeHolder()] calls so far *)
}.

(** [cached[k]], [None] when the key is missing. *)
Fixpoint lookup (k : key) (items : list (key * nat)) : option nat :=
  match items with
  | [] => None
  | (k', v) :: rest => if key_eqb k k' then Some v else lookup k rest
  end.

(** [k in cached] *)
Definition contains (k : key) (items : list (key * nat)) : bool :=
  match lookup k items with Some _ => true | None => false end.

Definition remove_key (k : key) (items : list (key * nat))
  : list (key * nat) :=
  filter (fun item => negb (key_eqb k (fst item))) items.

(** [cached.move_to_end(k)] for a key that is present; a missing key is a
    [KeyError], here [None]. *)
Definition move_to_end (k : key) (items : list (key * nat))
  : option (list (key * nat)) :=
  match lookup k items with
  | Some v => Some (remove_key k items ++ [(k, v)])
  | None => None
  end.

(** [cached.popitem(last=False)]: drops the first item; a [KeyError], here
    [None], on an empty dictionary. *)
Definition popitem_first (items : list (key * nat))
  : option (list (key * nat)) :=
  match items with
  | [] => None
  | _ :: rest => Some rest
  end.

(** [get_node_holder], with [MAX_CACHED_DECISION_TREES] as a parameter
    ([None] for no bound). The result is the handle returned and the cache
    afterwards, or [None] when the call raises. *)
Definition get_node_holder_max (max_cached : option Z)
  (cmp_algorithm_i N : Z) (c : cache) : option (nat * cache) :=
  let key := (cmp_algorithm_i, N) in
  if contains key (cached c) then
    match move_to_end key (cached c) with
    | Some items =>
        match rev (map snd items) with      (* next(reversed(values())) *)
        | ret :: _ => Some (ret, mkCache items (created c))
        | [] => None
        end
    | None => None
    end
  else
    let evicted :=
      match max_cached with
      | Some m =>
          if m <=? len (cached c) then popitem_first (cached c)
          else Some (cached c)
      | None => Some (cached c)
      end in
    match evicted with
    | Some items =>
        let ret := created c in             (* NodeHolder() *)
        Some (ret, mkCache (items ++ [(key, ret)]) (S (created c)))
    | None => None
    end.

Definition get_node_holder : Z -> Z -> cache -> option (nat * cache) :=
  get_node_holder_max (Some Config.MAX_CACHED_DECISION_TREES).

(** What holds of the cache at any time: no key twice, no more items than
    the bound, and every handle in it was created earlier and occurs once. *)
Record cache_ok (c : cache) : Prop := mkCacheOk {
  ok_keys : NoDup (map fst (cached c));
  ok_size : len (cached c) <= Config.MAX_CACHED_DECISION_TREES;
  ok_handles : NoDup (map snd (cached c));
  ok_created : forall v, In v (map snd (cached c)) -> (v < created c)%nat
}.

(** *** visible_elements

    [CmpAlgorithm.get_label] and [DecisionTreeNode.edge_data] belong to
    modules that are not part of the sources at hand; they are parameters
    here, as are the types of the labels and of the edge dictionaries they
    return. A node dictionary is kept as its three entries; the id is kept
    as the number that [str] prints. *)

Inductive css_class : Type :=
| is_leaf
| has_hidden_child.

Inductive element (Label EdgeData : Type) : Type :=
| NodeElement (id : Z) (label : Label) (classes : list css_class)
| EdgeElement (data : EdgeData).

Arguments NodeElement {Label EdgeData} id label classes.
Arguments EdgeElement {Label EdgeData} data.

Section Render.

Context {Label EdgeData : Type}.
Variable nodes : list DecisionTreeNode.   (* self.node_holder.nodes *)
Variable idx_use_letter : bool.           (* self.node_holder.idx_use_letter *)
Variable get_label : DecisionTreeNode -> bool -> Z -> Label.
Variable edge_data : DecisionTreeNode -> bool -> EdgeData.
Variable state : list Z.                  (* self.visiblity_state *)

(** The [for node_id in self.visiblity_state] loop; the result is what the
    iterations for the ids of [l] append to [ret]. *)
Fixpoint visible_elements_loop (show_full_labels : bool) (l : list Z)
  : result (list (element Label EdgeData)) :=
  match l with
  | [] => Ok []
  | node_id :: rest =>
      node <- getitem nodes node_id ;;
      let classes :=
        if node_is_leaf nodes node then [is_leaf]
        else if node_has_hidden_child nodes state node
             then [has_hidden_child]
             else [] in
      let label :=
        get_label node idx_use_letter
          (if show_full_labels then Config.LABEL_MAX_LENGTH
           else Config.LABEL_CROP_LENGTH) in
      let node_data := NodeElement (id node) label classes in
      let appended :=
        match parent node with
        | Some _ => [node_data; EdgeElement (edge_data node idx_use_letter)]
        | None => [node_data]
        end in
      ret <- visible_elements_loop show_full_labels rest ;;
      Ok (appended ++ ret)
  end.

Definition visible_elements (show_full_labels : bool)
  : result (list (element Label EdgeData)) :=
  visible_elements_loop show_full_labels state.

End Render.


End Nodes.

(** ** Elements.py: the eager view

    Every node and edge of the tree is one dict of the list
    [self.elements]; an [ElementNode] keeps references to its node dict and
    to the dict of the edge from its parent, which are the very dicts of
    that list. The list is the store here, and an [ElementNode] holds the
    positions of its two dicts in it. [visibility] is [true] for the string
    "visible" and [false] for "hidden", the only two values the source
    writes. Labels and classes play no part in visibility and are left
    out. *)

Module Elements.

(** Modelled from the spec: [Optional[DecisionTreeNode]] as Elements.py
    reads it from the module [decision_tree] of its own layout, which is not
    part of the sources at hand: an id handed out by a counter, the compared
    pair (absent on a leaf) and two children. *)
Inductive DecisionTree : Type :=
| NoNode
| Node (id : nat) (cmp_xy : option (Z * Z)) (left right : DecisionTree).

Inductive ElementData : Type :=
| NodeData (id : nat)
| EdgeData (source target : nat).

Record Element : Type := mkElement {
  data : ElementData;
  visibility : bool
}.

(** [Optional[ElementNode]] *)
Inductive ElementNode : Type :=
| NoElement
| ElemNode (node_data : nat) (edge_data : option nat)
           (left right : ElementNode).

(** [element["data"]["visibility"] == "visible"] for the dict at [i] *)
Definition vis (elements : list Element) (i : nat) : bool :=
  match nth_error elements i with
  | Some e => visibility e
  | None => false
  end.

(** [element["data"]["visibility"] = ...] for the dict at [i] *)
Fixpoint set_vis (elements : list Element) (i : nat) (value : bool)
  : list Element :=
  match elements, i with
  | [], _ => []
  | e :: rest, O => mkElement (data e) value :: rest
  | e :: rest, S i' => e :: set_vis rest i' value
  end.

(** The property [visible] and its setter. *)
Definition visible (elements : list Element) (node : ElementNode) : bool :=
  match node with
  | NoElement => false
  | ElemNode node_data _ _ _ => vis elements node_data
  end.

Definition set_visible (elements : list Element) (node : ElementNode)
  (value : bool) : list Element :=
  match node with
  | NoElement => elements
  | ElemNode node_data edge_data _ _ =>
      let elements := set_vis elements node_data value in
      match edge_data with
      | Some e => set_vis elements e value
      | None => elements
      end
  end.

(** [set_child_visible]: the inner [dfs]. *)
Fixpoint dfs_visible (display_depth : Z) (node : ElementNode) (depth : Z)
  (elements : list Element) : list Element :=
  match node with
  | NoElement => elements
  | ElemNode _ _ l r =>
      if display_depth <=? depth then elements
      else
        let elements := set_visible elements node true in
        let elements := dfs_visible display_depth l (depth + 1) elements in
        dfs_visible display_depth r (depth + 1) elements
  end.

Definition set_child_visible (node : ElementNode) (elements : list Element)
  : list Element :=
  dfs_visible Config.DISPLAY_DEPTH node 0 elements.

(** [set_child_hidden]: the inner [dfs]. *)
Fixpoint dfs_hidden (node : ElementNode) (elements : list Element)
  : list Element :=
  match node with
  | NoElement => elements
  | ElemNode _ _ l r =>
      let elements :=
        match l with
        | NoElement => elements
        | ElemNode child_data _ _ _ =>
            if vis elements child_data
            then dfs_hidden l (set_visible elements l false)
            else elements
        end in
      match r with
      | NoElement => elements
      | ElemNode child_data _ _ _ =>
          if vis elements child_data
          then dfs_hidden r (set_visible elements r false)
          else elements
      end
  end.

Definition set_child_hidden (node : ElementNode) (elements : list Element)
  : list Element :=
  dfs_hidden node elements.

(** [Elements.__init__]: the inner [dfs] called on [node] when
    [len(self.elements)] is [start]; it returns the element node made for
    [node], with its children wired, and the dicts appended meanwhile. *)
Fixpoint build (display_depth : Z) (node : DecisionTree)
  (edge_data : option nat) (depth : Z) (start : nat)
  : ElementNode * list Element :=
  match node with
  | NoNode => (NoElement, [])
  | Node id cmp_xy l r =>
      let node_data := mkElement (NodeData id) (depth <? display_depth) in
      match cmp_xy with
      | None => (ElemNode start edge_data NoElement NoElement, [node_data])
      | Some _ =>
          let built_l :=
            match l with
            | NoNode => (NoElement, [])
            | Node child_id _ _ _ =>
                let edge := mkElement (EdgeData id child_id)
                                      (depth + 1 <? display_depth) in
                let '(child, appended) :=
                  build display_depth l (Some (S start)) (depth + 1)
                        (S (S start)) in
                (child, edge :: appended)
            end in
          let start_r := (S start + length (snd built_l))%nat in
          let built_r :=
            match r with
            | NoNode => (NoElement, [])
            | Node child_id _ _ _ =>
                let edge := mkElement (EdgeData id child_id)
                                      (depth + 1 <? display_depth) in
                let '(child, appended) :=
                  build display_depth r (Some start_r) (depth + 1)
                        (S start_r) in
                (child, edge :: appended)
            end in
          (ElemNode start edge_data (fst built_l) (fst built_r),
           node_data :: snd built_l ++ snd built_r)
      end
  end.

(** [self.element_nodes[node.id] = element_node], after padding the list
    with [None] up to that position. *)
Fixpoint place (element_nodes : list ElementNode) (i : nat)
  (node : ElementNode) : list ElementNode :=
  match i, element_nodes with
  | O, [] => [node]
  | O, _ :: rest => node :: rest
  | S i', [] => NoElement :: place [] i' node
  | S i', x :: rest => x :: place rest i' node
  end.

(** The assignments to [self.element_nodes] in the order [dfs] makes
    them. *)
Fixpoint index_nodes (node : DecisionTree) (element_node : ElementNode)
  (element_nodes : list ElementNode) : list ElementNode :=
  match node, element_node with
  | Node id cmp_xy l r, ElemNode _ _ el er =>
      let element_nodes := place element_nodes id element_node in
      match cmp_xy with
      | None => element_nodes
      | Some _ => index_nodes r er (index_nodes l el element_nodes)
      end
  | _, _ => element_nodes
  end.

Record t : Type := mk {
  elements : list Element;
  element_nodes : list ElementNode
}.

(** [Elements.__init__], given the root that [decision_tree] returned. *)
Definition __init__ (root : DecisionTree) : t :=
  let '(root_node, elements) :=
    build Config.DISPLAY_DEPTH root None 0 0 in
  mk elements (index_nodes root root_node []).

(** [reset] *)
Definition reset (self : t) : result t :=
  root <- getitem (element_nodes self) 0 ;;
  match root with
  | NoElement => Raise AttributeError
  | ElemNode _ _ _ _ =>
      Ok (mk (set_child_visible root (set_child_hidden root (elements self)))
             (element_nodes self))
  end.

(** [get_visiblity] *)
Fixpoint get_visiblity (elements : list Element) : String.string :=
  match elements with
  | [] => String.EmptyString
  | e :: rest =>
      String.String (if visibility e then "1"%char else "0"%char)
                    (get_visiblity rest)
  end.

(** [set_visiblity]: [zip] stops at the shorter of the two; the dicts
    beyond the string keep their flag. *)
Fixpoint set_visiblity (elements : list Element) (visiblity : String.string)
  : list Element :=
  match elements, visiblity with
  | e :: rest, String.String c visiblity' =>
      mkElement (data e) (Ascii.eqb c "1"%char)
      :: set_visiblity rest visiblity'
  | _, _ => elements
  end.

(** The connectivity property of the eager view: below [node], a visible
    child has a visible parent. *)
Fixpoint connected_view (elements : list Element) (node : ElementNode)
  : Prop :=
  match node with
  | NoElement => True
  | ElemNode node_data _ l r =>
      (visible elements l = true -> vis elements node_data = true) /\
      (visible elements r = true -> vis elements node_data = true) /\
      connected_view elements l /\ connected_view elements r
  end.

(** [subnode n root]: [n] is one of the element nodes of the tree [root]. *)
Inductive subnode : ElementNode -> ElementNode -> Prop :=
| sub_here (nd : nat) (ed : option nat) (l r : ElementNode) :
    subnode (ElemNode nd ed l r) (ElemNode nd ed l r)
| sub_left (n : ElementNode) (nd : nat) (ed : option nat)
           (l r : ElementNode) :
    subnode n l -> subnode n (ElemNode nd ed l r)
| sub_right (n : ElementNode) (nd : nat) (ed : option nat)
            (l r : ElementNode) :
    subnode n r -> subnode n (ElemNode nd ed l r).

(** The positions of the dicts the nodes of a tree refer to. *)
Fixpoint slots (node : ElementNode) : list nat :=
  match node with
  | NoElement => []
  | ElemNode node_data edge_data l r =>
      node_data :: opt_list edge_data ++ slots l ++ slots r
  end.

(** Distinct nodes refer to distinct dicts, all of them in the list. *)
Definition wf_view (elements : list Element) (node : ElementNode) : Prop :=
  NoDup (slots node) /\
  forall i, In i (slots node) -> (i < length elements)%nat.

(** Every node of the tree is hidden. *)
Fixpoint all_hidden (elements : list Element) (node : ElementNode) : Prop :=
  match node with
  | NoElement => True
  | ElemNode node_data _ l r =>
      vis elements node_data = false /\
      all_hidden elements l /\ all_hidden elements r
  end.

(** What [set_child_hidden]'s [dfs] does for one child. *)
Definition hide_child (child : ElementNode) (elements : list Element)
  : list Element :=
  match child with
  | NoElement => elements
  | ElemNode child_data _ _ _ =>
      if vis elements child_data
      then dfs_hidden child (set_visible elements child false)
      else elements
  end.

(** What the loop of [__init__]'s [dfs] does for one child of the node
    with id [parent_id] when [len(self.elements)] is [start]: nothing for
    [None], else the edge dict and the recursive call. *)
Definition build_child (display_depth : Z) (parent_id : nat)
  (child : DecisionTree) (depth : Z) (start : nat)
  : ElementNode * list Element :=
  match child with
  | NoNode => (NoElement, [])
  | Node child_id _ _ _ =>
      (fst (build display_depth child (Some start) (depth + 1) (S start)),
       mkElement (EdgeData parent_id child_id) (depth + 1 <? display_depth)
       :: snd (build display_depth child (Some start) (depth + 1) (S start)))
  end.

(** What [dfs] builds for a node: distinct positions inside the part of the
    list it appends (its own edge apart), a connected subtree, and
    visibility only above the display depth. *)
Definition build_ok (dd : Z) (node : DecisionTree) : Prop :=
  forall edge depth start,
  let en := fst (build dd node edge depth start) in
  let els := snd (build dd node edge depth start) in
  ((forall e, edge = Some e -> (e < start)%nat) -> NoDup (slots en)) /\
  (forall i, In i (slots en) ->
     In i (opt_list edge) \/ (start <= i < start + length els)%nat) /\
  (forall pre post, length pre = start ->
     connected_view (pre ++ els ++ post) en /\
     (visible (pre ++ els ++ post) en = true -> depth < dd)).

Definition build_child_ok (dd : Z) (child : DecisionTree) : Prop :=
  forall parent_id depth start,
  let en := fst (build_child dd parent_id child depth start) in
  let els := snd (build_child dd parent_id child depth start) in
  NoDup (slots en) /\
  (forall i, In i (slots en) -> (start <= i < start + length els)%nat) /\
  (forall pre post, length pre = start ->
     connected_view (pre ++ els ++ post) en /\
     (visible (pre ++ els ++ post) en = true -> depth + 1 < dd)).

(** No node of the tree carries the id [i]. *)
Fixpoint id_free (i : nat) (node : DecisionTree) : bool :=
  match node with
  | NoNode => true
  | Node id _ l r => negb (id =? i)%nat && id_free i l && id_free i r
  end.

(** [crop_label]: from the characters of [full_label] to those of
    [croped_label]. *)
Definition crop_label (label : list ascii) : list ascii :=
  if Config.LABEL_MAX_LENGTH <? len label
  then firstn (Z.to_nat (Config.LABEL_MAX_LENGTH - 3)) label
       ++ ["."; "."; "."]%char
  else label.

(** [has_hidden_child] and [is_leaf] *)
Definition has_hidden_child (elements : list Element) (node : ElementNode)
  : bool :=
  match node with
  | NoElement => false
  | ElemNode _ _ l r =>
      (match l with
       | NoElement => false
       | ElemNode _ _ _ _ => negb (visible elements l)
       end)
      || (match r with
          | NoElement => false
          | ElemNode _ _ _ _ => negb (visible elements r)
          end)
  end.

Definition is_leaf (node : ElementNode) : bool :=
  match node with
  | ElemNode _ _ NoElement NoElement => true
  | _ => false
  end.

(** The three values [update_classes] writes. *)
Inductive classes : Type :=
| Class_is_leaf
| Class_has_hidden_child
| Class_none.

(** [update_classes]: the value written to [node_data["classes"]]. *)
Definition update_classes (elements : list Element) (node : ElementNode)
  : classes :=
  if is_leaf node then Class_is_leaf
  else if has_hidden_child elements node then Class_has_hidden_child
  else Class_none.

(** [visible_elements]: the loop over [self.element_nodes], which calls
    [update_classes] on every entry and so raises [AttributeError] on an
    entry that is [None]. The result holds the class written for each
    entry, in order. *)
Fixpoint update_all_classes (elements : list Element)
  (element_nodes : list ElementNode) : result (list classes) :=
  match element_nodes with
  | [] => Ok []
  | NoElement :: _ => Raise AttributeError
  | element_node :: rest =>
      written <- update_all_classes elements rest ;;
      Ok (update_classes elements element_node :: written)
  end.

(** [visible_elements]: once the classes are written, the dicts flagged
    visible, in the order of [self.elements]. *)
Definition visible_elements (self : t) : result (list Element) :=
  _ <- update_all_classes (elements self) (element_nodes self) ;;
  Ok (filter visibility (elements self)).

(** The dict of the edge into a node carries the flag of the node's dict,
    for every node of the tree. *)
Fixpoint mirrored (elements : list Element) (node : ElementNode) : Prop :=
  match node with
  | NoElement => True
  | ElemNode node_data edge_data l r =>
      (forall e, edge_data = Some e ->
                 vis elements e = vis elements node_data) /\
      mirrored elements l /\ mirrored elements r
  end.

(** The nodes of the tree less than [display_depth] levels down, and the
    edges into them, are shown, and nothing else of the tree is; [depth] is
    the level of [node]. *)
Fixpoint shown_to (display_depth : Z) (elements : list Element)
  (node : ElementNode) (depth : Z) : Prop :=
  match node with
  | NoElement => True
  | ElemNode node_data edge_data l r =>
      vis elements node_data = (depth <? display_depth) /\
      (forall e, edge_data = Some e ->
                 vis elements e = (depth <? display_depth)) /\
      shown_to display_depth elements l (depth + 1) /\
      shown_to display_depth elements r (depth + 1)
  end.

(** The nodes that [__init__]'s [dfs] reaches: it does not go below a node
    without a compared pair. *)
Fixpoint reached (node : DecisionTree) : nat :=
  match node with
  | NoNode => 0
  | Node _ None _ _ => 1
  | Node _ (Some _) l r => S (reached l + reached r)
  end.

(** [element["data"]] of the dict at [i] *)
Definition data_at (elements : list Element) (i : nat)
  : option ElementData :=
  option_map data (nth_error elements i).

(** The dicts of a tree of element nodes say what [__init__] wrote into
    them: a node dict carries the id of its node, and the dict of the edge
    into a child carries the ids of the parent and of the child. *)
Fixpoint wired (elements : list Element) (node : ElementNode) : Prop :=
  match node with
  | NoElement => True
  | ElemNode node_data _ l r =>
      exists id,
        data_at elements node_data = Some (NodeData id) /\
        (forall child_data e cl cr,
           l = ElemNode child_data (Some e) cl cr \/
           r = ElemNode child_data (Some e) cl cr ->
           exists child_id,
             data_at elements e = Some (EdgeData id child_id) /\
             data_at elements child_data = Some (NodeData child_id)) /\
        wired elements l /\ wired elements r
  end.

(** A string of the characters "0" and "1". *)
Fixpoint binary (s : String.string) : Prop :=
  match s with
  | String.EmptyString => True
  | String.String c s' => (c = "0"%char \/ c = "1"%char) /\ binary s'
  end.

End Elements.

(** ** Well-formed trees and valid visibility states *)

(** The arena positions a node refers to, left before right. *)
Definition refs (node : DecisionTreeNode) : list nat :=
  opt_list (left node) ++ opt_list (right node).

(** Node [i] of the arena carries id [i]; each child sits at a later position
    and names [i] as its parent. *)
Definition wf_node (nodes : list DecisionTreeNode) (i : nat)
  (node : DecisionTreeNode) : bool :=
  (id node =? Z.of_nat i) &&
  forallb
    (fun c =>
       (i <? c)%nat &&
       match nth_error nodes c with
       | Some child =>
           match parent child with
           | Some p => p =? Z.of_nat i
           | None => false
           end
       | None => false
       end)
    (refs node).

Fixpoint wf_nodes_from (nodes : list DecisionTreeNode) (i : nat)
  (l : list DecisionTreeNode) : bool :=
  match l with
  | [] => true
  | node :: l' => wf_node nodes i node && wf_nodes_from nodes (S i) l'
  end.

(** Modelled from the spec: the list [node_holder.nodes] that the generator
    [decision_tree], which is not part of the sources at hand, returns. It
    is a non-empty list whose first node is the parentless root, with
    [nodes[i].id == i], consistent child and parent links, every id greater
    than the parent's id, and ids handed out in the order of construction,
    which is breadth-first: the children of nodes 0, 1, 2, ... read in that
    order are the ids 1, 2, 3, ..., as in the scenario of the specification
    (1 and 2 below 0, then 3 below 2). Nodes.py relies on it: [expand_all]
    stores its breadth-first list as the sorted visibility array, and
    [expand_children] hands its breadth-first list to [snp.merge], which
    expects sorted input. *)
Definition wf_tree (nodes : list DecisionTreeNode) : bool :=
  match nodes with
  | [] => false
  | root :: _ => match parent root with None => true | Some _ => false end
  end
  && wf_nodes_from nodes 0 nodes
  && if list_eq_dec Nat.eq_dec (flat_map refs nodes)
                    (seq 1 (length nodes - 1))
     then true else false.

(** The parent id of the node with id [x] in the tree, when there is one. *)
Definition parent_of (nodes : list DecisionTreeNode) (x : Z) : option Z :=
  if x <? 0 then None
  else match nth_error nodes (Z.to_nat x) with
       | Some node => parent node
       | None => None
       end.

(** The ancestor [k] levels above the node with id [x]. *)
Fixpoint ancestor (nodes : list DecisionTreeNode) (k : nat) (x : Z)
  : option Z :=
  match k with
  | O => Some x
  | S k' =>
      match parent_of nodes x with
      | Some p => ancestor nodes k' p
      | None => None
      end
  end.

(** Strictly ascending, hence duplicate-free. *)
Definition ascending (s : list Z) : Prop := StronglySorted Z.lt s.

Fixpoint ascendingb (s : list Z) : bool :=
  match s with
  | [] => true
  | x :: s' => forallb (Z.ltb x) s' && ascendingb s'
  end.

(** The connectivity invariant: every member other than the root has a
    parent in the tree, and that parent is a member. *)
Definition connected (nodes : list DecisionTreeNode) (s : list Z) : Prop :=
  forall x, In x s -> x <> 0 ->
    exists p, parent_of nodes x = Some p /\ In p s.

Definition connectedb (nodes : list DecisionTreeNode) (s : list Z) : bool :=
  forallb
    (fun x =>
       (x =? 0) ||
       match parent_of nodes x with
       | Some p => mem p s
       | None => false
       end)
    s.

Record valid_state (nodes : list DecisionTreeNode) (s : list Z) : Prop := {
  vs_ascending : ascending s;
  vs_root : In 0 s;
  vs_connected : connected nodes s
}.

Definition valid_stateb (nodes : list DecisionTreeNode) (s : list Z) : bool :=
  ascendingb s && mem 0 s && connectedb nodes s.

(** ** The validation procedure in the words of the specification

    "Walks the array from its second element onward; any id at or beyond the
    current tree's node count truncates processing at that point. For each
    remaining id, it is kept only if its parent id has already been accepted
    into the validated result." An id without a parent in the tree has no
    accepted parent and is dropped. *)

Fixpoint validate_spec_loop (nodes : list DecisionTreeNode)
  (l accepted : list Z) : list Z :=
  match l with
  | [] => accepted
  | x :: rest =>
      if len nodes <=? x then accepted
      else
        match parent_of nodes x with
        | Some p =>
            if mem p accepted
            then validate_spec_loop nodes rest (accepted ++ [x])
            else validate_spec_loop nodes rest accepted
        | None => validate_spec_loop nodes rest accepted
        end
  end.

Definition validate_spec (nodes : list DecisionTreeNode) (raw : list Z)
  : list Z :=
  validate_spec_loop nodes (tl raw) [0].

(** [s] is [l] with some elements left out, order kept. *)
Inductive sublist {A : Type} : list A -> list A -> Prop :=
| sublist_nil : sublist [] []
| sublist_skip (x : A) (s l : list A) : sublist s l -> sublist s (x :: l)
| sublist_keep (x : A) (s l : list A) :
    sublist s l -> sublist (x :: s) (x :: l).

(** The ids of [l] before the first one at or beyond the node count. *)
Fixpoint in_range_prefix (nodes : list DecisionTreeNode) (l : list Z)
  : list Z :=
  match l with
  | [] => []
  | x :: rest =>
      if len nodes <=? x then [] else x :: in_range_prefix nodes rest
  end.

(** Every id of [s] has its parent among [accepted] or earlier in [s]. *)
Fixpoint parents_first (nodes : list DecisionTreeNode)
  (accepted s : list Z) : Prop :=
  match s with
  | [] => True
  | x :: s' =>
      (exists p, parent_of nodes x = Some p /\ In p accepted) /\
      parents_first nodes (accepted ++ [x]) s'
  end.

(** ** Notions used to state and prove the properties *)

Definition dummy_node : DecisionTreeNode := mkNode 0 None None None.

(** The node object at position [i] of the arena. *)
Definition node_at (nodes : list DecisionTreeNode) (i : nat)
  : DecisionTreeNode :=
  nth i nodes dummy_node.

(** The positions of the children of node [i]. *)
Definition kids (nodes : list DecisionTreeNode) (i : nat) : list nat :=
  refs (node_at nodes i).

(** One more than the number of children of the nodes before [i]: in a
    breadth-first numbering, the id of the first child of node [i]. *)
Definition first_child (nodes : list DecisionTreeNode) (i : nat) : nat :=
  S (length (flat_map refs (firstn i nodes))).

(** The nodes on the [k] levels below the nodes [qs], level after level. *)
Fixpoint below (nodes : list DecisionTreeNode) (k : nat) (qs : list nat)
  : list nat :=
  match k with
  | O => []
  | S k' =>
      let level := flat_map (kids nodes) qs in
      level ++ below nodes k' level
  end.

(** The nodes exactly [j] levels below the nodes [qs]. *)
Fixpoint level (nodes : list DecisionTreeNode) (j : nat) (qs : list nat)
  : list nat :=
  match j with
  | O => qs
  | S j' => flat_map (kids nodes) (level nodes j' qs)
  end.

(** The number of levels the loop of [expand_children] still visits when it
    is at [depth]. *)
Definition levels_left (dd depth : Z) : nat :=
  Z.to_nat (Z.max 1 (dd - depth + 1)).

(** The children of node [q] that are members of the ascending array [s]. *)
Definition visible_kids (nodes : list DecisionTreeNode) (s : list Z)
  (q : nat) : list nat :=
  filter (fun c => Nodes.node_id_visiblity s (Z.of_nat c)) (kids nodes q).

(** A queue of the traversals: ascending ids of the tree, all below the
    first child of any of them. *)
Definition bfs_block (nodes : list DecisionTreeNode) (qs : list nat) : Prop :=
  StronglySorted lt qs /\
  (forall q, In q qs -> (q < length nodes)%nat) /\
  (forall q w, In q qs -> In w qs -> (w < first_child nodes q)%nat).

(** What [hide_children] collects from node [v] in the state [s]: members
    of [s] hanging below [v], together with every visible child of [v] and
    of a collected node. *)
Definition hidden_closed (nodes : list DecisionTreeNode) (s : list Z)
  (v : nat) (hs : list nat) : Prop :=
  (forall h, In h hs ->
     In (Z.of_nat h) s /\
     exists p, (p < length nodes)%nat /\ In h (kids nodes p) /\
               In p (v :: hs)) /\
  (forall p c, In p (v :: hs) -> In c (kids nodes p) ->
     In (Z.of_nat c) s -> In c hs).

(** The node with id [x] lies below the node with id [v], some levels
    down. *)
Definition descendant (nodes : list DecisionTreeNode) (v x : Z) : Prop :=
  exists j, (0 < j)%nat /\ ancestor nodes j x = Some v.

(** ** Example trees *)

Definition leaf_node (i p : Z) : DecisionTreeNode :=
  mkNode i (Some p) None None.

(** The tree of the specification's scenario: root 0 with children 1 and 2,
    node 3 the child of 2. *)
Definition scenario_tree : list DecisionTreeNode :=
  [ mkNode 0 None (Some 1%nat) (Some 2%nat);
    leaf_node 1 0;
    mkNode 2 (Some 0) (Some 3%nat) None;
    leaf_node 3 2 ].


(** Root 0 with children 1 and 2, node 3 below 1 and node 4 below 2. *)
Definition five_node_tree : list DecisionTreeNode :=
  [ mkNode 0 None (Some 1%nat) (Some 2%nat);
    mkNode 1 (Some 0) (Some 3%nat) None;
    mkNode 2 (Some 0) (Some 4%nat) None;
    leaf_node 3 1;
    leaf_node 4 2 ].

(** The five-node shape 0 -> (1, 4), 1 -> (2, 3) with ids handed out
    depth-first: every id is greater than its parent's, but the order is
    not breadth-first. *)
Definition depth_first_tree : list DecisionTreeNode :=
  [ mkNode 0 None (Some 1%nat) (Some 4%nat);
    mkNode 1 (Some 0) (Some 2%nat) (Some 3%nat);
    leaf_node 2 1;
    leaf_node 3 1;
    leaf_node 4 0 ].

(** A generator, over algorithms and exceptions numbered by [nat], that
    reports progress once and then raises exception 13. *)
Definition failing_generator : nat -> Z -> NodeHolder.generation nat :=
  fun _ _ => NodeHolder.mkGeneration [(1, 6)] (inr 13%nat).

(** A generator that reports progress twice and then returns the scenario
    tree with its statistics. *)
Definition returning_generator : nat -> Z -> NodeHolder.generation nat :=
  fun _ _ =>
    NodeHolder.mkGeneration [(1, 2); (2, 2)] (inl (scenario_tree, [2; 3], 3)).

(** A cache of two handles, and a cache filled to the bound by ten
    requests for the keys (0, 0) ... (0, 9). *)
Definition two_item_cache : Nodes.cache :=
  Nodes.mkCache [((2, 5), 0%nat); ((1, 4), 1%nat)] 2.

Definition full_cache : Nodes.cache :=
  Nodes.mkCache (map (fun i => ((0, Z.of_nat i), i)) (seq 0 10)) 10.

(** A tree in which every node but the last has a left child only. *)
Definition chain_tree (n : nat) : list DecisionTreeNode :=
  map (fun i =>
         mkNode (Z.of_nat i)
                (match i with O => None | S j => Some (Z.of_nat j) end)
                (if (S i <? n)%nat then Some (S i) else None)
                None)
      (seq 0 n).

(** The complete binary tree on [n] nodes in breadth-first numbering: the
    children of node [i] are the nodes [2 i + 1] and [2 i + 2]. *)
Definition heap_tree (n : nat) : list DecisionTreeNode :=
  map (fun i =>
         mkNode (Z.of_nat i)
                (match i with
                 | O => None
                 | S j => Some (Z.of_nat (Nat.div2 j))
                 end)
                (if (2 * i + 1 <? n)%nat then Some (2 * i + 1)%nat else None)
                (if (2 * i + 2 <? n)%nat then Some (2 * i + 2)%nat else None))
      (seq 0 n).

(** A comparison node with one leaf below it, for the eager view. *)
Definition two_node_tree : Elements.DecisionTree :=
  Elements.Node 0 (Some (0, 1))
    (Elements.Node 1 None Elements.NoNode Elements.NoNode)
    Elements.NoNode.

(** A comparison node with id 0 whose only child, a leaf, has id 2: the
    ids leave position 1 of [element_nodes] empty. *)
Definition gap_tree : Elements.DecisionTree :=
  Elements.Node 0 (Some (0, 1))
    (Elements.Node 2 None Elements.NoNode Elements.NoNode)
    Elements.NoNode.

(** The characters of the state string "001". *)
Definition forged_visiblity : String.string :=
  String.String "0" (String.String "0"
    (String.String "1" String.EmptyString)).

(** * Properties *)

(** ** Arrays: membership, order, search, merge and deletion *)

Lemma mem_In (x : Z) (s : list Z) : mem x s = true <-> In x s.
Proof.
  unfold mem. rewrite existsb_exists. split.
  - intros [y [Hy Heq]]. apply Z.eqb_eq in Heq. now subst.
  - intros H. exists x. split; [assumption | apply Z.eqb_refl].
Qed.

Lemma ascendingb_ok (s : list Z) : ascendingb s = true -> ascending s.
Proof.
  induction s as [|x s IH]; simpl; intros H.
  - constructor.
  - apply andb_true_iff in H. destruct H as [H1 H2].
    constructor; [now apply IH|].
    apply Forall_forall. intros y Hy.
    rewrite forallb_forall in H1. now apply Z.ltb_lt, H1.
Qed.

Lemma connectedb_ok (nodes : list DecisionTreeNode) (s : list Z) :
  connectedb nodes s = true -> connected nodes s.
Proof.
  unfold connectedb, connected. rewrite forallb_forall.
  intros H x Hx Hx0. specialize (H x Hx).
  apply orb_true_iff in H. destruct H as [H|H].
  - apply Z.eqb_eq in H. contradiction.
  - destruct (parent_of nodes x) as [p|]; [|discriminate].
    exists p. split; [reflexivity | now apply mem_In].
Qed.

Lemma valid_stateb_ok (nodes : list DecisionTreeNode) (s : list Z) :
  valid_stateb nodes s = true -> valid_state nodes s.
Proof.
  unfold valid_stateb. intros H.
  apply andb_true_iff in H. destruct H as [H H3].
  apply andb_true_iff in H. destruct H as [H1 H2].
  split.
  - now apply ascendingb_ok.
  - now apply mem_In.
  - now apply connectedb_ok.
Qed.

Section StronglySortedFacts.

Context {A : Type} (R : A -> A -> Prop).

Lemma strongly_sorted_app (a b : list A) :
  StronglySorted R a -> StronglySorted R b ->
  (forall x y, In x a -> In y b -> R x y) ->
  StronglySorted R (a ++ b).
Proof.
  induction a as [|x a IH]; simpl; intros Ha Hb Hab; [assumption|].
  apply StronglySorted_inv in Ha. destruct Ha as [Ha Hx].
  constructor.
  - apply IH; auto.
  - apply Forall_app. split; [assumption|].
    apply Forall_forall. intros y Hy. apply Hab; auto.
Qed.

End StronglySortedFacts.

Lemma strongly_sorted_seq (a k : nat) : StronglySorted lt (seq a k).
Proof.
  revert a. induction k as [|k IH]; intros a; simpl; constructor.
  - apply IH.
  - apply Forall_forall. intros y Hy. apply in_seq in Hy. lia.
Qed.

Lemma ascending_map_of_nat (l : list nat) :
  StronglySorted lt l -> ascending (map Z.of_nat l).
Proof.
  induction 1 as [|x l Hl IH Hx]; simpl; constructor.
  - exact IH.
  - apply Forall_forall. intros y Hy. apply in_map_iff in Hy.
    destruct Hy as [u [<- Hu]]. rewrite Forall_forall in Hx.
    specialize (Hx u Hu). lia.
Qed.

Lemma ascending_cons_inv (x : Z) (s : list Z) :
  ascending (x :: s) -> ascending s /\ forall y, In y s -> x < y.
Proof.
  intros H. apply StronglySorted_inv in H. destruct H as [H1 H2].
  split; [assumption|]. now apply Forall_forall.
Qed.

Lemma ascending_cons (x : Z) (s : list Z) :
  ascending s -> (forall y, In y s -> x < y) -> ascending (x :: s).
Proof.
  intros H1 H2. constructor; [assumption|]. now apply Forall_forall.
Qed.

Lemma ascending_app (a b : list Z) :
  ascending a -> ascending b ->
  (forall x y, In x a -> In y b -> x < y) ->
  ascending (a ++ b).
Proof.
  induction a as [|x a IH]; simpl; intros Ha Hb Hab; [assumption|].
  apply ascending_cons_inv in Ha. destruct Ha as [Ha Hx].
  apply ascending_cons.
  - apply IH; auto.
  - intros y Hy. apply in_app_or in Hy. destruct Hy; auto.
Qed.

Lemma ascending_app_inv (a b : list Z) :
  ascending (a ++ b) ->
  ascending a /\ ascending b /\ forall x y, In x a -> In y b -> x < y.
Proof.
  induction a as [|x a IH]; simpl; intros H.
  - repeat split; [constructor | assumption | intros ? ? []].
  - apply ascending_cons_inv in H. destruct H as [H Hx].
    destruct (IH H) as (Ha & Hb & Hab).
    repeat split; try assumption.
    + apply ascending_cons; [assumption|].
      intros y Hy. apply Hx, in_or_app. now left.
    + intros u v [<-|Hu] Hv.
      * apply Hx, in_or_app. now right.
      * now apply Hab.
Qed.

(** Two strictly ascending arrays with the same members are equal. *)
Lemma ascending_ext (a b : list Z) :
  ascending a -> ascending b -> (forall x, In x a <-> In x b) -> a = b.
Proof.
  revert b. induction a as [|x a IH]; intros b Ha Hb Hab.
  - destruct b as [|y b]; [reflexivity|].
    exfalso. apply (proj2 (Hab y)). now left.
  - destruct b as [|y b].
    + exfalso. apply (proj1 (Hab x)). now left.
    + apply ascending_cons_inv in Ha. destruct Ha as [Ha Hx].
      apply ascending_cons_inv in Hb. destruct Hb as [Hb Hy].
      assert (x = y) as ->.
      { destruct (proj1 (Hab x) (or_introl eq_refl)) as [E|Hin];
          [now symmetry|].
        destruct (proj2 (Hab y) (or_introl eq_refl)) as [E|Hin']; [assumption|].
        specialize (Hx _ Hin'). specialize (Hy _ Hin). lia. }
      f_equal. apply IH; try assumption.
      intros z. split; intros Hz.
      * destruct (proj1 (Hab z) (or_intror Hz)) as [E|Hin]; [|assumption].
        subst z. specialize (Hx _ Hz). lia.
      * destruct (proj2 (Hab z) (or_intror Hz)) as [E|Hin]; [|assumption].
        subst z. specialize (Hy _ Hz). lia.
Qed.

Lemma searchsorted_In (a : list Z) (v : Z) :
  ascending a -> In v a -> nth_error a (searchsorted a v) = Some v.
Proof.
  induction a as [|x a IH]; simpl; intros Ha Hin; [contradiction|].
  apply ascending_cons_inv in Ha. destruct Ha as [Ha Hx].
  destruct (Z.ltb_spec x v) as [Hlt|Hge].
  - simpl. apply IH; [assumption|].
    destruct Hin as [->|Hin]; [lia | assumption].
  - simpl. destruct Hin as [->|Hin]; [reflexivity|].
    specialize (Hx _ Hin). lia.
Qed.

Lemma searchsorted_inj (a : list Z) (u v : Z) :
  ascending a -> In u a -> In v a ->
  searchsorted a u = searchsorted a v -> u = v.
Proof.
  intros Ha Hu Hv E.
  pose proof (searchsorted_In a u Ha Hu) as H1.
  pose proof (searchsorted_In a v Ha Hv) as H2.
  rewrite E in H1. congruence.
Qed.

Lemma node_id_visiblity_In (state : list Z) (v : Z) :
  ascending state -> (Nodes.node_id_visiblity state v = true <-> In v state).
Proof.
  intros Ha. unfold Nodes.node_id_visiblity. split.
  - intros H. apply andb_true_iff in H. destruct H as [_ H].
    destruct (nth_error state (searchsorted state v)) as [x|] eqn:E;
      [|discriminate].
    apply Z.eqb_eq in H. subst x. eapply nth_error_In; eassumption.
  - intros Hin. pose proof (searchsorted_In state v Ha Hin) as E.
    rewrite E, Z.eqb_refl, andb_true_r.
    apply Nat.ltb_lt. apply nth_error_Some. congruence.
Qed.

Lemma merge_In (a b : list Z) (x : Z) :
  In x (merge a b) <-> In x a \/ In x b.
Proof.
  revert b. induction a as [|u a IHa]; intros b.
  - destruct b; simpl; tauto.
  - induction b as [|v b IHb].
    + simpl. tauto.
    + simpl. destruct (Z.ltb_spec u v) as [Hlt|Hge].
      * simpl. rewrite IHa. simpl. tauto.
      * destruct (Z.ltb_spec v u) as [Hlt'|Hge'].
        -- simpl. simpl in IHb. rewrite IHb. tauto.
        -- assert (u = v) as -> by lia. simpl. rewrite IHa. tauto.
Qed.

Lemma merge_ascending (a b : list Z) :
  ascending a -> ascending b -> ascending (merge a b).
Proof.
  revert b. induction a as [|u a IHa]; intros b Ha Hb.
  - destruct b; assumption.
  - induction b as [|v b IHb].
    + assumption.
    + pose proof (ascending_cons_inv _ _ Ha) as [Ha' Hu].
      pose proof (ascending_cons_inv _ _ Hb) as [Hb' Hv].
      simpl. destruct (Z.ltb_spec u v) as [Hlt|Hge].
      * apply ascending_cons; [now apply IHa|].
        intros y Hy. apply merge_In in Hy. destruct Hy as [Hy|[<-|Hy]];
          [now apply Hu | assumption | specialize (Hv _ Hy); lia].
      * destruct (Z.ltb_spec v u) as [Hlt'|Hge'].
        -- apply ascending_cons; [now apply IHb|].
           intros y Hy. change (In y (merge (u :: a) b)) in Hy.
           apply merge_In in Hy. destruct Hy as [[<-|Hy]|Hy];
             [assumption | specialize (Hu _ Hy); lia | now apply Hv].
        -- assert (u = v) as -> by lia.
           apply ascending_cons; [now apply IHa|].
           intros y Hy. apply merge_In in Hy. destruct Hy; auto.
Qed.

Lemma np_delete_from_In (a : list Z) (idxs : list nat) (k : nat) (x : Z) :
  In x (np_delete_from k a idxs) <->
  exists j, nth_error a j = Some x /\ ~ In (k + j)%nat idxs.
Proof.
  revert k. induction a as [|y a IH]; intros k; simpl.
  - split; [intros [] | intros [[|j] [H _]]; discriminate].
  - destruct (existsb (Nat.eqb k) idxs) eqn:E.
    + rewrite IH. split.
      * intros [j [Hj Hn]]. exists (S j). split; [assumption|].
        now rewrite Nat.add_succ_r.
      * intros [[|j] [Hj Hn]].
        -- exfalso. apply Hn. apply existsb_exists in E.
           destruct E as [i [Hi Hki]]. apply Nat.eqb_eq in Hki. subst i.
           now rewrite Nat.add_0_r.
        -- exists j. split; [assumption|]. now rewrite Nat.add_succ_r in Hn.
    + simpl. rewrite IH. split.
      * intros [<-|[j [Hj Hn]]].
        -- exists O. split; [reflexivity|]. rewrite Nat.add_0_r.
           intros Hin. assert (existsb (Nat.eqb k) idxs = true) as E'.
           { apply existsb_exists. exists k. split; [assumption|].
             apply Nat.eqb_refl. }
           congruence.
        -- exists (S j). split; [assumption|]. now rewrite Nat.add_succ_r.
      * intros [[|j] [Hj Hn]].
        -- left. simpl in Hj. congruence.
        -- right. exists j. split; [assumption|].
           now rewrite Nat.add_succ_r in Hn.
Qed.

Lemma np_delete_from_ascending (a : list Z) (idxs : list nat) (k : nat) :
  ascending a -> ascending (np_delete_from k a idxs).
Proof.
  revert k. induction a as [|y a IH]; intros k Ha; simpl; [constructor|].
  apply ascending_cons_inv in Ha. destruct Ha as [Ha Hy].
  destruct (existsb (Nat.eqb k) idxs); [now apply IH|].
  apply ascending_cons; [now apply IH|].
  intros z Hz. apply np_delete_from_In in Hz. destruct Hz as [j [Hj _]].
  apply Hy. eapply nth_error_In; eassumption.
Qed.

Lemma nth_error_ascending_inj (a : list Z) (i j : nat) (x : Z) :
  ascending a -> nth_error a i = Some x -> nth_error a j = Some x -> i = j.
Proof.
  revert i j. induction a as [|y a IH]; intros i j Ha Hi Hj.
  - destruct i; discriminate.
  - apply ascending_cons_inv in Ha. destruct Ha as [Ha Hy].
    destruct i as [|i], j as [|j]; simpl in *.
    + reflexivity.
    + injection Hi as ->. apply nth_error_In in Hj. specialize (Hy _ Hj). lia.
    + injection Hj as ->. apply nth_error_In in Hi. specialize (Hy _ Hi). lia.
    + f_equal. now apply IH.
Qed.

(** On an ascending array, deleting the positions found by [searchsorted]
    for the members [hs] removes exactly those members. *)
Lemma np_delete_searchsorted (a hs : list Z) (x : Z) :
  ascending a -> (forall h, In h hs -> In h a) ->
  (In x (np_delete a (map (searchsorted a) hs)) <-> In x a /\ ~ In x hs).
Proof.
  intros Ha Hsub. unfold np_delete. rewrite np_delete_from_In. simpl. split.
  - intros [j [Hj Hn]]. pose proof (nth_error_In _ _ Hj) as Hin.
    split; [assumption|]. intros Hx. apply Hn. apply in_map_iff.
    exists x. split; [|assumption].
    eapply nth_error_ascending_inj; eauto using searchsorted_In.
  - intros [Hin Hn]. exists (searchsorted a x).
    split; [now apply searchsorted_In|].
    intros Hm. apply in_map_iff in Hm. destruct Hm as [h [Hh Hhin]].
    apply Hn. assert (h = x) as <-; [|assumption].
    eapply searchsorted_inj; eauto.
Qed.

(** ** Well-formed trees *)

Lemma seq_app_inv (A B : list nat) (a m : nat) :
  seq a m = A ++ B ->
  A = seq a (length A) /\ B = seq (a + length A) (length B).
Proof.
  revert a m. induction A as [|x A IH]; intros a m H; simpl in *.
  - rewrite Nat.add_0_r. split; [reflexivity|].
    rewrite <- H. now rewrite length_seq.
  - destruct m as [|m]; [discriminate|]. simpl in H.
    injection H as <- H. destruct (IH _ _ H) as [HA HB].
    split; [now f_equal|]. now rewrite Nat.add_succ_r.
Qed.

Lemma wf_nodes_from_nth (nodes l : list DecisionTreeNode) (k j : nat)
  (node : DecisionTreeNode) :
  wf_nodes_from nodes k l = true -> nth_error l j = Some node ->
  wf_node nodes (k + j) node = true.
Proof.
  revert k j. induction l as [|x l IH]; intros k j H Hj.
  - destruct j; discriminate.
  - simpl in H. apply andb_true_iff in H. destruct H as [Hx Hl].
    destruct j as [|j]; simpl in Hj.
    + injection Hj as <-. now rewrite Nat.add_0_r.
    + rewrite Nat.add_succ_r. apply (IH (S k) j); assumption.
Qed.

Lemma firstn_seq_min (m a k : nat) :
  firstn m (seq a k) = seq a (Nat.min m k).
Proof.
  revert a k. induction m as [|m IH]; intros a k; [reflexivity|].
  destruct k as [|k]; [reflexivity|]. simpl. f_equal. apply IH.
Qed.

Lemma firstn_succ_nth {A : Type} (l : list A) (d : A) (i : nat) :
  (i < length l)%nat -> firstn (S i) l = firstn i l ++ [nth i l d].
Proof.
  revert i. induction l as [|x l IH]; intros i Hi; simpl in Hi; [lia|].
  destruct i as [|i]; [reflexivity|].
  change (x :: firstn (S i) l = x :: (firstn i l ++ [nth i l d])).
  f_equal. apply IH. lia.
Qed.

Lemma node_is_leaf_child_nodes (nodes : list DecisionTreeNode)
  (node : DecisionTreeNode) :
  Nodes.node_is_leaf nodes node = true <-> child_nodes nodes node = [].
Proof.
  unfold Nodes.node_is_leaf, child_nodes. cbn [flat_map].
  destruct (deref nodes (left node)), (deref nodes (right node));
    cbn [app]; split; intros H; try reflexivity; discriminate.
Qed.

Lemma node_has_hidden_child_true (nodes : list DecisionTreeNode)
  (state : list Z) (node : DecisionTreeNode) :
  ascending state ->
  Nodes.node_has_hidden_child nodes state node = true <->
  exists child, In child (child_nodes nodes node) /\ ~ In (id child) state.
Proof.
  intros Ha. unfold Nodes.node_has_hidden_child, Nodes.node_visiblity.
  rewrite existsb_exists. split; intros [c [Hc H]]; exists c;
    (split; [exact Hc|]).
  - intros Hin. apply (node_id_visiblity_In state (id c) Ha) in Hin.
    rewrite Hin in H. discriminate.
  - destruct (Nodes.node_id_visiblity state (id c)) eqn:E; [|reflexivity].
    exfalso. apply H. now apply node_id_visiblity_In.
Qed.

Lemma node_has_hidden_child_false (nodes : list DecisionTreeNode)
  (state : list Z) (node : DecisionTreeNode) :
  ascending state ->
  Nodes.node_has_hidden_child nodes state node = false <->
  forall child, In child (child_nodes nodes node) -> In (id child) state.
Proof.
  intros Ha. unfold Nodes.node_has_hidden_child, Nodes.node_visiblity.
  split.
  - intros H c Hc. apply node_id_visiblity_In; [exact Ha|].
    destruct (Nodes.node_id_visiblity state (id c)) eqn:E; [reflexivity|].
    assert (existsb
              (fun child => negb (Nodes.node_id_visiblity state (id child)))
              (child_nodes nodes node) = true) as E'.
    { apply existsb_exists. exists c. split; [exact Hc|]. now rewrite E. }
    congruence.
  - intros H.
    destruct (existsb _ _) eqn:E; [|reflexivity].
    apply existsb_exists in E. destruct E as [c [Hc E]].
    apply (node_id_visiblity_In state (id c) Ha) in H; [|exact Hc].
    rewrite H in E. discriminate.
Qed.

Section TreeFacts.

Variable nodes : list DecisionTreeNode.
Hypothesis Hwf : wf_tree nodes = true.

Let n : nat := length nodes.

Lemma wf_tree_inv :
  (0 < n)%nat /\ parent (node_at nodes 0) = None /\
  wf_nodes_from nodes 0 nodes = true /\
  flat_map refs nodes = seq 1 (n - 1).
Proof.
  unfold wf_tree in Hwf.
  apply andb_true_iff in Hwf. destruct Hwf as [H H3].
  apply andb_true_iff in H. destruct H as [H1 H2].
  destruct (list_eq_dec Nat.eq_dec (flat_map refs nodes)
                        (seq 1 (length nodes - 1))) as [E|]; [|discriminate].
  subst n. destruct nodes as [|root rest]; [discriminate|].
  repeat split; try assumption.
  - simpl. lia.
  - unfold node_at. simpl. destruct (parent root); [discriminate|reflexivity].
Qed.

Lemma node_at_nth_error (i : nat) :
  (i < n)%nat -> nth_error nodes i = Some (node_at nodes i).
Proof.
  intros Hi. unfold node_at. now apply nth_error_nth'.
Qed.

Lemma nth_error_node_at (i : nat) (node : DecisionTreeNode) :
  nth_error nodes i = Some node -> (i < n)%nat /\ node = node_at nodes i.
Proof.
  intros H. assert (i < n)%nat as Hi.
  { apply nth_error_Some. congruence. }
  split; [assumption|]. rewrite (node_at_nth_error i Hi) in H. congruence.
Qed.

Lemma wf_node_at (i : nat) :
  (i < n)%nat -> wf_node nodes i (node_at nodes i) = true.
Proof.
  intros Hi. destruct wf_tree_inv as (_ & _ & H & _).
  apply (wf_nodes_from_nth nodes nodes 0 i); [assumption|].
  now apply node_at_nth_error.
Qed.

Lemma id_node_at (i : nat) :
  (i < n)%nat -> id (node_at nodes i) = Z.of_nat i.
Proof.
  intros Hi. pose proof (wf_node_at i Hi) as H. unfold wf_node in H.
  apply andb_true_iff in H. destruct H as [H _]. now apply Z.eqb_eq.
Qed.

Lemma kids_inv (i c : nat) :
  (i < n)%nat -> In c (kids nodes i) ->
  (i < c)%nat /\ (c < n)%nat /\
  parent (node_at nodes c) = Some (Z.of_nat i).
Proof.
  intros Hi Hc. pose proof (wf_node_at i Hi) as H. unfold wf_node in H.
  apply andb_true_iff in H. destruct H as [_ H].
  rewrite forallb_forall in H. specialize (H c Hc).
  apply andb_true_iff in H. destruct H as [H1 H2].
  apply Nat.ltb_lt in H1.
  destruct (nth_error nodes c) as [child|] eqn:E; [|discriminate].
  apply nth_error_node_at in E. destruct E as [Hcn ->].
  destruct (parent (node_at nodes c)) as [p|]; [|discriminate].
  apply Z.eqb_eq in H2. subst p. auto.
Qed.

Lemma first_child_succ (i : nat) :
  (i < n)%nat ->
  first_child nodes (S i) = (first_child nodes i + length (kids nodes i))%nat.
Proof.
  intros Hi. unfold first_child, kids, node_at.
  rewrite (firstn_succ_nth nodes dummy_node i Hi).
  rewrite flat_map_app, length_app. simpl. rewrite app_nil_r. lia.
Qed.

Lemma kids_seq (i : nat) :
  (i < n)%nat ->
  kids nodes i = seq (first_child nodes i) (length (kids nodes i)).
Proof.
  intros Hi. destruct wf_tree_inv as (_ & _ & _ & Hbfs).
  rewrite <- (firstn_skipn (S i) nodes) in Hbfs.
  rewrite (firstn_succ_nth nodes dummy_node i Hi) in Hbfs.
  rewrite !flat_map_app in Hbfs. cbn [flat_map] in Hbfs.
  rewrite app_nil_r in Hbfs. symmetry in Hbfs.
  apply seq_app_inv in Hbfs. destruct Hbfs as [HA _].
  symmetry in HA. rewrite length_app in HA.
  apply seq_app_inv in HA. destruct HA as [_ HB].
  exact HB.
Qed.

Lemma first_child_step (i : nat) :
  (first_child nodes i <= first_child nodes (S i))%nat.
Proof.
  destruct (Nat.lt_ge_cases i n) as [Hi|Hi].
  - rewrite (first_child_succ i Hi). lia.
  - unfold first_child. rewrite !firstn_all2 by (fold n; lia). lia.
Qed.

Lemma first_child_mono (i j : nat) :
  (i <= j)%nat -> (first_child nodes i <= first_child nodes j)%nat.
Proof.
  induction 1 as [|j Hij IH]; [lia|].
  pose proof (first_child_step j). lia.
Qed.

Lemma kids_bounds (i c : nat) :
  (i < n)%nat -> In c (kids nodes i) ->
  (first_child nodes i <= c < first_child nodes (S i))%nat.
Proof.
  intros Hi Hc. rewrite (first_child_succ i Hi).
  rewrite (kids_seq i Hi) in Hc. apply in_seq in Hc. lia.
Qed.

(** Every node but the root is the child of an earlier node. *)
Lemma has_parent (x : nat) :
  (0 < x < n)%nat ->
  exists p, (p < x)%nat /\ In x (kids nodes p).
Proof.
  intros Hx. destruct wf_tree_inv as (_ & _ & _ & Hbfs).
  assert (In x (flat_map refs nodes)) as Hin.
  { rewrite Hbfs. apply in_seq. lia. }
  apply in_flat_map in Hin. destruct Hin as [node [Hnode Hin]].
  apply In_nth_error in Hnode. destruct Hnode as [p Hp].
  apply nth_error_node_at in Hp. destruct Hp as [Hpn ->].
  exists p. split; [|exact Hin].
  now destruct (kids_inv p x Hpn Hin).
Qed.

Lemma first_child_gt (i : nat) :
  (i < n)%nat -> (i < first_child nodes i)%nat.
Proof.
  intros Hi. destruct i as [|i]; [unfold first_child; simpl; lia|].
  destruct (has_parent (S i)) as [p [Hp Hin]]; [lia|].
  assert (p < n)%nat as Hpn by lia.
  pose proof (kids_bounds p (S i) Hpn Hin) as Hb.
  pose proof (first_child_mono (S p) (S i)). lia.
Qed.

Lemma parent_of_node_at (x : nat) :
  (x < n)%nat ->
  parent_of nodes (Z.of_nat x) = parent (node_at nodes x).
Proof.
  intros Hx. unfold parent_of.
  destruct (Z.ltb_spec (Z.of_nat x) 0); [lia|].
  rewrite Nat2Z.id. now rewrite (node_at_nth_error x Hx).
Qed.

Lemma parent_of_kid (p u : nat) :
  (p < n)%nat -> In u (kids nodes p) ->
  parent_of nodes (Z.of_nat u) = Some (Z.of_nat p).
Proof.
  intros Hp Hu. destruct (kids_inv p u Hp Hu) as (_ & Hun & E).
  now rewrite parent_of_node_at.
Qed.

Lemma parent_of_inv (x y : Z) :
  parent_of nodes x = Some y ->
  exists u p, x = Z.of_nat u /\ y = Z.of_nat p /\
              (u < n)%nat /\ (p < u)%nat /\ In u (kids nodes p).
Proof.
  unfold parent_of. intros H.
  destruct (Z.ltb_spec x 0) as [|Hx]; [discriminate|].
  destruct (nth_error nodes (Z.to_nat x)) as [node|] eqn:E; [|discriminate].
  apply nth_error_node_at in E. destruct E as [Hun ->].
  set (u := Z.to_nat x) in *.
  destruct (Nat.eq_dec u 0) as [E0|Hne].
  - rewrite E0 in H. destruct wf_tree_inv as (_ & Hroot & _).
    congruence.
  - destruct (has_parent u) as [p [Hp Hin]]; [lia|].
    assert (p < n)%nat as Hpn by lia.
    destruct (kids_inv p u Hpn Hin) as (_ & _ & E).
    exists u, p. repeat split; try assumption; [subst u; lia | congruence].
Qed.

Lemma deref_kid (i c : nat) :
  (i < n)%nat -> In c (kids nodes i) ->
  nth_error nodes c = Some (node_at nodes c).
Proof.
  intros Hi Hc. apply node_at_nth_error.
  now destruct (kids_inv i c Hi Hc) as (_ & ? & _).
Qed.

Lemma child_nodes_node_at (i : nat) :
  (i < n)%nat ->
  child_nodes nodes (node_at nodes i) = map (node_at nodes) (kids nodes i).
Proof.
  intros Hi. pose proof (deref_kid i) as Hd.
  unfold child_nodes, kids, refs in *. cbn [flat_map].
  destruct (left (node_at nodes i)) as [l|], (right (node_at nodes i)) as [r|];
    cbn [deref opt_list app map] in *.
  - rewrite (Hd l Hi), (Hd r Hi) by (simpl; auto). reflexivity.
  - rewrite (Hd l Hi) by (simpl; auto). reflexivity.
  - rewrite (Hd r Hi) by (simpl; auto). reflexivity.
  - reflexivity.
Qed.

(** *** Breadth-first order *)

Lemma bfs_block_single (v : nat) : (v < n)%nat -> bfs_block nodes [v].
Proof.
  intros Hv. repeat split.
  - repeat constructor.
  - intros q [<-|[]]. assumption.
  - intros q w [<-|[]] [<-|[]]. now apply first_child_gt.
Qed.

Lemma flat_map_kids_sorted (qs : list nat) :
  StronglySorted lt qs -> (forall q, In q qs -> (q < n)%nat) ->
  StronglySorted lt (flat_map (kids nodes) qs).
Proof.
  induction 1 as [|q qs Hqs IH Hq]; intros Hn; simpl; [constructor|].
  apply strongly_sorted_app.
  - rewrite kids_seq by (apply Hn; now left). apply strongly_sorted_seq.
  - apply IH. intros; apply Hn; now right.
  - intros x y Hx Hy. apply in_flat_map in Hy. destruct Hy as [q' [Hq' Hy]].
    rewrite Forall_forall in Hq. specialize (Hq q' Hq').
    apply kids_bounds in Hx; [|apply Hn; now left].
    apply kids_bounds in Hy; [|apply Hn; now right].
    pose proof (first_child_mono (S q) q'). lia.
Qed.

Lemma bfs_block_level (qs : list nat) :
  bfs_block nodes qs ->
  bfs_block nodes (flat_map (kids nodes) qs) /\
  (forall w x, In w qs -> In x (flat_map (kids nodes) qs) -> (w < x)%nat).
Proof.
  intros (Hs & Hn & Hc).
  assert (forall w x, In w qs -> In x (flat_map (kids nodes) qs) ->
                      (w < x)%nat) as Hlt.
  { intros w x Hw Hx. apply in_flat_map in Hx. destruct Hx as [q [Hq Hx]].
    apply kids_bounds in Hx; [|now apply Hn].
    specialize (Hc q w Hq Hw). lia. }
  split; [|exact Hlt]. repeat split.
  - now apply flat_map_kids_sorted.
  - intros x Hx. apply in_flat_map in Hx. destruct Hx as [q [Hq Hx]].
    now destruct (kids_inv q x (Hn q Hq) Hx) as (_ & ? & _).
  - intros x w Hx Hw.
    pose proof Hw as Hw'. apply in_flat_map in Hw'.
    destruct Hw' as [q [Hq Hw']].
    apply kids_bounds in Hw'; [|now apply Hn].
    specialize (Hlt q x Hq Hx).
    pose proof (first_child_mono (S q) x). lia.
Qed.

Lemma below_nil (k : nat) : below nodes k [] = [].
Proof. induction k as [|k IH]; simpl; [reflexivity | exact IH]. Qed.

Lemma below_sorted (k : nat) (qs : list nat) :
  bfs_block nodes qs ->
  StronglySorted lt (below nodes k qs) /\
  (forall w x, In w qs -> In x (below nodes k qs) -> (w < x)%nat) /\
  (forall x, In x (below nodes k qs) -> (x < n)%nat).
Proof.
  revert qs. induction k as [|k IH]; intros qs Hqs; simpl.
  - repeat split; [constructor | intros ? ? ? [] | intros ? []].
  - destruct (bfs_block_level qs Hqs) as [HL Hlt].
    destruct (IH _ HL) as (Hs & Hlt' & Hn').
    assert (forall w x, In w qs ->
              In x (below nodes k (flat_map (kids nodes) qs)) -> (w < x)%nat)
      as Hlt2.
    { intros w x Hw Hx.
      destruct (flat_map (kids nodes) qs) as [|l L] eqn:EL.
      - rewrite below_nil in Hx. destruct Hx.
      - assert (w < l)%nat by (apply Hlt; [assumption | now left]).
        assert (l < x)%nat by (apply Hlt'; [now left | assumption]).
        lia. }
    repeat split.
    + apply strongly_sorted_app; [apply HL | exact Hs | exact Hlt'].
    + intros w x Hw Hx. apply in_app_or in Hx. destruct Hx; eauto.
    + intros x Hx. apply in_app_or in Hx. destruct Hx as [Hx|Hx];
        [now apply HL | now apply Hn'].
Qed.

Lemma level_flat_map (j : nat) (qs : list nat) :
  level nodes j (flat_map (kids nodes) qs) =
  flat_map (kids nodes) (level nodes j qs).
Proof.
  induction j as [|j IH]; simpl; [reflexivity | now rewrite IH].
Qed.

Lemma below_level (k : nat) (qs : list nat) (u : nat) :
  In u (below nodes k qs) <->
  exists j, (1 <= j <= k)%nat /\ In u (level nodes j qs).
Proof.
  revert qs. induction k as [|k IH]; intros qs; simpl.
  - split; [intros [] | intros [j [Hj _]]; lia].
  - rewrite in_app_iff, IH. split.
    + intros [Hu|[j [Hj Hu]]].
      * exists 1%nat. split; [lia | exact Hu].
      * exists (S j). split; [lia|]. simpl. now rewrite <- level_flat_map.
    + intros [j [Hj Hu]]. destruct j as [|[|j]]; [lia| |].
      * left. exact Hu.
      * right. exists (S j). split; [lia|].
        rewrite level_flat_map. exact Hu.
Qed.

Lemma level_ancestor (j v u : nat) :
  (v < n)%nat ->
  In u (level nodes j [v]) <->
  (u < n)%nat /\ ancestor nodes j (Z.of_nat u) = Some (Z.of_nat v).
Proof.
  intros Hv. revert u. induction j as [|j IH]; intros u; simpl.
  - split.
    + intros [<-|[]]. auto.
    + intros [_ E]. left. injection E. lia.
  - rewrite in_flat_map. split.
    + intros [p [Hp Hu]]. apply IH in Hp. destruct Hp as [Hpn Hp].
      split; [now destruct (kids_inv p u Hpn Hu) as (_ & ? & _)|].
      now rewrite (parent_of_kid p u Hpn Hu).
    + intros [Hun E].
      destruct (parent_of nodes (Z.of_nat u)) as [y|] eqn:Ey; [|discriminate].
      apply parent_of_inv in Ey.
      destruct Ey as (u' & p & Eu & -> & _ & Hpu & Hin).
      apply Nat2Z.inj in Eu. subst u'.
      exists p. split; [|exact Hin]. apply IH. split; [lia | exact E].
Qed.

(** *** expand_children *)

Lemma expand_level_eq (dd depth : Z) (Q : list DecisionTreeNode)
  (update : list Z) :
  Nodes.expand_level nodes dd depth Q update =
  (update ++ map id (flat_map (child_nodes nodes) Q),
   if depth <? dd then flat_map (child_nodes nodes) Q else []).
Proof.
  unfold Nodes.expand_level.
  assert (forall cs u (q : list DecisionTreeNode),
    fold_left
      (fun '(update, Q') child =>
         (update ++ [id child], if depth <? dd then Q' ++ [child] else Q'))
      cs (u, q) =
    (u ++ map id cs, if depth <? dd then q ++ cs else q)) as Hin.
  { induction cs as [|c cs IH]; intros u q; simpl.
    - rewrite !app_nil_r. now destruct (depth <? dd).
    - rewrite IH. destruct (depth <? dd); rewrite <- !app_assoc; reflexivity. }
  assert (forall Q0 u (q : list DecisionTreeNode),
    fold_left
      (fun acc node =>
         fold_left
           (fun '(update, Q') child =>
              (update ++ [id child],
               if depth <? dd then Q' ++ [child] else Q'))
           (child_nodes nodes node) acc)
      Q0 (u, q) =
    (u ++ map id (flat_map (child_nodes nodes) Q0),
     if depth <? dd then q ++ flat_map (child_nodes nodes) Q0 else q)) as Hout.
  { induction Q0 as [|x Q0 IH]; intros u q; simpl.
    - rewrite !app_nil_r. now destruct (depth <? dd).
    - rewrite Hin, IH.
      destruct (depth <? dd); rewrite map_app, <- !app_assoc; reflexivity. }
  rewrite Hout. reflexivity.
Qed.

Lemma flat_map_child_nodes (qs : list nat) :
  (forall q, In q qs -> (q < n)%nat) ->
  flat_map (child_nodes nodes) (map (node_at nodes) qs) =
  map (node_at nodes) (flat_map (kids nodes) qs).
Proof.
  induction qs as [|q qs IH]; intros Hq; simpl; [reflexivity|].
  rewrite map_app, IH by (intros; apply Hq; now right).
  rewrite child_nodes_node_at by (apply Hq; now left). reflexivity.
Qed.

Lemma map_id_node_at (qs : list nat) :
  (forall q, In q qs -> (q < n)%nat) ->
  map id (map (node_at nodes) qs) = map Z.of_nat qs.
Proof.
  intros Hq. rewrite map_map. apply map_ext_in.
  intros q Hin. apply id_node_at. now apply Hq.
Qed.

Lemma flat_map_kids_lt (qs : list nat) :
  (forall q, In q qs -> (q < n)%nat) ->
  forall x, In x (flat_map (kids nodes) qs) -> (x < n)%nat.
Proof.
  intros Hq x Hx. apply in_flat_map in Hx. destruct Hx as [q [Hin Hx]].
  now destruct (kids_inv q x (Hq q Hin) Hx) as (_ & ? & _).
Qed.

Lemma expand_loop_eq (dd : Z) (fuel : nat) :
  forall (qs : list nat) (depth : Z) (update : list Z),
  (forall q, In q qs -> (q < n)%nat) ->
  (levels_left dd depth <= fuel)%nat ->
  Nodes.expand_loop nodes dd fuel (map (node_at nodes) qs) depth update =
  Ok (update ++ map Z.of_nat (below nodes (levels_left dd depth) qs)).
Proof.
  induction fuel as [|fuel IH]; intros qs depth update Hq Hf.
  - unfold levels_left in Hf. lia.
  - destruct qs as [|q qs].
    + simpl. now rewrite below_nil, app_nil_r.
    + cbn [map Nodes.expand_loop]. rewrite expand_level_eq.
      change (node_at nodes q :: map (node_at nodes) qs)
        with (map (node_at nodes) (q :: qs)).
      rewrite (flat_map_child_nodes (q :: qs) Hq).
      set (L := flat_map (kids nodes) (q :: qs)).
      assert (forall x, In x L -> (x < n)%nat) as HL
        by (apply flat_map_kids_lt; exact Hq).
      rewrite (map_id_node_at L HL).
      destruct (Z.ltb_spec depth dd) as [Hlt|Hge].
      * rewrite IH; [|exact HL|unfold levels_left in *; lia].
        assert (levels_left dd depth = S (levels_left dd (depth + 1))) as ->
          by (unfold levels_left; lia).
        cbn [below]. fold L. now rewrite map_app, <- app_assoc.
      * assert (levels_left dd depth = 1%nat) as ->
          by (unfold levels_left; lia).
        cbn [below]. fold L. rewrite app_nil_r.
        destruct fuel; reflexivity.
Qed.

Lemma expand_subtree_eq (dd : Z) (v : nat) (state : list Z) :
  (v < n)%nat ->
  Nodes.expand_subtree nodes dd (node_at nodes v) state =
  Ok (merge state (map Z.of_nat (below nodes (Z.to_nat (Z.max 1 dd)) [v]))).
Proof.
  intros Hv. unfold Nodes.expand_subtree.
  change [node_at nodes v] with (map (node_at nodes) [v]).
  rewrite expand_loop_eq.
  - simpl. unfold levels_left. do 4 f_equal. lia.
  - intros q [<-|[]]. exact Hv.
  - unfold levels_left. lia.
Qed.

Lemma below_parent (k : nat) (qs : list nat) (u : nat) :
  (forall q, In q qs -> (q < n)%nat) ->
  In u (below nodes k qs) ->
  exists p, (p < n)%nat /\ In u (kids nodes p) /\
            (In p qs \/ In p (below nodes k qs)).
Proof.
  revert qs. induction k as [|k IH]; intros qs Hq Hu; simpl in *; [easy|].
  apply in_app_or in Hu. destruct Hu as [Hu|Hu].
  - apply in_flat_map in Hu. destruct Hu as [q [Hin Hu]].
    exists q. auto.
  - apply IH in Hu; [|now apply flat_map_kids_lt].
    destruct Hu as (p & Hp & Hup & [Hin|Hin]).
    + exists p. repeat split; auto. right. apply in_or_app. now left.
    + exists p. repeat split; auto. right. apply in_or_app. now right.
Qed.

(** Expanding below a visible node keeps the state valid. *)
Lemma expand_valid (k v : nat) (state : list Z) :
  (v < n)%nat -> valid_state nodes state -> In (Z.of_nat v) state ->
  valid_state nodes (merge state (map Z.of_nat (below nodes k [v]))).
Proof.
  intros Hv [Ha H0 Hc] Hin.
  assert (bfs_block nodes [v]) as Hb by now apply bfs_block_single.
  destruct (below_sorted k [v] Hb) as (Hs & _ & Hn).
  split.
  - apply merge_ascending; [exact Ha | now apply ascending_map_of_nat].
  - apply merge_In. now left.
  - intros x Hx Hx0. apply merge_In in Hx. destruct Hx as [Hx|Hx].
    + destruct (Hc x Hx Hx0) as [p [Hp Hpin]].
      exists p. split; [exact Hp|]. apply merge_In. now left.
    + apply in_map_iff in Hx. destruct Hx as [u [<- Hu]].
      apply below_parent in Hu; [|intros q [<-|[]]; exact Hv].
      destruct Hu as (p & Hp & Hup & Hpin).
      exists (Z.of_nat p). split; [now apply parent_of_kid|].
      apply merge_In. destruct Hpin as [[<-|[]]|Hpin].
      * now left.
      * right. now apply in_map.
Qed.

(** *** hide_children *)

Lemma hide_step_eq (state : list Z) (node : DecisionTreeNode)
  (deletes : list nat) (Q : list DecisionTreeNode) :
  Nodes.hide_step nodes state node deletes Q =
  (deletes ++ map (fun c => searchsorted state (id c))
                  (filter (Nodes.node_visiblity state)
                          (child_nodes nodes node)),
   Q ++ filter (Nodes.node_visiblity state) (child_nodes nodes node)).
Proof.
  unfold Nodes.hide_step. revert deletes Q.
  induction (child_nodes nodes node) as [|c cs IH]; intros deletes Q.
  - simpl. now rewrite !app_nil_r.
  - cbn [fold_left filter map].
    pose proof (eq_refl (Nodes.node_visiblity state c)) as E.
    unfold Nodes.node_visiblity in E at 1.
    unfold Nodes.node_id_visiblity in E at 1.
    cbv zeta in E. rewrite E. clear E.
    destruct (Nodes.node_visiblity state c).
    + rewrite IH. cbn [map]. now rewrite <- !app_assoc.
    + apply IH.
Qed.

Lemma visible_child_nodes (state : list Z) (q : nat) :
  (q < n)%nat ->
  filter (Nodes.node_visiblity state) (child_nodes nodes (node_at nodes q)) =
  map (node_at nodes) (visible_kids nodes state q).
Proof.
  intros Hq. rewrite (child_nodes_node_at q Hq). unfold visible_kids.
  pose proof (fun c => kids_inv q c Hq) as Hk.
  induction (kids nodes q) as [|c cs IH]; [reflexivity|].
  cbn [map filter]. unfold Nodes.node_visiblity at 1.
  rewrite id_node_at by (apply (Hk c); now left).
  rewrite IH by (intros; apply Hk; now right).
  now destruct (Nodes.node_id_visiblity state (Z.of_nat c)).
Qed.

Lemma visible_kids_In (state : list Z) (q c : nat) :
  ascending state ->
  In c (visible_kids nodes state q) <->
  In c (kids nodes q) /\ In (Z.of_nat c) state.
Proof.
  intros Ha. unfold visible_kids. rewrite filter_In.
  now rewrite node_id_visiblity_In.
Qed.

Lemma hide_loop_spec (state : list Z) (v : nat) (fuel : nat) :
  ascending state ->
  forall (popped qs hs : list nat),
  v :: hs = popped ++ qs ->
  bfs_block nodes qs ->
  (forall q, In q qs -> (n <= fuel + q)%nat) ->
  (forall h, In h hs ->
     In (Z.of_nat h) state /\
     exists p, (p < n)%nat /\ In h (kids nodes p) /\ In p (v :: hs)) ->
  (forall p c, In p popped -> In c (kids nodes p) ->
     In (Z.of_nat c) state -> In c hs) ->
  exists hs',
    Nodes.hide_loop nodes state fuel (map (node_at nodes) qs)
      (map (fun h => searchsorted state (Z.of_nat h)) hs) =
    Ok (map (fun h => searchsorted state (Z.of_nat h)) hs') /\
    hidden_closed nodes state v hs'.
Proof.
  intros Ha. induction fuel as [|fuel IH];
    intros popped qs hs Hsplit Hb Hfuel Hmem Hpop.
  - destruct qs as [|q qs].
    + exists hs. split; [reflexivity|]. split; [exact Hmem|].
      rewrite app_nil_r in Hsplit. rewrite Hsplit. exact Hpop.
    + exfalso. destruct Hb as (_ & Hn & _).
      specialize (Hn q (or_introl eq_refl)).
      specialize (Hfuel q (or_introl eq_refl)). lia.
  - destruct qs as [|q qs].
    + exists hs. split; [reflexivity|]. split; [exact Hmem|].
      rewrite app_nil_r in Hsplit. rewrite Hsplit. exact Hpop.
    + destruct Hb as (Hs & Hn & Hc).
      assert (q < n)%nat as Hq by (apply Hn; now left).
      cbn [map Nodes.hide_loop]. rewrite hide_step_eq.
      rewrite (visible_child_nodes state q Hq).
      set (vis := visible_kids nodes state q).
      assert (forall c, In c vis ->
                In c (kids nodes q) /\ In (Z.of_nat c) state) as Hvis
        by (intros c; now apply visible_kids_In).
      assert (map (fun c => searchsorted state (id c))
                  (map (node_at nodes) vis) =
              map (fun h => searchsorted state (Z.of_nat h)) vis) as ->.
      { rewrite map_map. apply map_ext_in. intros c Hcv.
        rewrite id_node_at; [reflexivity|].
        destruct (Hvis c Hcv) as [Hk _].
        now destruct (kids_inv q c Hq Hk) as (_ & ? & _). }
      rewrite <- !map_app.
      apply StronglySorted_inv in Hs. destruct Hs as [Hs Hqlt].
      rewrite Forall_forall in Hqlt.
      apply (IH (popped ++ [q]) (qs ++ vis) (hs ++ vis)).
      * rewrite <- app_assoc. cbn [app].
        change (v :: hs ++ vis) with ((v :: hs) ++ vis).
        rewrite Hsplit. now rewrite <- app_assoc.
      * repeat split.
        -- apply strongly_sorted_app; [exact Hs | |].
           ++ unfold vis, visible_kids. rewrite (kids_seq q Hq).
              generalize (strongly_sorted_seq (first_child nodes q)
                            (length (kids nodes q))).
              generalize (seq (first_child nodes q) (length (kids nodes q))).
              intros l Hl. induction Hl as [|x l Hl IHl Hx]; simpl;
                [constructor|].
              destruct (Nodes.node_id_visiblity state (Z.of_nat x));
                [|exact IHl].
              constructor; [exact IHl|].
              apply Forall_forall. intros y Hy. apply filter_In in Hy.
              rewrite Forall_forall in Hx. apply Hx. tauto.
           ++ intros x y Hx Hy. destruct (Hvis y Hy) as [Hk _].
              apply (kids_bounds q y Hq) in Hk.
              specialize (Hc q x (or_introl eq_refl) (or_intror Hx)). lia.
        -- intros x Hx. apply in_app_or in Hx. destruct Hx as [Hx|Hx].
           ++ apply Hn. now right.
           ++ destruct (Hvis x Hx) as [Hk _].
              now destruct (kids_inv q x Hq Hk) as (_ & ? & _).
        -- intros a b Ha' Hb'.
           assert (forall y, In y vis ->
                     (first_child nodes q <= y < first_child nodes (S q))%nat)
             as Hvb.
           { intros y Hy. destruct (Hvis y Hy) as [Hk _].
             now apply kids_bounds. }
           assert (forall y, In y vis -> (q < y)%nat) as Hvq.
           { intros y Hy. specialize (Hvb y Hy).
             pose proof (first_child_gt q Hq). lia. }
           assert (q < a)%nat as Hqa.
           { apply in_app_or in Ha'. destruct Ha'; auto. }
           pose proof (first_child_mono (S q) a Hqa) as Hm.
           apply in_app_or in Hb'. destruct Hb' as [Hb'|Hb'].
           ++ apply in_app_or in Ha'. destruct Ha' as [Ha'|Ha'].
              ** apply Hc; now right.
              ** specialize (Hc q b (or_introl eq_refl) (or_intror Hb')).
                 pose proof (first_child_step q). lia.
           ++ specialize (Hvb b Hb'). lia.
      * intros x Hx.
        assert (q < x)%nat as Hqx.
        { apply in_app_or in Hx. destruct Hx as [Hx|Hx]; [now apply Hqlt|].
          destruct (Hvis x Hx) as [Hk _].
          now destruct (kids_inv q x Hq Hk) as (? & _). }
        specialize (Hfuel q (or_introl eq_refl)). lia.
      * intros h Hh. apply in_app_or in Hh. destruct Hh as [Hh|Hh].
        -- destruct (Hmem h Hh) as [Hin (p0 & Hp0 & Hk & Hin0)].
           split; [exact Hin|]. exists p0. repeat split; try assumption.
           change (v :: hs ++ vis) with ((v :: hs) ++ vis).
           apply in_or_app. now left.
        -- destruct (Hvis h Hh) as [Hk Hin]. split; [exact Hin|].
           exists q. repeat split; try assumption.
           change (v :: hs ++ vis) with ((v :: hs) ++ vis).
           apply in_or_app. left. rewrite Hsplit.
           apply in_or_app. right. now left.
      * intros p0 c Hp0 Hk Hin. apply in_or_app.
        apply in_app_or in Hp0. destruct Hp0 as [Hp0|[<-|[]]].
        -- left. eapply Hpop; eauto.
        -- right. apply visible_kids_In; auto.
Qed.

Lemma hide_children_eq (state : list Z) (v : nat) :
  (v < n)%nat -> ascending state ->
  exists hs,
    Nodes.hide_children nodes (node_at nodes v) state =
    Ok (np_delete state (map (searchsorted state) (map Z.of_nat hs))) /\
    hidden_closed nodes state v hs.
Proof.
  intros Hv Ha. unfold Nodes.hide_children.
  destruct (hide_loop_spec state v n Ha [] [v] []) as [hs [E Hcl]].
  - reflexivity.
  - now apply bfs_block_single.
  - intros q [<-|[]]. lia.
  - intros h [].
  - intros p c [].
  - exists hs. split; [|exact Hcl].
    cbn [map] in E. fold n. rewrite E. cbn [bind]. now rewrite map_map.
Qed.

Lemma hidden_closed_members (state : list Z) (v : nat) (hs : list nat) :
  hidden_closed nodes state v hs ->
  forall h, In h (map Z.of_nat hs) -> In h state.
Proof.
  intros [H1 _] h Hh. apply in_map_iff in Hh. destruct Hh as [u [<- Hu]].
  now destruct (H1 u Hu).
Qed.

(** Collapsing below any node of the tree keeps the state valid. *)
Lemma hide_valid (state : list Z) (v : nat) (hs : list nat) :
  valid_state nodes state -> hidden_closed nodes state v hs ->
  valid_state nodes
    (np_delete state (map (searchsorted state) (map Z.of_nat hs))).
Proof.
  intros [Ha H0 Hc] Hcl.
  pose proof (hidden_closed_members state v hs Hcl) as Hsub.
  destruct Hcl as [H1 H2]. split.
  - now apply np_delete_from_ascending.
  - apply np_delete_searchsorted; try assumption. split; [exact H0|].
    intros Hin. apply in_map_iff in Hin. destruct Hin as [u [Eu Hu]].
    destruct (H1 u Hu) as [_ (p & Hp & Hk & _)].
    destruct (kids_inv p u Hp Hk) as (? & _). lia.
  - intros x Hx Hx0.
    apply np_delete_searchsorted in Hx; try assumption.
    destruct Hx as [Hx Hnx].
    destruct (Hc x Hx Hx0) as [y [Hy Hyin]].
    exists y. split; [exact Hy|].
    apply np_delete_searchsorted; try assumption. split; [exact Hyin|].
    intros Hyh. apply Hnx.
    apply parent_of_inv in Hy.
    destruct Hy as (u & p & -> & -> & Hun & Hpu & Hk).
    apply in_map. apply in_map_iff in Hyh. destruct Hyh as [p' [Ep Hp']].
    apply Nat2Z.inj in Ep. subst p'.
    apply (H2 p u); [now right | exact Hk | exact Hx].
Qed.

Lemma ancestor_lt (j : nat) (x y : Z) :
  ancestor nodes j x = Some y -> (0 < j)%nat -> y < x.
Proof.
  assert (forall i x y, ancestor nodes i x = Some y -> y <= x) as Hle.
  { induction i as [|i IHi]; intros x0 y0 E; simpl in E.
    - injection E. lia.
    - destruct (parent_of nodes x0) as [z|] eqn:Ez; [|discriminate].
      apply IHi in E. apply parent_of_inv in Ez.
      destruct Ez as (? & ? & -> & -> & _ & ? & _). lia. }
  intros E Hj. destruct j as [|j]; [lia|]. simpl in E.
  destruct (parent_of nodes x) as [z|] eqn:Ez; [|discriminate].
  apply Hle in E. apply parent_of_inv in Ez.
  destruct Ez as (? & ? & -> & -> & _ & ? & _). lia.
Qed.

(** *** expand_children followed by hide_children *)

Lemma expand_then_hide (k v : nat) (state : list Z) (hs : list nat) :
  (v < n)%nat -> valid_state nodes state ->
  (forall c, In c (kids nodes v) -> ~ In (Z.of_nat c) state) ->
  let expanded := merge state (map Z.of_nat (below nodes k [v])) in
  hidden_closed nodes expanded v hs ->
  np_delete expanded (map (searchsorted expanded) (map Z.of_nat hs)) = state.
Proof.
  intros Hv [Ha H0 Hc] Hkids expanded Hcl.
  assert (ascending expanded) as Hae.
  { apply merge_ascending; [exact Ha|]. apply ascending_map_of_nat.
    apply below_sorted. now apply bfs_block_single. }
  pose proof (hidden_closed_members expanded v hs Hcl) as Hsub.
  destruct Hcl as [H1 H2].
  (* the levels added by the expansion are all collected *)
  assert (forall j, (j <= k)%nat ->
            forall u, In u (level nodes j [v]) -> In u (v :: hs)) as HA.
  { induction j as [|j IH]; intros Hj u Hu.
    - destruct Hu as [<-|[]]. now left.
    - cbn [level] in Hu. apply in_flat_map in Hu.
      destruct Hu as [p [Hp Hu]]. right.
      apply (H2 p u); [apply IH; [lia | exact Hp] | exact Hu |].
      apply merge_In. right. apply in_map. apply below_level.
      exists (S j). split; [lia|]. cbn [level]. apply in_flat_map.
      exists p. auto. }
  (* nothing that was visible before is collected *)
  assert (forall h, In h hs -> ~ In (Z.of_nat h) state) as HB.
  { intros h. induction h as [h IH] using (well_founded_induction lt_wf).
    intros Hh Hin. destruct (H1 h Hh) as [_ (p & Hp & Hk & Hpin)].
    destruct Hpin as [<-|Hpin]; [now apply (Hkids h)|].
    destruct (kids_inv p h Hp Hk) as (Hlt & _ & _).
    apply (IH p Hlt Hpin).
    destruct (Hc (Z.of_nat h) Hin) as [y [Hy Hyin]]; [lia|].
    rewrite (parent_of_kid p h Hp Hk) in Hy. now injection Hy as <-. }
  apply ascending_ext.
  - now apply np_delete_from_ascending.
  - exact Ha.
  - intros x. rewrite np_delete_searchsorted by assumption. split.
    + intros [Hx Hnx]. apply merge_In in Hx. destruct Hx as [Hx|Hx];
        [exact Hx|].
      exfalso. apply Hnx. apply in_map_iff in Hx.
      destruct Hx as [u [<- Hu]]. apply in_map.
      apply below_level in Hu. destruct Hu as [j [Hj Hu]].
      destruct (HA j (proj2 Hj) u Hu) as [<-|Hin]; [|exact Hin].
      exfalso. apply level_ancestor in Hu; [|exact Hv].
      destruct Hu as [_ Hu]. apply ancestor_lt in Hu; lia.
    + intros Hx. split; [apply merge_In; now left|].
      intros Hin. apply in_map_iff in Hin. destruct Hin as [h [<- Hh]].
      now apply (HB h).
Qed.

(** *** _validate_visiblity_state *)

Lemma getitem_node_at (x : Z) :
  0 <= x < len nodes ->
  getitem nodes x = Ok (node_at nodes (Z.to_nat x)).
Proof.
  intros Hx. unfold getitem.
  destruct (Z.ltb_spec x 0); [lia|].
  destruct (Z.ltb_spec x 0); [lia|].
  destruct (Z.leb_spec (len nodes) x); [lia|]. cbn [orb].
  rewrite node_at_nth_error; [reflexivity|]. unfold len in Hx. fold n in Hx.
  lia.
Qed.

Lemma parent_of_positive (x : Z) :
  0 < x < len nodes ->
  exists p, parent (node_at nodes (Z.to_nat x)) = Some p /\
            parent_of nodes x = Some p /\ 0 <= p < x.
Proof.
  intros Hx. unfold len in Hx. fold n in Hx.
  destruct (has_parent (Z.to_nat x)) as [p [Hp Hk]]; [lia|].
  assert (p < n)%nat as Hpn by lia.
  destruct (kids_inv p _ Hpn Hk) as (_ & Hun & E).
  exists (Z.of_nat p). split; [exact E|]. split; [|lia].
  rewrite <- (Z2Nat.id x) at 1 by lia. now rewrite parent_of_node_at.
Qed.

Lemma ascending_app_drop (a b : list Z) (x : Z) :
  ascending (a ++ x :: b) -> ascending (a ++ b).
Proof.
  intros H. apply ascending_app_inv in H. destruct H as (Ha & Hxb & Hab).
  apply ascending_cons_inv in Hxb. destruct Hxb as [Hb _].
  apply ascending_app; try assumption.
  intros u w Hu Hw. apply Hab; [assumption | now right].
Qed.

(** On an ascending tail of positive ids the loop returns, and what it
    returns is a valid state. *)
Lemma validate_loop_valid (l : list Z) :
  forall valid in_valid,
  (forall x, In x in_valid <-> In x valid) ->
  ascending (valid ++ l) -> In 0 valid -> connected nodes valid ->
  exists s, Nodes.validate_loop nodes l valid in_valid = Ok s /\
            valid_state nodes s.
Proof.
  induction l as [|x rest IH]; intros valid in_valid Hset Ha H0 Hc.
  - rewrite app_nil_r in Ha. exists valid. split; [reflexivity|].
    now split.
  - cbn [Nodes.validate_loop].
    pose proof (ascending_app_inv _ _ Ha) as (Hav & _ & Hlt).
    destruct (Z.leb_spec (len nodes) x) as [Hge|Hlt'].
    + exists valid. split; [reflexivity | now split].
    + assert (0 < x) as Hx0 by (apply Hlt; [exact H0 | now left]).
      rewrite getitem_node_at by lia. cbn [bind].
      destruct (parent_of_positive x) as (p & Ep & Epo & Hp); [lia|].
      rewrite Ep. destruct (mem p in_valid) eqn:Em.
      * apply IH.
        -- intros y. simpl. rewrite in_app_iff, Hset. simpl. tauto.
        -- now rewrite <- app_assoc.
        -- apply in_or_app. now left.
        -- intros y Hy Hy0. apply in_app_or in Hy.
           destruct Hy as [Hy|[<-|[]]].
           ++ destruct (Hc y Hy Hy0) as [q [Hq Hqin]].
              exists q. split; [exact Hq|]. apply in_or_app. now left.
           ++ exists p. split; [exact Epo|]. apply in_or_app. left.
              apply Hset. now apply mem_In.
      * apply IH; try assumption. eapply ascending_app_drop; eassumption.
Qed.

(** On a valid state the loop accepts every id. *)
Lemma validate_loop_id (l : list Z) :
  forall valid in_valid,
  (forall x, In x in_valid <-> In x valid) ->
  ascending (valid ++ l) -> In 0 valid -> connected nodes (valid ++ l) ->
  Nodes.validate_loop nodes l valid in_valid = Ok (valid ++ l).
Proof.
  induction l as [|x rest IH]; intros valid in_valid Hset Ha H0 Hc.
  - now rewrite app_nil_r.
  - cbn [Nodes.validate_loop].
    pose proof (ascending_app_inv _ _ Ha) as (Hav & Hxr & Hlt).
    apply ascending_cons_inv in Hxr. destruct Hxr as [_ Hxr].
    assert (0 < x) as Hx0 by (apply Hlt; [exact H0 | now left]).
    destruct (Hc x) as [p [Ep Hpin]];
      [apply in_or_app; right; now left | lia |].
    pose proof Ep as Ep'. apply parent_of_inv in Ep'.
    destruct Ep' as (u & q & Eu & Eq & Hun & Hqu & _).
    assert (x < len nodes) as Hxn by (unfold len; fold n; lia).
    destruct (Z.leb_spec (len nodes) x) as [Hge|_]; [lia|].
    rewrite getitem_node_at by lia. cbn [bind].
    destruct (parent_of_positive x) as (p' & Ep1 & Ep2 & _); [lia|].
    rewrite Ep in Ep2. injection Ep2 as <-. rewrite Ep1.
    assert (In p valid) as Hpv.
    { apply in_app_or in Hpin. destruct Hpin as [Hpin|[E|Hpin]];
        [exact Hpin | lia | specialize (Hxr _ Hpin); lia]. }
    assert (mem p in_valid = true) as -> by (apply mem_In; now apply Hset).
    rewrite IH.
    + now rewrite <- app_assoc.
    + intros y. simpl. rewrite in_app_iff, Hset. simpl. tauto.
    + now rewrite <- app_assoc.
    + apply in_or_app. now left.
    + now rewrite <- app_assoc.
Qed.

Lemma valid_state_head (s : list Z) :
  valid_state nodes s -> exists t, s = 0 :: t.
Proof.
  intros [Ha H0 Hc]. destruct s as [|h t]; [destruct H0|].
  exists t. f_equal.
  apply ascending_cons_inv in Ha. destruct Ha as [_ Hh].
  destruct H0 as [E|Hin]; [exact E|].
  specialize (Hh _ Hin).
  destruct (Z.eq_dec h 0) as [E|Hne]; [exact E|].
  destruct (Hc h (or_introl eq_refl) Hne) as [p [Hp _]].
  apply parent_of_inv in Hp. destruct Hp as (u & _ & -> & _). lia.
Qed.

Lemma validate_valid_state (s : list Z) :
  valid_state nodes s -> Nodes._validate_visiblity_state nodes s = Ok s.
Proof.
  intros Hs. destruct (valid_state_head s Hs) as [t ->].
  destruct Hs as [Ha H0 Hc]. unfold Nodes._validate_visiblity_state.
  cbn [tl]. apply (validate_loop_id t [0] [0]); try assumption.
  - tauto.
  - now left.
Qed.

(** *** expand_all *)

Lemma expand_all_step_eq (cap : Z) (node : DecisionTreeNode) (tot : Z)
  (Q : list DecisionTreeNode) :
  let pushed := firstn (Z.to_nat (cap - tot)) (child_nodes nodes node) in
  Nodes.expand_all_step nodes cap node tot Q = (tot + len pushed, Q ++ pushed).
Proof.
  unfold Nodes.expand_all_step, child_nodes, len. cbn [flat_map fold_left].
  destruct (deref nodes (left node)) as [l|],
           (deref nodes (right node)) as [r|];
    cbn [app];
    repeat match goal with
           | |- context [?a <? ?b] => destruct (Z.ltb_spec a b)
           end;
    try lia;
    destruct (Z.to_nat (cap - tot)) as [|[|m]] eqn:Em; try lia;
    cbn [firstn length]; rewrite ?firstn_nil, ?app_nil_r, <- ?app_assoc;
    cbn [app length]; f_equal; lia.
Qed.

Lemma seq_cons (a k : nat) : seq a (S k) = a :: seq (S a) k.
Proof. reflexivity. Qed.

Lemma expand_all_loop_spec (cap : Z) (fuel : nat) :
  forall a t : nat,
  (a <= t <= n)%nat ->
  (Z.of_nat t < cap -> t = first_child nodes a) ->
  (cap - Z.of_nat a <= Z.of_nat fuel) ->
  exists a' t',
    Nodes.expand_all_loop nodes cap fuel
      (map (node_at nodes) (seq a (t - a))) (Z.of_nat t)
      (map Z.of_nat (seq 0 a)) =
    Ok (map Z.of_nat (seq 0 a'), Z.of_nat t') /\
    (a <= a' <= t')%nat /\ (t' <= n)%nat /\
    (Z.of_nat t' < cap -> a' = n /\ t' = n) /\
    (Z.of_nat t <= cap -> Z.of_nat t' <= cap) /\
    ((a < t)%nat -> Z.of_nat t < cap -> (a < a')%nat).
Proof.
  induction fuel as [|fuel IH]; intros a t Hat Hfc Hfuel.
  - (* no fuel: the queue is empty or the cap is reached *)
    exists a, t.
    assert (Nodes.expand_all_loop nodes cap 0
              (map (node_at nodes) (seq a (t - a))) (Z.of_nat t)
              (map Z.of_nat (seq 0 a)) =
            Ok (map Z.of_nat (seq 0 a), Z.of_nat t) /\
            (Z.of_nat t < cap -> a = t)) as [E Hq].
    { destruct (t - a)%nat as [|d] eqn:Ed; cbn [seq map Nodes.expand_all_loop].
      - split; [reflexivity | lia].
      - destruct (Z.ltb_spec (Z.of_nat t) cap); [lia|].
        split; [reflexivity | lia]. }
    split; [exact E|]. repeat split; lia.
  - destruct (t - a)%nat as [|d] eqn:Ed.
    + (* empty queue *)
      exists a, t. cbn [seq map Nodes.expand_all_loop].
      split; [reflexivity|]. assert (a = t) as <- by lia.
      assert (Z.of_nat a < cap -> a = n) as Hn.
      { intros Hc. specialize (Hfc Hc).
        destruct (Nat.lt_ge_cases a n) as [Hlt|Hge]; [|lia].
        pose proof (first_child_gt a Hlt). lia. }
      repeat split; lia.
    + rewrite seq_cons. cbn [map Nodes.expand_all_loop].
      destruct (Z.ltb_spec (Z.of_nat t) cap) as [Hc|Hc].
      * (* one node is popped *)
        assert (a < n)%nat as Han by lia.
        specialize (Hfc Hc).
        rewrite expand_all_step_eq.
        rewrite (child_nodes_node_at a Han), (kids_seq a Han).
        rewrite <- Hfc.
        set (k := length (kids nodes a)).
        set (m := Z.to_nat (cap - Z.of_nat t)).
        rewrite firstn_map, firstn_seq_min.
        rewrite <- map_app.
        assert (seq (S a) d ++ seq t (Nat.min m k) =
                seq (S a) ((t + Nat.min m k) - S a)) as ->.
        { replace ((t + Nat.min m k) - S a)%nat
            with (d + Nat.min m k)%nat by lia.
          rewrite seq_app. do 2 f_equal. lia. }
        rewrite id_node_at by exact Han.
        assert (map Z.of_nat (seq 0 a) ++ [Z.of_nat a] =
                map Z.of_nat (seq 0 (S a))) as ->.
        { rewrite seq_S, map_app. reflexivity. }
        unfold len. rewrite length_map, length_seq.
        rewrite <- Nat2Z.inj_add.
        assert (t + k <= n)%nat as Htk.
        { destruct k as [|k'] eqn:Ek; [lia|].
          assert (In (t + k')%nat (kids nodes a)) as Hin.
          { rewrite (kids_seq a Han). fold k. rewrite Ek, <- Hfc.
            apply in_seq. lia. }
          destruct (kids_inv a _ Han Hin) as (_ & ? & _). lia. }
        destruct (IH (S a) (t + Nat.min m k)%nat)
          as (a' & t' & E & H1 & H2 & H3 & H4 & _).
        -- lia.
        -- intros Hc'. rewrite (first_child_succ a Han). fold k.
           rewrite <- Hfc. subst m. lia.
        -- lia.
        -- exists a', t'. split; [exact E|].
           assert (Z.of_nat t <= cap -> Z.of_nat t' <= cap) as H5
             by (intros; apply H4; subst m; lia).
           repeat split; try lia; apply H3; lia.
      * exists a, t. split; [reflexivity|]. repeat split; lia.
Qed.

Lemma prefix_valid (k : nat) :
  (1 <= k <= n)%nat -> valid_state nodes (map Z.of_nat (seq 0 k)).
Proof.
  intros Hk. split.
  - apply ascending_map_of_nat, strongly_sorted_seq.
  - apply in_map_iff. exists 0%nat. split; [reflexivity|].
    apply in_seq. lia.
  - intros x Hx Hx0. apply in_map_iff in Hx. destruct Hx as [u [<- Hu]].
    apply in_seq in Hu.
    destruct (parent_of_positive (Z.of_nat u)) as (p & _ & Ep & Hp).
    { unfold len. fold n. lia. }
    exists p. split; [exact Ep|]. apply in_map_iff.
    exists (Z.to_nat p). split; [lia|]. apply in_seq. lia.
Qed.

Lemma expand_all_cap_spec (cap : Z) :
  2 <= cap ->
  exists k,
    Nodes.expand_all_cap nodes cap =
    Ok (map Z.of_nat (seq 0 k), len nodes <? cap) /\
    (1 <= k <= n)%nat /\ Z.of_nat k <= cap /\
    (len nodes < cap -> k = n).
Proof.
  intros Hcap. destruct wf_tree_inv as (Hn & _).
  unfold Nodes.expand_all_cap.
  rewrite (getitem_node_at 0) by (unfold len; fold n; lia).
  cbn [bind].
  destruct (expand_all_loop_spec cap (Z.to_nat cap) 0 1)
    as (a' & t' & E & H1 & H2 & H3 & H4 & H5).
  - lia.
  - intros _. reflexivity.
  - lia.
  - cbn [seq map Nat.sub] in E. change (Z.to_nat 0) with 0%nat.
    change (Z.of_nat 1) with 1 in E. rewrite E. cbn [bind fst snd].
    exists a'. unfold len. fold n.
    assert ((Z.of_nat t' <? cap) = (Z.of_nat n <? cap)) as ->.
    { destruct (Z.ltb_spec (Z.of_nat t') cap) as [Hc|Hc].
      - destruct (H3 Hc) as [_ ->]. symmetry. now apply Z.ltb_lt.
      - symmetry. apply Z.ltb_ge. lia. }
    assert (Z.of_nat n < cap -> a' = n) as H6 by (intros; apply H3; lia).
    split; [reflexivity|]. repeat split; lia.
Qed.

(** *** on_tap_node *)

Lemma valid_state_member (state : list Z) (x : Z) :
  valid_state nodes state -> In x state -> 0 <= x < len nodes.
Proof.
  intros [_ _ Hc] Hx. destruct wf_tree_inv as (Hn & _).
  unfold len. fold n. destruct (Z.eq_dec x 0) as [->|Hne]; [lia|].
  destruct (Hc x Hx Hne) as [p [Hp _]]. apply parent_of_inv in Hp.
  destruct Hp as (u & _ & -> & _ & Hu & _). lia.
Qed.

Lemma on_tap_node_hidden (state : list Z) (node_id : Z) :
  ascending state ->
  len nodes <= node_id \/ ~ In node_id state ->
  Nodes.on_tap_node nodes node_id state = Ok state.
Proof.
  intros Ha H. unfold Nodes.on_tap_node.
  destruct (Z.leb_spec (len nodes) node_id) as [Hge|Hlt]; [reflexivity|].
  destruct H as [H|H]; [lia|].
  destruct (Nodes.node_id_visiblity state node_id) eqn:E; [|reflexivity].
  apply node_id_visiblity_In in E; [contradiction | exact Ha].
Qed.

Lemma on_tap_node_visible (state : list Z) (node_id : Z) :
  valid_state nodes state -> In node_id state ->
  let node := node_at nodes (Z.to_nat node_id) in
  getitem nodes node_id = Ok node /\
  Nodes.on_tap_node nodes node_id state =
  if Nodes.node_is_leaf nodes node then Ok state
  else if Nodes.node_has_hidden_child nodes state node
       then Nodes.expand_children nodes node state
       else Nodes.hide_children nodes node state.
Proof.
  intros Hs Hin node.
  pose proof (valid_state_member state node_id Hs Hin) as Hr.
  pose proof (getitem_node_at node_id Hr) as Eg. split; [exact Eg|].
  unfold Nodes.on_tap_node.
  destruct (Z.leb_spec (len nodes) node_id) as [Hge|_]; [lia|].
  assert (Nodes.node_id_visiblity state node_id = true) as ->.
  { apply node_id_visiblity_In; [apply Hs | exact Hin]. }
  cbn [negb orb]. rewrite Eg. reflexivity.
Qed.

Lemma expand_children_valid (v : nat) (state : list Z) :
  (v < n)%nat -> valid_state nodes state -> In (Z.of_nat v) state ->
  exists s', Nodes.expand_children nodes (node_at nodes v) state = Ok s' /\
             valid_state nodes s'.
Proof.
  intros Hv Hs Hin. unfold Nodes.expand_children.
  rewrite (expand_subtree_eq _ v state Hv).
  eexists. split; [reflexivity|]. now apply expand_valid.
Qed.

Lemma hide_children_valid (v : nat) (state : list Z) :
  (v < n)%nat -> valid_state nodes state ->
  exists s', Nodes.hide_children nodes (node_at nodes v) state = Ok s' /\
             valid_state nodes s'.
Proof.
  intros Hv Hs.
  destruct (hide_children_eq state v Hv (vs_ascending _ _ Hs))
    as [hs [E Hcl]].
  eexists. split; [exact E|]. eapply hide_valid; eassumption.
Qed.

Lemma on_tap_node_valid (state : list Z) (node_id : Z) :
  valid_state nodes state ->
  exists s', Nodes.on_tap_node nodes node_id state = Ok s' /\
             valid_state nodes s'.
Proof.
  intros Hs.
  destruct (in_dec Z.eq_dec node_id state) as [Hin|Hnin].
  - destruct (on_tap_node_visible state node_id Hs Hin) as [_ E].
    rewrite E.
    pose proof (valid_state_member state node_id Hs Hin) as Hr.
    assert (Z.to_nat node_id < n)%nat as Hv
      by (unfold len in Hr; fold n in Hr; lia).
    destruct (Nodes.node_is_leaf nodes _); [now exists state|].
    destruct (Nodes.node_has_hidden_child nodes state _).
    + apply expand_children_valid; try assumption.
      now rewrite Z2Nat.id by lia.
    + now apply hide_children_valid.
  - exists state. split; [|exact Hs].
    apply on_tap_node_hidden; [apply Hs | now right].
Qed.

(** *** Nodes.__init__ *)

Lemma init_default_eq (validate : bool) :
  Nodes.__init__ nodes None validate =
  Ok (merge [0] (map Z.of_nat
        (below nodes (Z.to_nat Config.DISPLAY_DEPTH) [0%nat]))).
Proof.
  destruct wf_tree_inv as (Hn & _). unfold Nodes.__init__.
  rewrite (getitem_node_at 0) by (unfold len; fold n; lia).
  cbn [bind]. unfold Nodes.expand_children.
  now rewrite (expand_subtree_eq _ 0%nat [0] Hn).
Qed.

Lemma below_root_ancestor (k : nat) (x : Z) :
  In x (map Z.of_nat (below nodes k [0%nat])) <->
  exists j, (1 <= j <= k)%nat /\ ancestor nodes j x = Some 0.
Proof.
  destruct wf_tree_inv as (Hn & _). split.
  - intros Hx. apply in_map_iff in Hx. destruct Hx as [u [<- Hu]].
    apply below_level in Hu. destruct Hu as [j [Hj Hu]].
    apply level_ancestor in Hu; [|exact Hn].
    exists j. split; [exact Hj | apply Hu].
  - intros [j [Hj E]].
    assert (exists u, x = Z.of_nat u /\ (u < n)%nat) as [u [-> Hu]].
    { destruct j as [|j]; [lia|]. simpl in E.
      destruct (parent_of nodes x) as [p|] eqn:Ep; [|discriminate].
      apply parent_of_inv in Ep.
      destruct Ep as (u & _ & -> & _ & Hu & _). now exists u. }
    apply in_map. apply below_level. exists j. split; [exact Hj|].
    apply level_ancestor; [exact Hn|]. split; [exact Hu | exact E].
Qed.

End TreeFacts.

(** ** Properties of the visibility-subset engine *)

Lemma In_node_at (nodes : list DecisionTreeNode) (node : DecisionTreeNode) :
  In node nodes ->
  exists v, (v < length nodes)%nat /\ node = node_at nodes v.
Proof.
  intros Hin. apply In_nth_error in Hin. destruct Hin as [v Hv].
  exists v. assert (v < length nodes)%nat as Hlt.
  { apply nth_error_Some. congruence. }
  split; [exact Hlt|]. unfold node_at.
  rewrite (nth_error_nth' nodes dummy_node Hlt) in Hv. congruence.
Qed.

(** C1, as amended. In a tree numbered in breadth-first order, every
    operation of the visibility set maps a valid state (strictly ascending,
    containing the root id 0, every other member's parent a member) to a
    valid state: [expand_children] on a visible node, [hide_children] on any
    node, [on_tap_node] on any id, [expand_all], and
    [_validate_visiblity_state], which returns a valid state unchanged. *)
Theorem operations_preserve_valid_state
  (nodes : list DecisionTreeNode) (state : list Z) :
  wf_tree nodes = true -> valid_state nodes state ->
  (forall node, In node nodes -> In (id node) state ->
     exists s', Nodes.expand_children nodes node state = Ok s' /\
                valid_state nodes s') /\
  (forall node, In node nodes ->
     exists s', Nodes.hide_children nodes node state = Ok s' /\
                valid_state nodes s') /\
  (forall node_id,
     exists s', Nodes.on_tap_node nodes node_id state = Ok s' /\
                valid_state nodes s') /\
  (exists s' fits, Nodes.expand_all nodes = Ok (s', fits) /\
                   valid_state nodes s') /\
  Nodes._validate_visiblity_state nodes state = Ok state.
Proof.
  intros Hwf Hs. repeat split.
  - intros node Hin Hvis. apply In_node_at in Hin.
    destruct Hin as [v [Hv ->]].
    apply expand_children_valid; try assumption.
    now rewrite <- (id_node_at nodes Hwf v Hv).
  - intros node Hin. apply In_node_at in Hin. destruct Hin as [v [Hv ->]].
    now apply hide_children_valid.
  - intros node_id. now apply on_tap_node_valid.
  - destruct (expand_all_cap_spec nodes Hwf Config.MAX_ELEMENTS)
      as (k & E & Hk & _); [unfold Config.MAX_ELEMENTS; lia|].
    do 2 eexists. split; [exact E|]. now apply prefix_valid.
  - now apply validate_valid_state.
Qed.

Lemma operations_preserve_valid_state_witness :
  wf_tree scenario_tree = true /\ valid_state scenario_tree [0; 1; 2] /\
  (exists s', Nodes.on_tap_node scenario_tree 2 [0; 1; 2] = Ok s' /\
              valid_state scenario_tree s').
Proof.
  split; [reflexivity|]. split; [apply valid_stateb_ok; reflexivity|].
  destruct (operations_preserve_valid_state scenario_tree [0; 1; 2]
              eq_refl (valid_stateb_ok scenario_tree [0; 1; 2] eq_refl))
    as (_ & _ & Htap & _).
  exact (Htap 2).
Defined.

Lemma not_valid_state (nodes : list DecisionTreeNode) (s : list Z) (x : Z) :
  In x s -> x <> 0 ->
  match parent_of nodes x with
  | Some p => mem p s = false
  | None => True
  end ->
  ~ valid_state nodes s.
Proof.
  intros Hx Hx0 Hp [_ _ Hc]. destruct (Hc x Hx Hx0) as [p [Ep Hin]].
  rewrite Ep in Hp. apply mem_In in Hin. congruence.
Qed.

(** C1, counterexample. In the tree of the specification's scenario, with
    only the root visible, [expand_children] applied to the hidden node 2
    yields [0; 3]: node 3 is a member and its parent 2 is not. *)
Lemma expand_children_hidden_node_disconnects :
  valid_state scenario_tree [0] /\
  In (node_at scenario_tree 2) scenario_tree /\
  Nodes.expand_children scenario_tree (node_at scenario_tree 2) [0]
    = Ok [0; 3] /\
  ~ valid_state scenario_tree [0; 3].
Proof.
  split; [apply valid_stateb_ok; reflexivity|].
  split; [simpl; auto|]. split; [reflexivity|].
  apply (not_valid_state scenario_tree [0; 3] 3); simpl; auto. lia.
Qed.

(** *** Validation of an untrusted state *)

(** On ids that are positive after the first element, the source and the
    procedure the specification describes agree. *)
Lemma validate_loop_refines (nodes : list DecisionTreeNode) :
  wf_tree nodes = true ->
  forall l valid in_valid,
  Forall (fun x => 0 < x) l ->
  (forall x, In x in_valid <-> In x valid) ->
  Nodes.validate_loop nodes l valid in_valid =
  Ok (validate_spec_loop nodes l valid).
Proof.
  intros Hwf. induction l as [|x rest IH]; intros valid in_valid Hpos Hset.
  - reflexivity.
  - apply Forall_cons_iff in Hpos. destruct Hpos as [Hx Hpos].
    cbn [Nodes.validate_loop validate_spec_loop].
    destruct (Z.leb_spec (len nodes) x) as [Hge|Hlt]; [reflexivity|].
    rewrite (getitem_node_at nodes) by lia. cbn [bind].
    destruct (parent_of_positive nodes Hwf x) as (p & Ep & Epo & _); [lia|].
    rewrite Ep, Epo.
    assert (mem p in_valid = mem p valid) as ->.
    { destruct (mem p valid) eqn:E.
      - apply mem_In. apply Hset. now apply mem_In.
      - destruct (mem p in_valid) eqn:E'; [|reflexivity].
        apply mem_In in E'. apply Hset in E'. apply mem_In in E'.
        congruence. }
    destruct (mem p valid).
    + apply IH; [exact Hpos|].
      intros y. simpl. rewrite in_app_iff, Hset. simpl. tauto.
    + now apply IH.
Qed.

Lemma validate_spec_loop_largest (nodes : list DecisionTreeNode)
  (l : list Z) :
  forall accepted,
  exists kept,
    validate_spec_loop nodes l accepted = accepted ++ kept /\
    sublist kept (in_range_prefix nodes l) /\
    parents_first nodes accepted kept /\
    forall s before,
      incl before accepted ->
      sublist s (in_range_prefix nodes l) ->
      parents_first nodes before s ->
      sublist s kept.
Proof.
  induction l as [|x rest IH]; intros accepted.
  - exists []. simpl. rewrite app_nil_r.
    repeat split; [constructor|]. intros s before _ Hs _. exact Hs.
  - cbn [validate_spec_loop in_range_prefix].
    destruct (Z.leb_spec (len nodes) x) as [Hge|Hlt].
    + exists []. rewrite app_nil_r.
      repeat split; [constructor|]. intros s before _ Hs _. exact Hs.
    + assert (forall kept',
        (forall s before, incl before accepted ->
           sublist s (in_range_prefix nodes rest) ->
           parents_first nodes before s -> sublist s kept') ->
        (forall p, parent_of nodes x = Some p -> mem p accepted = false) ->
        forall s before, incl before accepted ->
          sublist s (x :: in_range_prefix nodes rest) ->
          parents_first nodes before s -> sublist s kept') as Hdrop.
      { intros kept' Hmax Hno s before Hincl Hs Hpf.
        inversion Hs as [|y s0 l0 Hs0|y s0 l0 Hs0]; subst.
        - eapply Hmax; eassumption.
        - destruct Hpf as [[p [Ep Hp]] _].
          specialize (Hno p Ep).
          assert (mem p accepted = true) by (apply mem_In; auto).
          congruence. }
      destruct (parent_of nodes x) as [p|] eqn:Ep.
      * rewrite <- Ep in Hdrop. destruct (mem p accepted) eqn:Em.
        -- destruct (IH (accepted ++ [x])) as (kept & E & Hsub & Hpf & Hmax).
           exists (x :: kept). rewrite E, <- app_assoc.
           split; [reflexivity|]. split; [now apply sublist_keep|]. split.
           ++ cbn [parents_first]. split; [|exact Hpf].
              exists p. split; [exact Ep | now apply mem_In].
           ++ intros s before Hincl Hs Hpfs.
              inversion Hs as [|y s0 l0 Hs0|y s0 l0 Hs0]; subst.
              ** apply sublist_skip. apply (Hmax s before); try assumption.
                 intros z Hz. apply in_or_app. left. now apply Hincl.
              ** apply sublist_keep. destruct Hpfs as [_ Hpfs].
                 apply (Hmax s0 (before ++ [x])); try assumption.
                 intros z Hz. apply in_app_or in Hz. apply in_or_app.
                 destruct Hz as [Hz|Hz]; [left; now apply Hincl | now right].
        -- destruct (IH accepted) as (kept & E & Hsub & Hpf & Hmax).
           exists kept. split; [exact E|]. split; [now apply sublist_skip|].
           split; [exact Hpf|].
           apply Hdrop; [exact Hmax|]. intros q Eq.
           rewrite Ep in Eq. injection Eq as <-. exact Em.
      * destruct (IH accepted) as (kept & E & Hsub & Hpf & Hmax).
        exists kept. split; [exact E|]. split; [now apply sublist_skip|].
        split; [exact Hpf|].
        apply Hdrop; [exact Hmax|]. intros q Eq. discriminate.
Qed.

(** C2, as amended. For every supplied array whose entries after the first
    are positive, validation returns what the described walk builds: it
    starts from the root id 0, walks the array from its second element,
    stops at the first id at or beyond the node count, and keeps an id
    exactly when its parent was already accepted. The ids kept are a
    subsequence of the walked part, dropped ids being left out in place, and
    the largest one in which every id has its parent accepted before it. *)
Theorem validate_largest_connected_subsequence
  (nodes : list DecisionTreeNode) (raw : list Z) :
  wf_tree nodes = true -> Forall (fun x => 0 < x) (tl raw) ->
  exists kept,
    Nodes._validate_visiblity_state nodes raw = Ok (0 :: kept) /\
    validate_spec nodes raw = 0 :: kept /\
    sublist kept (in_range_prefix nodes (tl raw)) /\
    parents_first nodes [0] kept /\
    forall s,
      sublist s (in_range_prefix nodes (tl raw)) ->
      parents_first nodes [0] s ->
      sublist s kept.
Proof.
  intros Hwf Hpos.
  destruct (validate_spec_loop_largest nodes (tl raw) [0])
    as (kept & E & Hsub & Hpf & Hmax).
  exists kept. unfold Nodes._validate_visiblity_state, validate_spec.
  rewrite (validate_loop_refines nodes Hwf (tl raw) [0] [0] Hpos)
    by tauto.
  rewrite E. repeat split; try assumption.
  intros s Hs Hp. apply (Hmax s [0]); try assumption. intros z Hz. exact Hz.
Qed.

Lemma validate_largest_connected_subsequence_witness :
  wf_tree five_node_tree = true /\
  Forall (fun x => 0 < x) (tl [0; 2; 3; 4; 9; 1]) /\
  exists kept,
    Nodes._validate_visiblity_state five_node_tree [0; 2; 3; 4; 9; 1]
      = Ok (0 :: kept) /\
    validate_spec five_node_tree [0; 2; 3; 4; 9; 1] = 0 :: kept /\
    sublist kept (in_range_prefix five_node_tree (tl [0; 2; 3; 4; 9; 1])) /\
    parents_first five_node_tree [0] kept /\
    forall s,
      sublist s (in_range_prefix five_node_tree (tl [0; 2; 3; 4; 9; 1])) ->
      parents_first five_node_tree [0] s ->
      sublist s kept.
Proof.
  split; [reflexivity|].
  assert (Forall (fun x => 0 < x) (tl [0; 2; 3; 4; 9; 1])) as Hpos
    by (simpl; repeat constructor).
  split; [exact Hpos|].
  exact (validate_largest_connected_subsequence five_node_tree
           [0; 2; 3; 4; 9; 1] eq_refl Hpos).
Defined.

(** C2, counterexample. In the five-node tree the array [0; 2; 3; 4] loses
    node 3, whose parent 1 is absent, and keeps node 4 behind it: the
    result [0; 2; 4] is not a prefix of the supplied array. *)
Lemma validate_drops_in_place_not_prefix :
  wf_tree five_node_tree = true /\
  Nodes._validate_visiblity_state five_node_tree [0; 2; 3; 4]
    = Ok [0; 2; 4] /\
  ~ exists rest, [0; 2; 4] ++ rest = [0; 2; 3; 4].
Proof.
  split; [reflexivity|]. split; [reflexivity|].
  intros [rest H]. discriminate.
Qed.

(** An id of 0 after the first element is outside the walk the
    specification describes, which would drop it; the source reads
    [parent.id] of the root, whose parent is [None], and raises. *)
Lemma validate_root_repeat_raises :
  validate_spec scenario_tree [0; 0] = [0] /\
  Nodes._validate_visiblity_state scenario_tree [0; 0] = Raise AttributeError.
Proof. split; reflexivity. Qed.

(** A negative id is not rejected either: Python reads
    [nodes[-1]] as the last node, so [-1] is accepted once node 2, the
    parent of the last node, is. *)
Lemma validate_negative_id_accepted :
  Nodes._validate_visiblity_state scenario_tree [0; 2; -1] = Ok [0; 2; -1] /\
  Nodes._validate_visiblity_state scenario_tree [0; -5] = Raise IndexError.
Proof. split; reflexivity. Qed.

(** C5, as amended. For every decoded array whose entries after the first
    are positive ids, in any order and with repetitions, validation returns
    and does not reject the token: it returns 0 followed by ids of the
    array, in the order of the array, taken from before its first id at or
    beyond the node count, each with its parent earlier in the result; and
    it keeps all it can, since every such selection of ids is a
    sub-selection of what it returns, and a valid state of the tree is
    returned as it is. When the entries after the first are strictly
    ascending, the result is a valid state. *)
Theorem validate_never_rejects
  (nodes : list DecisionTreeNode) (raw : list Z) :
  wf_tree nodes = true -> Forall (fun x => 0 < x) (tl raw) ->
  exists kept,
    Nodes._validate_visiblity_state nodes raw = Ok (0 :: kept) /\
    sublist kept (in_range_prefix nodes (tl raw)) /\
    parents_first nodes [0] kept /\
    (forall s, sublist s (in_range_prefix nodes (tl raw)) ->
               parents_first nodes [0] s -> sublist s kept) /\
    (valid_state nodes raw -> 0 :: kept = raw) /\
    (ascending (0 :: tl raw) -> valid_state nodes (0 :: kept)).
Proof.
  intros Hwf Hpos.
  assert (Nodes._validate_visiblity_state nodes raw =
          Ok (validate_spec_loop nodes (tl raw) [0])) as E.
  { unfold Nodes._validate_visiblity_state.
    apply (validate_loop_refines nodes Hwf (tl raw) [0] [0] Hpos). tauto. }
  destruct (validate_spec_loop_largest nodes (tl raw) [0])
    as (kept & Ek & Hsub & Hpf & Hmax).
  rewrite Ek in E. cbn [app] in E.
  exists kept. split; [exact E|]. split; [exact Hsub|].
  split; [exact Hpf|]. split; [|split].
  - intros s Hs Hp. apply (Hmax s [0]); [apply incl_refl | exact Hs | exact Hp].
  - intros Hv. rewrite (validate_valid_state nodes Hwf raw Hv) in E.
    now injection E.
  - intros Ha.
    destruct (validate_loop_valid nodes Hwf (tl raw) [0] [0])
      as [s [Es Hvs]].
    + tauto.
    + exact Ha.
    + now left.
    + intros x [<-|[]] Hx. contradiction.
    + unfold Nodes._validate_visiblity_state in E. rewrite Es in E.
      injection E as <-. exact Hvs.
Qed.

Lemma validate_never_rejects_witness :
  (exists kept,
     Nodes._validate_visiblity_state five_node_tree [0; 4; 2; 2; 3; 4; 7; 1]
     = Ok (0 :: kept) /\
     sublist kept [4; 2; 2; 3; 4] /\
     sublist [2; 2; 4] kept) /\
  (exists kept,
     Nodes._validate_visiblity_state five_node_tree [0; 2; 3; 4; 9]
     = Ok (0 :: kept) /\
     sublist [2; 4] kept /\
     valid_state five_node_tree (0 :: kept)).
Proof.
  split.
  - destruct (validate_never_rejects five_node_tree
                [0; 4; 2; 2; 3; 4; 7; 1] eq_refl)
      as (kept & E & Hsub & _ & Hmax & _).
    { simpl. repeat constructor. }
    exists kept. split; [exact E|]. split; [exact Hsub|].
    apply Hmax.
    + simpl. apply sublist_skip. apply sublist_keep. apply sublist_keep.
      apply sublist_skip. apply sublist_keep. apply sublist_nil.
    + cbn [parents_first].
      repeat (split; [eexists; split; [reflexivity | simpl; auto]|]).
      exact I.
  - destruct (validate_never_rejects five_node_tree [0; 2; 3; 4; 9] eq_refl)
      as (kept & E & _ & _ & Hmax & _ & Hv).
    { simpl. repeat constructor. }
    exists kept. split; [exact E|]. split.
    + apply Hmax.
      * simpl. apply sublist_keep. apply sublist_skip. apply sublist_keep.
        apply sublist_nil.
      * cbn [parents_first].
      repeat (split; [eexists; split; [reflexivity | simpl; auto]|]).
      exact I.
    + apply Hv. apply ascendingb_ok. reflexivity.
Defined.

Lemma not_ascending_pair (a : list Z) (x y : Z) (b : list Z) :
  y <= x -> ~ ascending (a ++ x :: y :: b).
Proof.
  intros Hle H. apply ascending_app_inv in H. destruct H as (_ & H & _).
  apply ascending_cons_inv in H. destruct H as [_ H].
  specialize (H y (or_introl eq_refl)). lia.
Qed.

(** C5, counterexample. Ids out of order and duplicate ids pass validation
    unchanged, and the arrays returned are not strictly ascending. *)
Lemma validate_keeps_disorder_and_duplicates :
  Nodes._validate_visiblity_state scenario_tree [0; 2; 1] = Ok [0; 2; 1] /\
  ~ valid_state scenario_tree [0; 2; 1] /\
  Nodes._validate_visiblity_state scenario_tree [0; 1; 1] = Ok [0; 1; 1] /\
  ~ valid_state scenario_tree [0; 1; 1].
Proof.
  split; [reflexivity|]. split.
  - intros [H _ _]. apply (not_ascending_pair [0] 2 1 []) in H; [easy | lia].
  - split; [reflexivity|].
    intros [H _ _]. apply (not_ascending_pair [0] 1 1 []) in H; [easy | lia].
Qed.

(** *** expand_all *)

(** C3, as amended. In a tree numbered in breadth-first order, [expand_all]
    returns the ids of the first [k] nodes in breadth-first order, which is
    ascending id order, whatever the state was; the array is never longer
    than [MAX_ELEMENTS]; the flag is [True] exactly when the node count is
    strictly below [MAX_ELEMENTS], and then the array holds every node; in
    every case the array is a valid state. *)
Theorem expand_all_spec (nodes : list DecisionTreeNode) :
  wf_tree nodes = true ->
  exists k,
    Nodes.expand_all nodes =
    Ok (map Z.of_nat (seq 0 k), len nodes <? Config.MAX_ELEMENTS) /\
    (1 <= k <= length nodes)%nat /\
    len (map Z.of_nat (seq 0 k)) <= Config.MAX_ELEMENTS /\
    (len nodes < Config.MAX_ELEMENTS -> k = length nodes) /\
    valid_state nodes (map Z.of_nat (seq 0 k)).
Proof.
  intros Hwf.
  destruct (expand_all_cap_spec nodes Hwf Config.MAX_ELEMENTS)
    as (k & E & Hk & Hcap & Hall); [unfold Config.MAX_ELEMENTS; lia|].
  exists k. split; [exact E|]. split; [exact Hk|].
  split; [unfold len; now rewrite length_map, length_seq|].
  split; [exact Hall|]. now apply prefix_valid.
Qed.

Lemma expand_all_spec_witness :
  wf_tree scenario_tree = true /\
  exists k,
    Nodes.expand_all scenario_tree =
    Ok (map Z.of_nat (seq 0 k), len scenario_tree <? Config.MAX_ELEMENTS) /\
    (1 <= k <= length scenario_tree)%nat /\
    len (map Z.of_nat (seq 0 k)) <= Config.MAX_ELEMENTS /\
    (len scenario_tree < Config.MAX_ELEMENTS -> k = length scenario_tree) /\
    valid_state scenario_tree (map Z.of_nat (seq 0 k)).
Proof.
  split; [reflexivity|]. exact (expand_all_spec scenario_tree eq_refl).
Defined.

(** C3, counterexample. A tree of exactly [MAX_ELEMENTS] = 500 nodes fits
    under the cap in the sense of the claim (500 <= 500), yet [expand_all]
    returns [False], with the 499 ids 0..498 in the array. *)
Lemma expand_all_false_at_cap :
  wf_tree (chain_tree 500) = true /\
  len (chain_tree 500) <= Config.MAX_ELEMENTS /\
  Nodes.expand_all (chain_tree 500) = Ok (map Z.of_nat (seq 0 499), false).
Proof.
  split; [vm_compute; reflexivity|].
  split; [vm_compute; discriminate|].
  vm_compute. reflexivity.
Qed.

(** [expand_all] itself does not sort: the ascending order of its array
    comes from the breadth-first numbering. On a tree numbered depth-first
    the array is in breadth-first order and not ascending. *)
Remark expand_all_keeps_breadth_first_order :
  wf_tree depth_first_tree = false /\
  Nodes.expand_all depth_first_tree = Ok ([0; 1; 4; 2; 3], true) /\
  ~ ascending [0; 1; 4; 2; 3].
Proof.
  split; [reflexivity|]. split; [reflexivity|].
  apply (not_ascending_pair [0; 1] 4 2 [3]). lia.
Qed.

(** *** on_tap_node *)

(** The scenario of the specification: from the root alone, expanding one
    level shows [0; 1; 2]; a tap on node 2 shows its child 3; collapsing the
    root leaves [0]. *)
Example scenario_run :
  Nodes.expand_subtree scenario_tree 1 (node_at scenario_tree 0) [0]
    = Ok [0; 1; 2] /\
  Nodes.on_tap_node scenario_tree 2 [0; 1; 2] = Ok [0; 1; 2; 3] /\
  Nodes.hide_children scenario_tree (node_at scenario_tree 0) [0; 1; 2; 3]
    = Ok [0].
Proof. repeat split. Qed.

(** *** expand_children followed by hide_children *)

(** C6, as amended. On a valid state, for a node none of whose children is
    visible, [expand_children] followed by [hide_children] on that node
    returns the state it started from. *)
Theorem expand_then_collapse_restores
  (nodes : list DecisionTreeNode) (state : list Z) (node : DecisionTreeNode) :
  wf_tree nodes = true -> valid_state nodes state -> In node nodes ->
  (forall child, In child (child_nodes nodes node) ->
                 ~ In (id child) state) ->
  exists expanded,
    Nodes.expand_children nodes node state = Ok expanded /\
    Nodes.hide_children nodes node expanded = Ok state.
Proof.
  intros Hwf Hs Hin Hhid. apply In_node_at in Hin.
  destruct Hin as [v [Hv ->]].
  unfold Nodes.expand_children.
  rewrite (expand_subtree_eq nodes Hwf _ v state Hv).
  eexists. split; [reflexivity|].
  set (k := Z.to_nat (Z.max 1 Config.DISPLAY_DEPTH)).
  assert (ascending (merge state (map Z.of_nat (below nodes k [v])))) as Ha.
  { apply merge_ascending; [apply Hs|]. apply ascending_map_of_nat.
    apply (below_sorted nodes Hwf). now apply bfs_block_single. }
  destruct (hide_children_eq nodes Hwf _ v Hv Ha) as [hs [E Hcl]].
  rewrite E. f_equal.
  apply (expand_then_hide nodes Hwf k v state hs Hv Hs); [|exact Hcl].
  intros c Hc Hcin. apply (Hhid (node_at nodes c)).
  - rewrite (child_nodes_node_at nodes Hwf v Hv). now apply in_map.
  - rewrite id_node_at; try assumption.
    now destruct (kids_inv nodes Hwf v c Hv Hc) as (_ & ? & _).
Qed.

Lemma expand_then_collapse_restores_witness :
  wf_tree scenario_tree = true /\ valid_state scenario_tree [0; 1; 2] /\
  exists expanded,
    Nodes.expand_children scenario_tree (node_at scenario_tree 2) [0; 1; 2]
      = Ok expanded /\
    Nodes.hide_children scenario_tree (node_at scenario_tree 2) expanded
      = Ok [0; 1; 2].
Proof.
  split; [reflexivity|].
  assert (valid_state scenario_tree [0; 1; 2]) as Hs
    by (apply valid_stateb_ok; reflexivity).
  split; [exact Hs|].
  apply (expand_then_collapse_restores scenario_tree [0; 1; 2]
           (node_at scenario_tree 2) eq_refl Hs).
  - simpl. auto.
  - intros child [<-|[]]. simpl. intros [H|[H|[H|[]]]]; discriminate.
Defined.

(** C6, counterexample. In the scenario tree with [0; 1; 2] visible, the
    root is a visible inner node; expanding it adds node 3, and collapsing
    it then leaves only the root, not the state [0; 1; 2] before the
    expansion. *)
Lemma expand_then_collapse_loses_visible_children :
  valid_state scenario_tree [0; 1; 2] /\
  Nodes.node_is_leaf scenario_tree (node_at scenario_tree 0) = false /\
  Nodes.expand_children scenario_tree (node_at scenario_tree 0) [0; 1; 2]
    = Ok [0; 1; 2; 3] /\
  Nodes.hide_children scenario_tree (node_at scenario_tree 0) [0; 1; 2; 3]
    = Ok [0] /\
  [0] <> [0; 1; 2].
Proof.
  split; [apply valid_stateb_ok; reflexivity|].
  repeat split. discriminate.
Qed.

(** *** The default view *)

(** C10. Without a token the state starts as the root together with the
    nodes that have the root as ancestor at most [DISPLAY_DEPTH] levels up,
    and nothing else; it is a valid state. *)
Theorem init_default_view (nodes : list DecisionTreeNode) (validate : bool) :
  wf_tree nodes = true ->
  exists state,
    Nodes.__init__ nodes None validate = Ok state /\
    valid_state nodes state /\
    forall x, In x state <->
      x = 0 \/
      exists j, 1 <= Z.of_nat j <= Config.DISPLAY_DEPTH /\
                ancestor nodes j x = Some 0.
Proof.
  intros Hwf. rewrite (init_default_eq nodes Hwf).
  eexists. split; [reflexivity|]. split.
  - apply (expand_valid nodes Hwf).
    + now destruct (wf_tree_inv nodes Hwf).
    + apply valid_stateb_ok. unfold valid_stateb. cbn.
      unfold connectedb. now cbn.
    + now left.
  - intros x. rewrite merge_In, (below_root_ancestor nodes Hwf). simpl.
    split.
    + intros [[E|[]]|[j [Hj E]]]; [now left|].
      right. exists j. split; [|exact E].
      unfold Config.DISPLAY_DEPTH in *. lia.
    + intros [E|[j [Hj E]]]; [now left; left|].
      right. exists j. split; [|exact E].
      unfold Config.DISPLAY_DEPTH in *. lia.
Qed.

Lemma init_default_view_witness :
  wf_tree (chain_tree 6) = true /\
  exists state,
    Nodes.__init__ (chain_tree 6) None false = Ok state /\
    valid_state (chain_tree 6) state /\
    forall x, In x state <->
      x = 0 \/
      exists j, 1 <= Z.of_nat j <= Config.DISPLAY_DEPTH /\
                ancestor (chain_tree 6) j x = Some 0.
Proof.
  split; [reflexivity|]. exact (init_default_view (chain_tree 6) false eq_refl).
Defined.

Example init_default_view_chain :
  Nodes.__init__ (chain_tree 6) None false = Ok [0; 1; 2; 3].
Proof. reflexivity. Qed.

(** ** Properties of the build handle *)

Section NodeHolderFacts.

Variable CmpAlgorithm : Type.
Variable cmp_algorithms : list CmpAlgorithm.
Variable idx_use_letter_of : CmpAlgorithm -> Z -> bool.
Variable Exception : Type.
Variable IndexError : Exception.

Let holder : Type := NodeHolder.t CmpAlgorithm Exception.
Let generator : Type := CmpAlgorithm -> Z -> NodeHolder.generation Exception.
Let initialize :=
  NodeHolder.initialize cmp_algorithms idx_use_letter_of IndexError.

Lemma fold_progress_fields (calls : list (Z * Z)) (h : holder) :
  let h' := fold_left
              (fun h call =>
                 NodeHolder.set_progress_and_yield (fst call) (snd call) h)
              calls h in
  NodeHolder.lock h' = NodeHolder.lock h /\
  NodeHolder.initialize_scheduled h' = NodeHolder.initialize_scheduled h /\
  NodeHolder.initialized_flag h' = NodeHolder.initialized_flag h /\
  NodeHolder.nodes h' = NodeHolder.nodes h /\
  NodeHolder.operation_cnts h' = NodeHolder.operation_cnts h /\
  NodeHolder.leaf_cnt h' = NodeHolder.leaf_cnt h.
Proof.
  revert h. induction calls as [|c calls IH]; intros h; simpl.
  - repeat split.
  - destruct (IH (NodeHolder.set_progress_and_yield (fst c) (snd c) h))
      as (H1 & H2 & H3 & H4 & H5 & H6).
    simpl in *. repeat split; assumption.
Qed.

(** The handle while the generator runs: lock taken, algorithm recorded,
    progress callbacks applied. *)
Let during (decision_tree : generator) (algorithm : CmpAlgorithm) (N : Z)
  (h : holder) : holder :=
  fold_left
    (fun h call => NodeHolder.set_progress_and_yield (fst call) (snd call) h)
    (NodeHolder.progress_calls (decision_tree algorithm N))
    (NodeHolder.print (NodeHolder.Print_init algorithm N)
       (NodeHolder.with_algorithm algorithm (idx_use_letter_of algorithm N)
          (NodeHolder.with_lock true h))).

Lemma initialize_raises (decision_tree : generator) (h : holder)
  (cmp_algorithm_i N : Z) (algorithm : CmpAlgorithm) (e : Exception) :
  NodeHolder.lock h = false ->
  getitem cmp_algorithms cmp_algorithm_i = Ok algorithm ->
  NodeHolder.gen_result (decision_tree algorithm N) = inr e ->
  initialize decision_tree cmp_algorithm_i N h =
  (NodeHolder.Raised e,
   NodeHolder.with_lock false
     (NodeHolder.with_initialize_scheduled 0
        (NodeHolder.print (NodeHolder.Print_exc e)
           (during decision_tree algorithm N h)))).
Proof.
  intros Hlock Halgo Hgen.
  unfold initialize, NodeHolder.initialize, NodeHolder._initialize.
  now rewrite Hlock, Halgo, Hgen.
Qed.

Lemma initialize_returns (decision_tree : generator) (h : holder)
  (cmp_algorithm_i N : Z) (algorithm : CmpAlgorithm) (b : NodeHolder.built) :
  NodeHolder.lock h = false ->
  getitem cmp_algorithms cmp_algorithm_i = Ok algorithm ->
  NodeHolder.gen_result (decision_tree algorithm N) = inl b ->
  initialize decision_tree cmp_algorithm_i N h =
  (NodeHolder.Returned tt,
   NodeHolder.with_lock false
     (NodeHolder.with_initialized_flag 1
        (NodeHolder.print (NodeHolder.Print_fin algorithm N)
           (NodeHolder.with_built b (during decision_tree algorithm N h))))).
Proof.
  intros Hlock Halgo Hgen.
  unfold initialize, NodeHolder.initialize, NodeHolder._initialize.
  now rewrite Hlock, Halgo, Hgen.
Qed.

Lemma during_fields (decision_tree : generator) (algorithm : CmpAlgorithm)
  (N : Z) (h : holder) :
  let h' := during decision_tree algorithm N h in
  NodeHolder.initialize_scheduled h' = NodeHolder.initialize_scheduled h /\
  NodeHolder.initialized_flag h' = NodeHolder.initialized_flag h /\
  NodeHolder.nodes h' = NodeHolder.nodes h /\
  NodeHolder.operation_cnts h' = NodeHolder.operation_cnts h /\
  NodeHolder.leaf_cnt h' = NodeHolder.leaf_cnt h.
Proof.
  unfold during.
  destruct (fold_progress_fields
              (NodeHolder.progress_calls (decision_tree algorithm N))
              (NodeHolder.print (NodeHolder.Print_init algorithm N)
                 (NodeHolder.with_algorithm algorithm
                    (idx_use_letter_of algorithm N)
                    (NodeHolder.with_lock true h))))
    as (_ & H2 & H3 & H4 & H5 & H6).
  cbn in *. repeat split; assumption.
Qed.

(** C8. When the generator raises during a build on a handle whose lock is
    free, [initialize] raises that same exception to its caller; afterwards
    the claim flag is clear, the completion flag, the tree and the
    statistics are what they were before the build, the lock is free, and
    [wait_until_initialized] returns without an error. The next claim
    attempt therefore succeeds, and a build whose generator returns then
    completes the handle with the generator's result. *)
Theorem failed_build_can_be_retried
  (decision_tree : generator) (h : holder) (cmp_algorithm_i N : Z)
  (algorithm : CmpAlgorithm) (e : Exception) :
  NodeHolder.lock h = false ->
  getitem cmp_algorithms cmp_algorithm_i = Ok algorithm ->
  NodeHolder.gen_result (decision_tree algorithm N) = inr e ->
  let h' := snd (initialize decision_tree cmp_algorithm_i N h) in
  fst (initialize decision_tree cmp_algorithm_i N h) = NodeHolder.Raised e /\
  NodeHolder.initialize_scheduled h' = 0 /\
  NodeHolder.initialized_flag h' = NodeHolder.initialized_flag h /\
  NodeHolder.nodes h' = NodeHolder.nodes h /\
  NodeHolder.operation_cnts h' = NodeHolder.operation_cnts h /\
  NodeHolder.leaf_cnt h' = NodeHolder.leaf_cnt h /\
  NodeHolder.lock h' = false /\
  NodeHolder.wait_until_initialized h' = NodeHolder.Returned tt /\
  fst (NodeHolder.get_and_set_initialize_scheduled h') = false /\
  forall (decision_tree' : generator) (b : NodeHolder.built),
    NodeHolder.gen_result (decision_tree' algorithm N) = inl b ->
    let claimed := snd (NodeHolder.get_and_set_initialize_scheduled h') in
    let h'' := snd (initialize decision_tree' cmp_algorithm_i N claimed) in
    fst (initialize decision_tree' cmp_algorithm_i N claimed)
      = NodeHolder.Returned tt /\
    NodeHolder.initialized_flag h'' = 1 /\
    NodeHolder.nodes h'' = Some (fst (fst b)) /\
    NodeHolder.operation_cnts h'' = Some (snd (fst b)) /\
    NodeHolder.leaf_cnt h'' = Some (snd b).
Proof.
  intros Hlock Halgo Hgen h'. subst h'.
  rewrite (initialize_raises _ _ _ _ _ _ Hlock Halgo Hgen).
  destruct (during_fields decision_tree algorithm N h)
    as (H2 & H3 & H4 & H5 & H6).
  cbn [fst snd]. split; [reflexivity|].
  split; [reflexivity|]. split; [exact H3|]. split; [exact H4|].
  split; [exact H5|]. split; [exact H6|]. split; [reflexivity|].
  split.
  { unfold NodeHolder.wait_until_initialized. cbn.
    now destruct (_ =? 1). }
  split; [reflexivity|].
  intros decision_tree' b Hgen'.
  rewrite (initialize_returns decision_tree' _ cmp_algorithm_i N algorithm b);
    [repeat split | reflexivity | exact Halgo | exact Hgen'].
Qed.

(** On a handle that has been claimed but whose build has not taken the
    lock yet, [wait_until_initialized] returns at once, with nothing
    built. *)
Remark wait_until_initialized_before_build :
  let h : holder :=
    snd (NodeHolder.get_and_set_initialize_scheduled NodeHolder.__init__) in
  NodeHolder.initialize_scheduled h = 1 /\
  NodeHolder.wait_until_initialized h = NodeHolder.Returned tt /\
  NodeHolder.initialized_flag h = 0 /\
  NodeHolder.nodes h = None.
Proof. repeat split. Qed.

End NodeHolderFacts.

(** C7. Two callers on the fresh handle of one key, one call after the
    other: the first caller claims the build; before it has entered
    [initialize], the second caller is refused the claim and waits.
    [wait_until_initialized] finds the completion flag 0 and the lock free
    and returns: the second caller goes on while the handle holds no tree.
    The build of the first caller, run after that, is the one that
    completes the handle. *)
Theorem waiting_caller_returns_before_build :
  let h0 := @NodeHolder.__init__ nat nat in
  let h1 := snd (NodeHolder.get_and_set_initialize_scheduled h0) in
  let h2 := snd (NodeHolder.get_and_set_initialize_scheduled h1) in
  let build := NodeHolder.initialize [7%nat] (fun _ _ => false) 0%nat
                 returning_generator 0 3 h2 in
  fst (NodeHolder.get_and_set_initialize_scheduled h0) = false /\
  fst (NodeHolder.get_and_set_initialize_scheduled h1) = true /\
  NodeHolder.wait_until_initialized h2 = NodeHolder.Returned tt /\
  NodeHolder.initialized_flag h2 = 0 /\
  NodeHolder.nodes h2 = None /\
  fst build = NodeHolder.Returned tt /\
  NodeHolder.initialized_flag (snd build) = 1 /\
  NodeHolder.nodes (snd build) = Some scenario_tree.
Proof. repeat split. Qed.

Lemma failed_build_can_be_retried_witness :
  let h := snd (NodeHolder.get_and_set_initialize_scheduled
                  (@NodeHolder.__init__ nat nat)) in
  let run := NodeHolder.initialize [5%nat] (fun _ _ => true) 0%nat
               failing_generator 0 3 h in
  NodeHolder.initialize_scheduled h = 1 /\
  fst run = NodeHolder.Raised 13%nat /\
  NodeHolder.initialize_scheduled (snd run) = 0 /\
  NodeHolder.initialized_flag (snd run) = 0 /\
  NodeHolder.nodes (snd run) = None /\
  NodeHolder.wait_until_initialized (snd run) = NodeHolder.Returned tt.
Proof.
  intros h run.
  destruct (failed_build_can_be_retried nat [5%nat] (fun _ _ => true) nat
              0%nat failing_generator h 0 3 5%nat 13%nat
              eq_refl eq_refl eq_refl)
    as (Hraise & Hclaim & Hflag & Hnodes & _).
  split; [reflexivity|]. split; [exact Hraise|]. split; [exact Hclaim|].
  split; [exact Hflag|]. split; [exact Hnodes|]. reflexivity.
Defined.

(** ** Properties of the eager view *)

Section ElementsFacts.

Import Elements.

Lemma set_vis_length (E : list Element) (i : nat) (b : bool) :
  length (set_vis E i b) = length E.
Proof.
  revert i. induction E as [|e E IH]; intros [|i]; simpl; auto.
Qed.

Lemma vis_set_vis_same (E : list Element) (i : nat) (b : bool) :
  (i < length E)%nat -> vis (set_vis E i b) i = b.
Proof.
  unfold vis. revert i. induction E as [|e E IH]; intros [|i] Hi;
    simpl in *; try lia; [reflexivity|].
  apply IH. lia.
Qed.

Lemma vis_set_vis_other (E : list Element) (i j : nat) (b : bool) :
  i <> j -> vis (set_vis E i b) j = vis E j.
Proof.
  unfold vis. revert i j. induction E as [|e E IH]; intros [|i] [|j] Hij;
    simpl; try reflexivity; try lia.
  apply IH. lia.
Qed.

Lemma vis_in_range (E : list Element) (i : nat) :
  vis E i = true -> (i < length E)%nat.
Proof.
  unfold vis. intros H. apply nth_error_Some.
  destruct (nth_error E i); [discriminate | discriminate].
Qed.

Lemma set_visible_length (E : list Element) (n : ElementNode) (b : bool) :
  length (set_visible E n b) = length E.
Proof.
  destruct n as [|nd [e|] l r]; simpl; now rewrite ?set_vis_length.
Qed.

Lemma set_visible_frame (E : list Element) (nd : nat) (ed : option nat)
  (l r : ElementNode) (b : bool) (j : nat) :
  j <> nd -> ~ In j (opt_list ed) ->
  vis (set_visible E (ElemNode nd ed l r) b) j = vis E j.
Proof.
  intros Hnd Hed. destruct ed as [e|]; simpl.
  - rewrite !vis_set_vis_other; [reflexivity | congruence |].
    intros ->. apply Hed. now left.
  - apply vis_set_vis_other. congruence.
Qed.

Lemma set_visible_own (E : list Element) (nd : nat) (ed : option nat)
  (l r : ElementNode) (b : bool) :
  (nd < length E)%nat -> ~ In nd (opt_list ed) ->
  vis (set_visible E (ElemNode nd ed l r) b) nd = b.
Proof.
  intros Hnd Hed. destruct ed as [e|]; simpl.
  - rewrite vis_set_vis_other; [now apply vis_set_vis_same|].
    intros ->. apply Hed. now left.
  - now apply vis_set_vis_same.
Qed.

Lemma set_visible_mono (E : list Element) (n : ElementNode) (j : nat) :
  vis (set_visible E n false) j = true -> vis E j = true.
Proof.
  assert (forall E' i, vis (set_vis E' i false) j = true -> vis E' j = true)
    as Hone.
  { intros E' i H. destruct (Nat.eq_dec i j) as [->|Hne].
    - destruct (Nat.lt_ge_cases j (length E')) as [Hlt|Hge].
      + rewrite vis_set_vis_same in H by exact Hlt. discriminate.
      + apply vis_in_range in H. rewrite set_vis_length in H. lia.
    - now rewrite vis_set_vis_other in H. }
  destruct n as [|nd [e|] l r]; simpl; eauto.
Qed.

Lemma set_visible_true_mono (E : list Element) (n : ElementNode) (j : nat) :
  vis E j = true -> vis (set_visible E n true) j = true.
Proof.
  assert (forall E' i, vis E' j = true -> vis (set_vis E' i true) j = true)
    as Hone.
  { intros E' i H. destruct (Nat.eq_dec i j) as [->|Hne].
    - apply vis_set_vis_same. now apply vis_in_range.
    - now rewrite vis_set_vis_other. }
  destruct n as [|nd [e|] l r]; simpl; eauto.
Qed.

Lemma connected_view_ext (E E' : list Element) (n : ElementNode) :
  (forall j, In j (slots n) -> vis E' j = vis E j) ->
  connected_view E n -> connected_view E' n.
Proof.
  induction n as [|nd ed l IHl r IHr]; intros Hext Hc; simpl in *; [exact I|].
  destruct Hc as (Hl & Hr & Hcl & Hcr).
  assert (vis E' nd = vis E nd) as End by (apply Hext; now left).
  assert (forall j, In j (slots l) -> vis E' j = vis E j) as Hel.
  { intros j Hj. apply Hext. right. apply in_or_app. right.
    apply in_or_app. now left. }
  assert (forall j, In j (slots r) -> vis E' j = vis E j) as Her.
  { intros j Hj. apply Hext. right. apply in_or_app. right.
    apply in_or_app. now right. }
  assert (visible E' l = visible E l) as Evl.
  { destruct l as [|lnd led ll lr]; [reflexivity|]. simpl.
    apply Hel. now left. }
  assert (visible E' r = visible E r) as Evr.
  { destruct r as [|rnd red rl rr]; [reflexivity|]. simpl.
    apply Her. now left. }
  rewrite End, Evl, Evr. auto.
Qed.

Lemma all_hidden_ext (E E' : list Element) (n : ElementNode) :
  (forall j, In j (slots n) -> vis E' j = vis E j) ->
  all_hidden E n -> all_hidden E' n.
Proof.
  induction n as [|nd ed l IHl r IHr]; intros Hext Hh; simpl in *; [exact I|].
  destruct Hh as (Hnd & Hl & Hr). split; [|split].
  - rewrite Hext; [exact Hnd | now left].
  - apply IHl; [|exact Hl]. intros j Hj. apply Hext. right.
    apply in_or_app. right. apply in_or_app. now left.
  - apply IHr; [|exact Hr]. intros j Hj. apply Hext. right.
    apply in_or_app. right. apply in_or_app. now right.
Qed.

Lemma all_hidden_visible (E : list Element) (n : ElementNode) :
  all_hidden E n -> visible E n = false.
Proof. destruct n; simpl; [reflexivity | tauto]. Qed.

Lemma all_hidden_connected (E : list Element) (n : ElementNode) :
  all_hidden E n -> connected_view E n.
Proof.
  induction n as [|nd ed l IHl r IHr]; simpl; [auto|].
  intros (_ & Hl & Hr).
  rewrite (all_hidden_visible E l Hl), (all_hidden_visible E r Hr).
  repeat split; auto; discriminate.
Qed.

Lemma hidden_root_all_hidden (E : list Element) (n : ElementNode) :
  connected_view E n -> visible E n = false -> all_hidden E n.
Proof.
  induction n as [|nd ed l IHl r IHr]; simpl; [auto|].
  intros (Hl & Hr & Hcl & Hcr) Hnd. split; [exact Hnd|]. split.
  - apply IHl; [exact Hcl|]. destruct (visible E l); [|reflexivity].
    rewrite Hl in Hnd by reflexivity. discriminate.
  - apply IHr; [exact Hcr|]. destruct (visible E r); [|reflexivity].
    rewrite Hr in Hnd by reflexivity. discriminate.
Qed.

Lemma subnode_slots (n root : ElementNode) :
  subnode n root -> forall j, In j (slots n) -> In j (slots root).
Proof.
  induction 1 as [nd ed l r | n nd ed l r _ IH | n nd ed l r _ IH];
    intros j Hj; [exact Hj | |]; simpl; right; apply in_or_app; right;
    apply in_or_app; [left | right]; now apply IH.
Qed.

Lemma NoDup_slots_inv (nd : nat) (ed : option nat) (l r : ElementNode) :
  NoDup (slots (ElemNode nd ed l r)) ->
  ~ In nd (opt_list ed) /\
  (forall j, In j (slots l) -> j <> nd /\ ~ In j (opt_list ed) /\
                               ~ In j (slots r)) /\
  (forall j, In j (slots r) -> j <> nd /\ ~ In j (opt_list ed)) /\
  NoDup (slots l) /\ NoDup (slots r).
Proof.
  simpl. intros H. apply NoDup_cons_iff in H. destruct H as [Hnd H].
  apply NoDup_app_remove_l in H as Hlr.
  assert (NoDup (slots l) /\ NoDup (slots r) /\
          forall j, In j (slots l) -> ~ In j (slots r)) as (Hl & Hr & Hd).
  { clear - Hlr. revert Hlr. generalize (slots r) as b.
    induction (slots l) as [|x a IH]; intros b H; simpl in *.
    - repeat split; [constructor | exact H | intros ? []].
    - apply NoDup_cons_iff in H. destruct H as [Hx H].
      destruct (IH b H) as (Ha & Hb & Hab).
      repeat split; try assumption.
      + constructor; [|exact Ha]. intros Hin. apply Hx, in_or_app. now left.
      + intros j [<-|Hj]; [|now apply Hab].
        intros Hin. apply Hx, in_or_app. now right. }
  assert (forall j, In j (slots l ++ slots r) -> ~ In j (opt_list ed)) as Hed.
  { clear - H. intros j Hj Hin. destruct ed as [e|]; [|destruct Hin].
    destruct Hin as [<-|[]]. simpl in H. apply NoDup_cons_iff in H.
    tauto. }
  repeat split; try assumption.
  - intros Hin. apply Hnd. apply in_or_app. now left.
  - intros ->. apply Hnd. apply in_or_app. right. apply in_or_app. now left.
  - apply Hed. apply in_or_app. now left.
  - now apply Hd.
  - intros ->. apply Hnd. apply in_or_app. right. apply in_or_app. now right.
  - apply Hed. apply in_or_app. now right.
Qed.

(** *** set_child_hidden *)

Lemma dfs_hidden_unfold (nd : nat) (ed : option nat) (l r : ElementNode)
  (E : list Element) :
  dfs_hidden (ElemNode nd ed l r) E = hide_child r (hide_child l E).
Proof. destruct l, r; reflexivity. Qed.

Lemma hide_child_facts (child : ElementNode) :
  forall E,
  length (hide_child child E) = length E /\
  (forall j, ~ In j (slots child) ->
             vis (hide_child child E) j = vis E j) /\
  (forall j, vis (hide_child child E) j = true -> vis E j = true).
Proof.
  induction child as [|cnd ced cl IHl cr IHr]; intros E.
  - simpl. auto.
  - cbn [hide_child]. destruct (vis E cnd) eqn:Ev; [|auto].
    rewrite dfs_hidden_unfold.
    set (E1 := set_visible E (ElemNode cnd ced cl cr) false).
    destruct (IHl E1) as (Ll & Fl & Ml).
    destruct (IHr (hide_child cl E1)) as (Lr & Fr & Mr).
    split; [|split].
    + rewrite Lr, Ll. apply set_visible_length.
    + intros j Hj. simpl in Hj.
      rewrite Fr, Fl.
      * apply set_visible_frame.
        -- intros ->. apply Hj. now left.
        -- intros Hin. apply Hj. right. apply in_or_app. now left.
      * intros Hin. apply Hj. right. apply in_or_app. right.
        apply in_or_app. now left.
      * intros Hin. apply Hj. right. apply in_or_app. right.
        apply in_or_app. now right.
    + intros j Hj. apply Mr, Ml in Hj. now apply set_visible_mono in Hj.
Qed.

Lemma hide_child_all_hidden (child : ElementNode) :
  forall E, NoDup (slots child) -> connected_view E child ->
            all_hidden (hide_child child E) child.
Proof.
  induction child as [|cnd ced cl IHl cr IHr]; intros E Hnd Hc; [exact I|].
  cbn [hide_child]. destruct (vis E cnd) eqn:Ev.
  - rewrite dfs_hidden_unfold.
    set (E1 := set_visible E (ElemNode cnd ced cl cr) false).
    destruct (NoDup_slots_inv _ _ _ _ Hnd) as (Hown & Hsl & Hsr & Hndl & Hndr).
    destruct Hc as (_ & _ & Hcl & Hcr).
    destruct (hide_child_facts cl E1) as (_ & Fl & _).
    destruct (hide_child_facts cr (hide_child cl E1)) as (_ & Fr & _).
    assert (forall j, j <> cnd -> ~ In j (opt_list ced) ->
                      vis E1 j = vis E j) as F1
      by (intros; now apply set_visible_frame).
    split; [|split].
    + rewrite Fr, Fl.
      * apply set_visible_own; [now apply vis_in_range | exact Hown].
      * intros Hin. now destruct (Hsl _ Hin).
      * intros Hin. now destruct (Hsr _ Hin).
    + apply (all_hidden_ext (hide_child cl E1)).
      * intros j Hj. apply Fr. now destruct (Hsl _ Hj) as (_ & _ & ?).
      * apply IHl; [exact Hndl|].
        apply (connected_view_ext E); [|exact Hcl].
        intros j Hj. destruct (Hsl _ Hj) as (? & ? & _). now apply F1.
    + apply IHr; [exact Hndr|].
      apply (connected_view_ext E); [|exact Hcr].
      intros j Hj. destruct (Hsr _ Hj) as (? & ?).
      rewrite Fl; [now apply F1|].
      intros Hin. now destruct (Hsl _ Hin) as (_ & _ & ?).
  - apply hidden_root_all_hidden; assumption.
Qed.

Lemma dfs_hidden_facts (n : ElementNode) (E : list Element) :
  length (dfs_hidden n E) = length E /\
  (forall j, ~ In j (slots n) -> vis (dfs_hidden n E) j = vis E j) /\
  (forall j, vis (dfs_hidden n E) j = true -> vis E j = true).
Proof.
  destruct n as [|nd ed l r]; [simpl; auto|].
  rewrite dfs_hidden_unfold.
  destruct (hide_child_facts l E) as (Ll & Fl & Ml).
  destruct (hide_child_facts r (hide_child l E)) as (Lr & Fr & Mr).
  split; [congruence|]. split.
  - intros j Hj. simpl in Hj. rewrite Fr, Fl; [reflexivity | |];
      intros Hin; apply Hj; right; apply in_or_app; right; apply in_or_app;
      auto.
  - intros j Hj. auto.
Qed.

Lemma dfs_hidden_below (nd : nat) (ed : option nat) (l r : ElementNode)
  (E : list Element) :
  NoDup (slots (ElemNode nd ed l r)) ->
  connected_view E (ElemNode nd ed l r) ->
  all_hidden (dfs_hidden (ElemNode nd ed l r) E) l /\
  all_hidden (dfs_hidden (ElemNode nd ed l r) E) r.
Proof.
  intros Hnd (_ & _ & Hcl & Hcr). rewrite dfs_hidden_unfold.
  destruct (NoDup_slots_inv _ _ _ _ Hnd) as (_ & Hsl & Hsr & Hndl & Hndr).
  destruct (hide_child_facts l E) as (_ & Fl & _).
  destruct (hide_child_facts r (hide_child l E)) as (_ & Fr & _).
  split.
  - apply (all_hidden_ext (hide_child l E)).
    + intros j Hj. apply Fr. now destruct (Hsl _ Hj) as (_ & _ & ?).
    + now apply hide_child_all_hidden.
  - apply hide_child_all_hidden; [exact Hndr|].
    apply (connected_view_ext E); [|exact Hcr].
    intros j Hj. apply Fl. intros Hin. now destruct (Hsl _ Hin) as (_ & _ & ?).
Qed.

(** Hiding below any node of a connected view leaves it connected. *)
Lemma set_child_hidden_connected (E : list Element) (n root : ElementNode) :
  subnode n root -> NoDup (slots root) -> connected_view E root ->
  connected_view (set_child_hidden n E) root.
Proof.
  unfold set_child_hidden.
  destruct (dfs_hidden_facts n E) as (_ & Fr & Mo).
  induction 1 as [nd ed l r | n nd ed l r Hsub IH | n nd ed l r Hsub IH];
    intros Hnd Hc.
  - destruct (dfs_hidden_below nd ed l r E Hnd Hc) as [Hl Hr].
    cbn [connected_view].
    rewrite (all_hidden_visible _ l Hl), (all_hidden_visible _ r Hr).
    repeat split; try discriminate; now apply all_hidden_connected.
  - destruct (NoDup_slots_inv _ _ _ _ Hnd) as (_ & Hsl & Hsr & Hndl & Hndr).
    pose proof (subnode_slots n l Hsub) as Hin.
    destruct Hc as (Hl & Hr & Hcl & Hcr).
    assert (vis (dfs_hidden n E) nd = vis E nd) as End.
    { apply Fr. intros Hj. now destruct (Hsl _ (Hin _ Hj)). }
    cbn [connected_view]. rewrite End. repeat split.
    + intros Hv. apply Hl. destruct l; [discriminate|]. cbn [visible] in *.
      now apply Mo.
    + intros Hv. apply Hr. destruct r; [discriminate|]. cbn [visible] in *.
      now apply Mo.
    + now apply IH.
    + apply (connected_view_ext E); [|exact Hcr].
      intros j Hj. apply Fr. intros Hjn.
      now destruct (Hsl _ (Hin _ Hjn)) as (_ & _ & ?).
  - destruct (NoDup_slots_inv _ _ _ _ Hnd) as (_ & Hsl & Hsr & Hndl & Hndr).
    pose proof (subnode_slots n r Hsub) as Hin.
    destruct Hc as (Hl & Hr & Hcl & Hcr).
    assert (vis (dfs_hidden n E) nd = vis E nd) as End.
    { apply Fr. intros Hj. now destruct (Hsr _ (Hin _ Hj)). }
    cbn [connected_view]. rewrite End. repeat split.
    + intros Hv. apply Hl. destruct l; [discriminate|]. cbn [visible] in *.
      now apply Mo.
    + intros Hv. apply Hr. destruct r; [discriminate|]. cbn [visible] in *.
      now apply Mo.
    + apply (connected_view_ext E); [|exact Hcl].
      intros j Hj. apply Fr. intros Hjn.
      now destruct (Hsl _ Hj) as (_ & _ & ?); auto.
    + now apply IH.
Qed.

(** *** set_child_visible *)

Lemma dfs_visible_facts (dd : Z) (n : ElementNode) :
  forall depth E,
  length (dfs_visible dd n depth E) = length E /\
  (forall j, ~ In j (slots n) -> vis (dfs_visible dd n depth E) j = vis E j) /\
  (forall j, vis E j = true -> vis (dfs_visible dd n depth E) j = true).
Proof.
  induction n as [|nd ed l IHl r IHr]; intros depth E; [simpl; auto|].
  cbn [dfs_visible]. destruct (dd <=? depth); [auto|].
  set (E1 := set_visible E (ElemNode nd ed l r) true).
  destruct (IHl (depth + 1) E1) as (Ll & Fl & Ml).
  destruct (IHr (depth + 1) (dfs_visible dd l (depth + 1) E1))
    as (Lr & Fr & Mr).
  split; [|split].
  - rewrite Lr, Ll. apply set_visible_length.
  - intros j Hj. simpl in Hj. rewrite Fr, Fl.
    + apply set_visible_frame.
      * intros ->. apply Hj. now left.
      * intros Hin. apply Hj. right. apply in_or_app. now left.
    + intros Hin. apply Hj. right. apply in_or_app. right.
      apply in_or_app. now left.
    + intros Hin. apply Hj. right. apply in_or_app. right.
      apply in_or_app. now right.
  - intros j Hj. apply Mr, Ml. now apply set_visible_true_mono.
Qed.

Lemma dfs_visible_connected (dd : Z) (n : ElementNode) :
  forall depth E,
  NoDup (slots n) -> (forall i, In i (slots n) -> (i < length E)%nat) ->
  connected_view E n -> connected_view (dfs_visible dd n depth E) n.
Proof.
  induction n as [|nd ed l IHl r IHr]; intros depth E Hnd Hrange Hc;
    [exact I|].
  cbn [dfs_visible]. destruct (dd <=? depth); [exact Hc|].
  set (E1 := set_visible E (ElemNode nd ed l r) true).
  destruct (NoDup_slots_inv _ _ _ _ Hnd) as (Hown & Hsl & Hsr & Hndl & Hndr).
  destruct Hc as (_ & _ & Hcl & Hcr).
  destruct (dfs_visible_facts dd l (depth + 1) E1) as (Ll & Fl & Ml).
  destruct (dfs_visible_facts dd r (depth + 1)
              (dfs_visible dd l (depth + 1) E1)) as (Lr & Fr & Mr).
  assert (length E1 = length E) as L1 by apply set_visible_length.
  assert (forall j, j <> nd -> ~ In j (opt_list ed) -> vis E1 j = vis E j)
    as F1 by (intros; now apply set_visible_frame).
  assert (vis (dfs_visible dd r (depth + 1)
                 (dfs_visible dd l (depth + 1) E1)) nd = true) as Hvis.
  { apply Mr, Ml. apply set_visible_own; [|exact Hown].
    apply Hrange. now left. }
  assert (forall j, In j (slots l) -> In j (slots (ElemNode nd ed l r)))
    as Hinl.
  { intros j Hj. simpl. right. apply in_or_app. right. apply in_or_app.
    now left. }
  assert (forall j, In j (slots r) -> In j (slots (ElemNode nd ed l r)))
    as Hinr.
  { intros j Hj. simpl. right. apply in_or_app. right. apply in_or_app.
    now right. }
  simpl. rewrite Hvis. repeat split; auto.
  - apply (connected_view_ext (dfs_visible dd l (depth + 1) E1)).
    + intros j Hj. apply Fr. now destruct (Hsl _ Hj) as (_ & _ & ?).
    + apply IHl; [exact Hndl | |].
      * intros i Hi. rewrite L1. auto.
      * apply (connected_view_ext E); [|exact Hcl].
        intros j Hj. destruct (Hsl _ Hj) as (? & ? & _). now apply F1.
  - apply IHr; [exact Hndr | |].
    + intros i Hi. rewrite Ll, L1. auto.
    + apply (connected_view_ext E); [|exact Hcr].
      intros j Hj. destruct (Hsr _ Hj) as (? & ?).
      rewrite Fl; [now apply F1|].
      intros Hin. now destruct (Hsl _ Hin) as (_ & _ & ?).
Qed.

(** Revealing below a visible node of a connected view leaves it
    connected. *)
Lemma set_child_visible_connected (E : list Element) (n root : ElementNode) :
  subnode n root -> wf_view E root -> connected_view E root ->
  visible E n = true ->
  connected_view (set_child_visible n E) root /\
  visible (set_child_visible n E) root = visible E root.
Proof.
  unfold set_child_visible. intros Hsub [Hnd Hrange] Hc Hvis.
  destruct (dfs_visible_facts Config.DISPLAY_DEPTH n 0 E) as (_ & Fr & Mo).
  revert Hnd Hrange Hc.
  induction Hsub as [nd ed l r | n nd ed l r Hsub IH | n nd ed l r Hsub IH];
    intros Hnd Hrange Hc.
  - split; [now apply dfs_visible_connected|].
    simpl in *. rewrite Hvis. now apply Mo.
  - destruct (NoDup_slots_inv _ _ _ _ Hnd) as (_ & Hsl & Hsr & Hndl & Hndr).
    pose proof (subnode_slots n l Hsub) as Hin.
    destruct Hc as (Hl & Hr & Hcl & Hcr).
    assert (vis (dfs_visible Config.DISPLAY_DEPTH n 0 E) nd = vis E nd)
      as End.
    { apply Fr. intros Hj. now destruct (Hsl _ (Hin _ Hj)). }
    destruct (IH Hvis Fr Mo Hndl) as [IHc IHv]; [|exact Hcl|].
    { intros i Hi. apply Hrange. simpl. right. apply in_or_app. right.
      apply in_or_app. now left. }
    assert (visible (dfs_visible Config.DISPLAY_DEPTH n 0 E) r = visible E r)
      as Evr.
    { destruct r as [|rnd red rl rr]; [reflexivity|]. simpl. apply Fr.
      intros Hj.
      destruct (Hsl _ (Hin _ Hj)) as (_ & _ & Hnr). apply Hnr. now left. }
    split; [|exact End]. simpl. rewrite End, IHv, Evr.
    repeat split; auto.
    apply (connected_view_ext E); [|exact Hcr].
    intros j Hj. apply Fr. intros Hjn.
    now destruct (Hsl _ (Hin _ Hjn)) as (_ & _ & ?).
  - destruct (NoDup_slots_inv _ _ _ _ Hnd) as (_ & Hsl & Hsr & Hndl & Hndr).
    pose proof (subnode_slots n r Hsub) as Hin.
    destruct Hc as (Hl & Hr & Hcl & Hcr).
    assert (vis (dfs_visible Config.DISPLAY_DEPTH n 0 E) nd = vis E nd)
      as End.
    { apply Fr. intros Hj. now destruct (Hsr _ (Hin _ Hj)). }
    destruct (IH Hvis Fr Mo Hndr) as [IHc IHv]; [|exact Hcr|].
    { intros i Hi. apply Hrange. simpl. right. apply in_or_app. right.
      apply in_or_app. now right. }
    assert (visible (dfs_visible Config.DISPLAY_DEPTH n 0 E) l = visible E l)
      as Evl.
    { destruct l as [|lnd led ll lr]; [reflexivity|]. simpl. apply Fr.
      intros Hj.
      assert (In lnd (slots (ElemNode lnd led ll lr))) as Hl0 by now left.
      destruct (Hsl _ Hl0) as (_ & _ & Hnr). apply Hnr. now apply Hin. }
    split; [|exact End]. simpl. rewrite End, IHv, Evl.
    repeat split; auto.
    apply (connected_view_ext E); [|exact Hcl].
    intros j Hj. apply Fr. intros Hjn.
    destruct (Hsl _ Hj) as (_ & _ & Hnr). apply Hnr. now apply Hin.
Qed.

(** *** Elements.__init__ *)

Lemma build_unfold (dd : Z) (id : nat) (xy : Z * Z) (l r : DecisionTree)
  (edge : option nat) (depth : Z) (start : nat) :
  build dd (Node id (Some xy) l r) edge depth start =
  let bl := build_child dd id l depth (S start) in
  let br := build_child dd id r depth (S start + length (snd bl))%nat in
  (ElemNode start edge (fst bl) (fst br),
   mkElement (NodeData id) (depth <? dd) :: snd bl ++ snd br).
Proof.
  cbn [build]. unfold build_child.
  destruct l as [|lid lxy ll lr], r as [|rid rxy rl rr]; cbv zeta;
    cbn [fst snd];
    repeat (match goal with
            | |- context [build dd (Node ?i ?c ?a ?b) ?e ?d ?s] =>
                destruct (build dd (Node i c a b) e d s) as [? ?]
            end; cbn [fst snd]);
    reflexivity.
Qed.

Lemma vis_middle (pre post : list Element) (e : Element) :
  vis (pre ++ e :: post) (length pre) = visibility e.
Proof.
  unfold vis. rewrite nth_error_app2 by lia.
  now rewrite Nat.sub_diag.
Qed.

Lemma build_child_ok_of (dd : Z) (child : DecisionTree) :
  build_ok dd child -> build_child_ok dd child.
Proof.
  intros Hok parent_id depth start.
  destruct child as [|cid cxy cl cr].
  - simpl. repeat split; try constructor; try easy.
  - cbn [build_child fst snd].
    destruct (Hok (Some start) (depth + 1) (S start)) as (Hnd & Hr & Hf).
    split; [|split].
    + apply Hnd. intros e [= <-]. lia.
    + intros i Hi. destruct (Hr i Hi) as [[<-|[]]|H]; cbn [length]; lia.
    + intros pre post Hpre.
      specialize (Hf (pre ++ [mkElement (EdgeData parent_id cid)
                                        (depth + 1 <? dd)]) post).
      rewrite <- app_assoc in Hf. apply Hf.
      rewrite length_app. simpl. lia.
Qed.

Lemma build_spec (dd : Z) (node : DecisionTree) : build_ok dd node.
Proof.
  induction node as [|id cmp_xy l IHl r IHr]; intros edge depth start.
  - simpl. repeat split; try constructor; try easy.
  - destruct cmp_xy as [xy|].
    + rewrite build_unfold. cbv zeta. cbn [fst snd].
      pose proof (build_child_ok_of dd l IHl id depth (S start)) as Hl.
      set (bl := build_child dd id l depth (S start)) in *.
      pose proof (build_child_ok_of dd r IHr id depth
                    (S start + length (snd bl))%nat) as Hr.
      set (br := build_child dd id r depth
                   (S start + length (snd bl))%nat) in *.
      cbv zeta in Hl, Hr.
      destruct Hl as (Hndl & Hrl & Hfl). destruct Hr as (Hndr & Hrr & Hfr).
      split; [|split].
      * intros Hedge. cbn [slots]. constructor.
        -- intros Hin. apply in_app_or in Hin. destruct Hin as [Hin|Hin].
           ++ destruct edge as [e|]; [|destruct Hin].
              destruct Hin as [<-|[]]. specialize (Hedge _ eq_refl). lia.
           ++ apply in_app_or in Hin. destruct Hin as [Hin|Hin].
              ** specialize (Hrl _ Hin). lia.
              ** specialize (Hrr _ Hin). lia.
        -- assert (NoDup (slots (fst bl) ++ slots (fst br))) as Hlr.
           { clear - Hndl Hndr Hrl Hrr.
             revert Hndl Hrl. generalize (slots (fst bl)) as a.
             induction a as [|x a IH]; intros Ha Hr; simpl; [exact Hndr|].
             apply NoDup_cons_iff in Ha. destruct Ha as [Hx Ha].
             constructor.
             - intros Hin. apply in_app_or in Hin.
               destruct Hin as [Hin|Hin]; [contradiction|].
               specialize (Hr x (or_introl eq_refl)).
               specialize (Hrr x Hin). lia.
             - apply IH; [exact Ha|]. intros i Hi. apply Hr. now right. }
           destruct edge as [e|]; [|exact Hlr]. cbn [opt_list app].
           constructor; [|exact Hlr].
           specialize (Hedge _ eq_refl). intros Hin.
           apply in_app_or in Hin. destruct Hin as [Hin|Hin].
           ++ specialize (Hrl _ Hin). lia.
           ++ specialize (Hrr _ Hin). lia.
      * intros i Hi. cbn [slots] in Hi. destruct Hi as [<-|Hi].
        -- right. simpl. lia.
        -- apply in_app_or in Hi. destruct Hi as [Hi|Hi]; [now left|].
           right. cbn [length]. rewrite length_app.
           apply in_app_or in Hi. destruct Hi as [Hi|Hi].
           ++ specialize (Hrl _ Hi). lia.
           ++ specialize (Hrr _ Hi). lia.
      * intros pre post Hpre.
        set (nd := mkElement (NodeData id) (depth <? dd)).
        set (E := pre ++ (nd :: snd bl ++ snd br) ++ post).
        assert (vis E start = (depth <? dd)) as Hv.
        { unfold E. cbn [app]. rewrite <- Hpre. apply vis_middle. }
        assert (E = (pre ++ [nd]) ++ snd bl ++ (snd br ++ post)) as El.
        { unfold E. cbn [app]. now rewrite <- !app_assoc. }
        assert (E = (pre ++ nd :: snd bl) ++ snd br ++ post) as Er.
        { unfold E. cbn [app]. now rewrite <- !app_assoc. }
        destruct (Hfl (pre ++ [nd]) (snd br ++ post)) as [Hcl Hvl].
        { rewrite length_app. simpl. lia. }
        destruct (Hfr (pre ++ nd :: snd bl) post) as [Hcr Hvr].
        { rewrite length_app. simpl. lia. }
        rewrite <- El in Hcl, Hvl. rewrite <- Er in Hcr, Hvr.
        split.
        -- cbn [connected_view]. rewrite Hv. repeat split; auto.
           ++ intros H. apply Z.ltb_lt. specialize (Hvl H). lia.
           ++ intros H. apply Z.ltb_lt. specialize (Hvr H). lia.
        -- cbn [visible]. rewrite Hv. apply Z.ltb_lt.
    + cbn [build fst snd]. split; [|split].
      * intros Hedge. cbn [slots]. rewrite app_nil_r.
        constructor.
        -- destruct edge as [e|]; [|easy]. intros [<-|[]].
           specialize (Hedge _ eq_refl). lia.
        -- destruct edge; repeat constructor. easy.
      * intros i Hi. cbn [slots] in Hi. rewrite app_nil_r in Hi.
        destruct Hi as [<-|Hi]; [right; simpl; lia | now left].
      * intros pre post Hpre.
        assert (vis (pre ++ [mkElement (NodeData id) (depth <? dd)] ++ post)
                    start = (depth <? dd)) as Hv.
        { cbn [app]. rewrite <- Hpre. apply vis_middle. }
        split.
        -- cbn [connected_view visible]. repeat split; discriminate.
        -- cbn [visible]. rewrite Hv. apply Z.ltb_lt.
Qed.

Lemma build_root_shape (dd : Z) (id : nat) (cmp_xy : option (Z * Z))
  (l r : DecisionTree) (edge : option nat) (depth : Z) (start : nat) :
  exists el er,
    fst (build dd (Node id cmp_xy l r) edge depth start) =
    ElemNode start edge el er.
Proof.
  destruct cmp_xy as [xy|].
  - rewrite build_unfold. cbv zeta. cbn [fst]. eauto.
  - cbn [build fst]. eauto.
Qed.

Lemma init_elements (tree : DecisionTree) :
  elements (__init__ tree) =
  snd (build Config.DISPLAY_DEPTH tree None 0 0) /\
  element_nodes (__init__ tree) =
  index_nodes tree (fst (build Config.DISPLAY_DEPTH tree None 0 0)) [].
Proof.
  unfold __init__.
  destruct (build Config.DISPLAY_DEPTH tree None 0 0) as [root E].
  split; reflexivity.
Qed.

Lemma index_nodes_head (node : DecisionTree) :
  forall en x rest, id_free 0 node = true ->
  exists rest', index_nodes node en (x :: rest) = x :: rest'.
Proof.
  induction node as [|id cmp_xy l IHl r IHr]; intros en x rest Hfree.
  - simpl. eauto.
  - cbn [id_free] in Hfree.
    apply andb_true_iff in Hfree. destruct Hfree as [Hfree Hr].
    apply andb_true_iff in Hfree. destruct Hfree as [Hid Hl].
    destruct en as [|nd ed el er]; [simpl; eauto|].
    cbn [index_nodes]. destruct id as [|id]; [discriminate|].
    cbn [place]. destruct cmp_xy; [|eauto].
    destruct (IHl el x (place rest id (ElemNode nd ed el er)) Hl)
      as [rest1 ->].
    apply IHr. exact Hr.
Qed.

(** *** The state string *)

Lemma vis_nth (E : list Element) (j : nat) :
  vis E j = nth j (map visibility E) false.
Proof.
  unfold vis. revert j. induction E as [|e E IH]; intros [|j]; simpl; auto.
Qed.

Lemma set_get_visiblity (E E0 : list Element) :
  length E = length E0 ->
  map visibility (set_visiblity E (get_visiblity E0)) = map visibility E0 /\
  map data (set_visiblity E (get_visiblity E0)) = map data E.
Proof.
  revert E0. induction E as [|e E IH]; intros [|e0 E0] Hlen;
    simpl in Hlen; try discriminate; [split; reflexivity|].
  cbn [get_visiblity set_visiblity map visibility data].
  destruct (IH E0) as [IH1 IH2]; [lia|]. rewrite IH1, IH2.
  split; [|reflexivity]. f_equal. now destruct (visibility e0).
Qed.

Lemma set_visiblity_length (E : list Element) (v : String.string) :
  length (set_visiblity E v) = length E.
Proof.
  revert v. induction E as [|e E IH]; intros [|c v]; simpl; auto.
Qed.

(** *** The connectivity of the eager view *)

(** C9, as amended. For the view that [Elements.__init__] builds from a
    tree, whose root element node is [root]: the initial flags are
    connected, and from any connected flags of the same list
    [set_child_visible] on a visible node, [set_child_hidden] on any node
    and [reset] (when [element_nodes[0]] is the root, as it is when the
    root alone carries id 0) lead to connected flags again, on a list of the
    same length. [set_visiblity] writes the flags its string spells: with a
    string that [get_visiblity] made from connected flags it yields
    connected flags. *)
Theorem eager_view_connectivity (id : nat) (cmp_xy : option (Z * Z))
  (l r : DecisionTree) :
  let tree := Node id cmp_xy l r in
  let root := fst (build Config.DISPLAY_DEPTH tree None 0 0) in
  let self := __init__ tree in
  connected_view (elements self) root /\
  forall E,
    length E = length (elements self) -> connected_view E root ->
    (forall n, subnode n root -> visible E n = true ->
       connected_view (set_child_visible n E) root /\
       length (set_child_visible n E) = length E) /\
    (forall n, subnode n root ->
       connected_view (set_child_hidden n E) root /\
       length (set_child_hidden n E) = length E) /\
    (id = 0%nat -> id_free 0 l = true -> id_free 0 r = true ->
       exists self',
         reset (mk E (element_nodes self)) = Ok self' /\
         connected_view (elements self') root /\
         length (elements self') = length E /\
         element_nodes self' = element_nodes self) /\
    (forall E0,
       length E0 = length E -> connected_view E0 root ->
       connected_view (set_visiblity E (get_visiblity E0)) root /\
       length (set_visiblity E (get_visiblity E0)) = length E).
Proof.
  intros tree root self.
  destruct (init_elements tree) as [Eel Een].
  fold self in Eel, Een.
  destruct (build_spec Config.DISPLAY_DEPTH tree None 0 0%nat)
    as (Hnd & Hrange & Hflags).
  fold root in Hnd, Hrange, Hflags. rewrite <- Eel in Hrange, Hflags.
  assert (NoDup (slots root)) as Hnodup by (apply Hnd; discriminate).
  assert (forall E, length E = length (elements self) -> wf_view E root)
    as Hwf.
  { intros E HE. split; [exact Hnodup|]. intros i Hi.
    destruct (Hrange i Hi) as [[]|H]. rewrite HE. lia. }
  split.
  - destruct (Hflags [] [] eq_refl) as [Hc _].
    now rewrite app_nil_r in Hc.
  - intros E HE Hc. split; [|split; [|split]].
    + intros n Hsub Hvis. split.
      * now apply (set_child_visible_connected E n root Hsub (Hwf E HE)).
      * apply dfs_visible_facts.
    + intros n Hsub. split.
      * now apply set_child_hidden_connected.
      * apply dfs_hidden_facts.
    + intros -> Hl Hr.
      destruct (build_root_shape Config.DISPLAY_DEPTH 0 cmp_xy l r None 0 0)
        as (el & er & Eroot).
      fold tree in Eroot. fold root in Eroot.
      assert (exists rest, element_nodes self = root :: rest) as [rest Een'].
      { rewrite Een. fold root. rewrite Eroot. unfold tree.
        cbn [index_nodes place]. destruct cmp_xy; [|eauto].
        destruct (index_nodes_head l el (ElemNode 0 None el er) [] Hl)
          as [rest1 ->].
        now apply index_nodes_head. }
      unfold reset. cbn [element_nodes elements]. rewrite Een'.
      assert (getitem (root :: rest) 0 = Ok root) as ->.
      { unfold getitem, len. cbn [length].
        destruct (Z.leb_spec (Z.of_nat (S (length rest))) 0); [lia|].
        reflexivity. }
      cbn [bind].
      exists (mk (set_child_visible root (set_child_hidden root E))
                 (root :: rest)).
      split; [now rewrite Eroot|]. cbn [elements element_nodes].
      assert (length (set_child_hidden root E) = length E) as Lh
        by apply dfs_hidden_facts.
      assert (length (set_child_visible root (set_child_hidden root E)) =
              length E) as Lv.
      { unfold set_child_visible.
        destruct (dfs_visible_facts Config.DISPLAY_DEPTH root 0
                    (set_child_hidden root E)) as (L & _). congruence. }
      split; [|split; [exact Lv | reflexivity]].
      apply dfs_visible_connected; [exact Hnodup | |].
      * intros i Hi. rewrite Lh. now apply (Hwf E HE).
      * apply set_child_hidden_connected; try assumption.
        rewrite Eroot. constructor.
    + intros E0 HE0 Hc0. split; [|apply set_visiblity_length].
      destruct (set_get_visiblity E E0) as [Hv _]; [congruence|].
      apply (connected_view_ext E0); [|exact Hc0].
      intros j _. now rewrite !vis_nth, Hv.
Qed.

End ElementsFacts.

Lemma eager_view_connectivity_witness :
  let self := Elements.__init__ two_node_tree in
  let root := fst (Elements.build Config.DISPLAY_DEPTH two_node_tree
                     None 0 0) in
  Elements.connected_view (Elements.elements self) root /\
  exists self',
    Elements.reset self = Ok self' /\
    Elements.connected_view (Elements.elements self') root.
Proof.
  intros self root.
  destruct (eager_view_connectivity 0
              (Some (0, 1))
              (Elements.Node 1 None Elements.NoNode Elements.NoNode)
              Elements.NoNode) as [Hinit Hops].
  split; [exact Hinit|].
  destruct (Hops (Elements.elements self) eq_refl Hinit)
    as (_ & _ & Hreset & _).
  destruct (Hreset eq_refl eq_refl eq_refl) as (self' & E & Hc & _).
  exists self'. split; [exact E | exact Hc].
Defined.

(** C9, counterexample. On the view of a comparison node with one leaf,
    whose dicts are the root node, the edge and the leaf node, the state
    string "001" hides the root and shows the leaf: a visible node whose
    parent is hidden. *)
Lemma set_visiblity_forged_disconnects :
  let self := Elements.__init__ two_node_tree in
  let root := fst (Elements.build Config.DISPLAY_DEPTH two_node_tree
                     None 0 0) in
  Elements.connected_view (Elements.elements self) root /\
  map Elements.visibility
      (Elements.set_visiblity (Elements.elements self) forged_visiblity)
    = [false; false; true] /\
  ~ Elements.connected_view
      (Elements.set_visiblity (Elements.elements self) forged_visiblity) root.
Proof.
  cbv zeta. split; [|split].
  - vm_compute. repeat split; congruence.
  - reflexivity.
  - vm_compute. intros (H & _). specialize (H eq_refl). discriminate.
Qed.

(** [set_child_visible] on a hidden node whose parent is hidden shows the
    node and leaves the parent hidden. *)
Lemma set_child_visible_hidden_node_disconnects :
  let self := Elements.__init__ two_node_tree in
  let root := fst (Elements.build Config.DISPLAY_DEPTH two_node_tree
                     None 0 0) in
  let all_off := Elements.set_visiblity (Elements.elements self)
                   (String.String "0" (String.String "0"
                      (String.String "0" String.EmptyString))) in
  Elements.connected_view all_off root /\
  ~ Elements.connected_view
      (Elements.set_child_visible
         (Elements.ElemNode 2 (Some 1%nat) Elements.NoElement
            Elements.NoElement) all_off) root.
Proof.
  cbv zeta. split.
  - vm_compute. repeat split; congruence.
  - vm_compute. intros (H & _). specialize (H eq_refl). discriminate.
Qed.


(** * Further properties of Nodes.py *)

Section VisibilityFacts.

Variable nodes : list DecisionTreeNode.
Hypothesis Hwf : wf_tree nodes = true.

Lemma below_ancestor (k v : nat) (x : Z) :
  (v < length nodes)%nat ->
  In x (map Z.of_nat (below nodes k [v])) <->
  exists j, (1 <= j <= k)%nat /\ ancestor nodes j x = Some (Z.of_nat v).
Proof.
  intros Hv. split.
  - intros Hx. apply in_map_iff in Hx. destruct Hx as [u [<- Hu]].
    apply (below_level nodes) in Hu. destruct Hu as [j [Hj Hu]].
    apply (level_ancestor nodes Hwf) in Hu; [|exact Hv].
    exists j. split; [exact Hj | apply Hu].
  - intros [j [Hj E]].
    assert (exists u, x = Z.of_nat u /\ (u < length nodes)%nat)
      as [u [-> Hu]].
    { destruct j as [|j]; [lia|]. simpl in E.
      destruct (parent_of nodes x) as [p|] eqn:Ep; [|discriminate].
      apply (parent_of_inv nodes Hwf) in Ep.
      destruct Ep as (u & _ & -> & _ & Hu & _). now exists u. }
    apply in_map. apply (below_level nodes). exists j. split; [exact Hj|].
    apply (level_ancestor nodes Hwf); [exact Hv|]. split; assumption.
Qed.

(** What [hide_children] collects is exactly the visible part of the
    subtree below the node. *)
Lemma hidden_closed_descendants (state : list Z) (v : nat) (hs : list nat) :
  connected nodes state -> hidden_closed nodes state v hs ->
  forall x, In x state ->
    (In x (map Z.of_nat hs) <-> descendant nodes (Z.of_nat v) x).
Proof.
  intros Hc [H1 H2] x Hx. split.
  - intros Hin. apply in_map_iff in Hin. destruct Hin as [h [<- Hh]].
    clear Hx. revert Hh.
    induction h as [h IH] using (well_founded_induction lt_wf). intros Hh.
    destruct (H1 h Hh) as [_ (p & Hp & Hk & Hpin)].
    pose proof (parent_of_kid nodes Hwf p h Hp Hk) as Ep.
    destruct Hpin as [<-|Hpin].
    + exists 1%nat. split; [lia|]. simpl. now rewrite Ep.
    + destruct (kids_inv nodes Hwf p h Hp Hk) as (Hlt & _ & _).
      destruct (IH p Hlt Hpin) as [j [Hj E]].
      exists (S j). split; [lia|]. simpl. now rewrite Ep.
  - intros [j [Hj E]]. revert x Hx E.
    induction j as [|j IH]; [lia|]. intros x Hx E. simpl in E.
    destruct (parent_of nodes x) as [p|] eqn:Ep; [|discriminate].
    pose proof Ep as Ep'. apply (parent_of_inv nodes Hwf) in Ep'.
    destruct Ep' as (u & q & -> & -> & Hu & Hqu & Hk).
    apply in_map. destruct j as [|j].
    + simpl in E. injection E as E. apply Nat2Z.inj in E. subst q.
      apply (H2 v u); [now left | exact Hk | exact Hx].
    + assert (In (Z.of_nat q) state) as Hq.
      { destruct (Hc (Z.of_nat u) Hx) as [p' [Ep' Hin]]; [lia|].
        rewrite Ep in Ep'. now injection Ep' as <-. }
      assert (In (Z.of_nat q) (map Z.of_nat hs)) as Hqh
        by (apply IH; [lia | exact Hq | exact E]).
      apply in_map_iff in Hqh. destruct Hqh as [q' [Eq Hq']].
      apply Nat2Z.inj in Eq. subst q'.
      apply (H2 q u); [now right | exact Hk | exact Hx].
Qed.

(** X1. Collapsing a node removes from a valid state exactly the ids that
    lie below it, and leaves a valid state. *)
Theorem hide_children_removes_descendants
  (state : list Z) (node : DecisionTreeNode) :
  valid_state nodes state -> In node nodes ->
  exists s',
    Nodes.hide_children nodes node state = Ok s' /\
    valid_state nodes s' /\
    forall x, In x s' <-> In x state /\ ~ descendant nodes (id node) x.
Proof.
  intros Hs Hin. apply In_node_at in Hin. destruct Hin as [v [Hv ->]].
  destruct (hide_children_eq nodes Hwf state v Hv (vs_ascending _ _ Hs))
    as [hs [E Hcl]].
  eexists. split; [exact E|]. split; [now apply (hide_valid nodes Hwf _ v)|].
  intros x. rewrite (id_node_at nodes Hwf v Hv).
  rewrite np_delete_searchsorted;
    [|apply Hs | now apply (hidden_closed_members nodes state v)].
  split; intros [Hx Hn]; (split; [exact Hx|]); intros H; apply Hn;
    now apply (hidden_closed_descendants state v hs (vs_connected _ _ Hs) Hcl).
Qed.

(** X2. Expanding a node adds to the state exactly the ids that lie at most
    [DISPLAY_DEPTH] levels below it; nothing is removed. *)
Theorem expand_children_adds_descendants
  (state : list Z) (node : DecisionTreeNode) :
  In node nodes ->
  exists s',
    Nodes.expand_children nodes node state = Ok s' /\
    forall x, In x s' <->
      In x state \/
      exists j, 1 <= Z.of_nat j <= Config.DISPLAY_DEPTH /\
                ancestor nodes j x = Some (id node).
Proof.
  intros Hin. apply In_node_at in Hin. destruct Hin as [v [Hv ->]].
  unfold Nodes.expand_children.
  rewrite (expand_subtree_eq nodes Hwf _ v state Hv).
  eexists. split; [reflexivity|]. intros x.
  rewrite merge_In, (below_ancestor _ v x Hv), (id_node_at nodes Hwf v Hv).
  unfold Config.DISPLAY_DEPTH.
  split; (intros [H|[j [Hj E]]]; [now left|]); right; exists j;
    (split; [lia | exact E]).
Qed.

(** X3. Expanding a node of an ascending state a second time changes
    nothing. *)
Theorem expand_children_idempotent
  (state : list Z) (node : DecisionTreeNode) :
  ascending state -> In node nodes ->
  exists s',
    Nodes.expand_children nodes node state = Ok s' /\
    Nodes.expand_children nodes node s' = Ok s'.
Proof.
  intros Ha Hin. apply In_node_at in Hin. destruct Hin as [v [Hv ->]].
  unfold Nodes.expand_children.
  rewrite (expand_subtree_eq nodes Hwf _ v state Hv).
  eexists. split; [reflexivity|].
  rewrite (expand_subtree_eq nodes Hwf _ v _ Hv). f_equal.
  set (U := map Z.of_nat (below nodes _ [v])).
  assert (ascending U) as HU.
  { apply ascending_map_of_nat. apply (below_sorted nodes Hwf).
    now apply bfs_block_single. }
  apply ascending_ext.
  - apply merge_ascending; [now apply merge_ascending | exact HU].
  - now apply merge_ascending.
  - intros x. rewrite !merge_In. tauto.
Qed.

(** X4. A tap on a visible inner node none of whose children is visible
    expands it, and a second tap on the same node collapses it again: the
    state is back where it started. *)
Theorem on_tap_node_twice_restores (state : list Z) (node_id : Z) :
  valid_state nodes state -> In node_id state ->
  (forall node, getitem nodes node_id = Ok node ->
     child_nodes nodes node <> [] /\
     forall child, In child (child_nodes nodes node) ->
                   ~ In (id child) state) ->
  exists expanded,
    Nodes.on_tap_node nodes node_id state = Ok expanded /\
    expanded <> state /\
    Nodes.on_tap_node nodes node_id expanded = Ok state.
Proof.
  intros Hs Hin Hnode.
  destruct (on_tap_node_visible nodes Hwf state node_id Hs Hin) as [Eg E].
  destruct (Hnode _ Eg) as [Hinner Hhid].
  pose proof (valid_state_member nodes Hwf state node_id Hs Hin) as Hr.
  set (v := Z.to_nat node_id) in *.
  assert (v < length nodes)%nat as Hv by (unfold len in Hr; lia).
  assert (node_id = Z.of_nat v) as Ev by lia.
  (* first tap: some child is hidden, so the node is expanded *)
  assert (Nodes.node_is_leaf nodes (node_at nodes v) = false) as Hleaf.
  { destruct (Nodes.node_is_leaf nodes (node_at nodes v)) eqn:El;
      [|reflexivity].
    apply node_is_leaf_child_nodes in El. contradiction. }
  assert (exists child, In child (child_nodes nodes (node_at nodes v)))
    as [c0 Hc0].
  { destruct (child_nodes nodes (node_at nodes v)) as [|c cs];
      [contradiction | exists c; now left]. }
  rewrite E, Hleaf.
  assert (Nodes.node_has_hidden_child nodes state (node_at nodes v) = true)
    as ->.
  { apply node_has_hidden_child_true; [apply Hs|]. exists c0. auto. }
  unfold Nodes.expand_children.
  rewrite (expand_subtree_eq nodes Hwf _ v state Hv).
  set (k := Z.to_nat (Z.max 1 Config.DISPLAY_DEPTH)).
  set (expanded := merge state (map Z.of_nat (below nodes k [v]))).
  exists expanded. split; [reflexivity|].
  assert (valid_state nodes expanded) as Hse.
  { apply (expand_valid nodes Hwf); [exact Hv | exact Hs | now rewrite <- Ev]. }
  assert (forall child, In child (child_nodes nodes (node_at nodes v)) ->
                        In (id child) expanded) as Hall.
  { intros c Hc. rewrite (child_nodes_node_at nodes Hwf v Hv) in Hc.
    apply in_map_iff in Hc. destruct Hc as [u [<- Hu]].
    rewrite (id_node_at nodes Hwf u)
      by (now destruct (kids_inv nodes Hwf v u Hv Hu) as (_ & ? & _)).
    apply merge_In. right. apply in_map. apply (below_level nodes).
    exists 1%nat. split; [unfold k, Config.DISPLAY_DEPTH; lia|].
    simpl. now rewrite app_nil_r. }
  split.
  { intros Heq. apply (Hhid c0 Hc0). rewrite <- Heq. now apply Hall. }
  (* second tap: every child is visible, so the node is collapsed *)
  assert (In node_id expanded) as Hin' by (apply merge_In; now left).
  destruct (on_tap_node_visible nodes Hwf expanded node_id Hse Hin')
    as [_ E'].
  fold v in E'. rewrite E', Hleaf.
  assert (Nodes.node_has_hidden_child nodes expanded (node_at nodes v)
          = false) as ->.
  { apply node_has_hidden_child_false; [apply Hse | exact Hall]. }
  destruct (hide_children_eq nodes Hwf expanded v Hv (vs_ascending _ _ Hse))
    as [hs [Eh Hcl]].
  rewrite Eh. f_equal.
  apply (expand_then_hide nodes Hwf k v state hs Hv Hs); [|exact Hcl].
  intros c Hc Hcin. apply (Hhid (node_at nodes c)).
  - rewrite (child_nodes_node_at nodes Hwf v Hv). now apply in_map.
  - rewrite id_node_at; try assumption.
    now destruct (kids_inv nodes Hwf v c Hv Hc) as (_ & ? & _).
Qed.

End VisibilityFacts.

(** *** on_tap_node *)

(** C4. On a valid state, [on_tap_node] returns for every id and never
    raises. It leaves the state unchanged when the id is at or beyond the
    node count or is not a member, and when the node is a leaf. For a
    visible inner node with a child that is not a member it is
    [expand_children]: the ids between 1 and [DISPLAY_DEPTH] levels below
    the node are added, so that every child is a member afterwards, and
    nothing is removed. For a visible inner node all of whose children are
    members it is [hide_children]: exactly the ids below the node are
    removed, so that no child is a member afterwards. In both cases the
    state changes and stays valid. *)
Theorem on_tap_node_spec
  (nodes : list DecisionTreeNode) (state : list Z) (node_id : Z) :
  wf_tree nodes = true -> valid_state nodes state ->
  (exists s', Nodes.on_tap_node nodes node_id state = Ok s') /\
  (len nodes <= node_id \/ ~ In node_id state ->
   Nodes.on_tap_node nodes node_id state = Ok state) /\
  (In node_id state ->
   exists node,
     getitem nodes node_id = Ok node /\ id node = node_id /\
     (child_nodes nodes node = [] ->
      Nodes.on_tap_node nodes node_id state = Ok state) /\
     (child_nodes nodes node <> [] ->
      (exists child, In child (child_nodes nodes node) /\
                     ~ In (id child) state) ->
      Nodes.on_tap_node nodes node_id state =
      Nodes.expand_children nodes node state /\
      exists s',
        Nodes.on_tap_node nodes node_id state = Ok s' /\
        valid_state nodes s' /\
        (forall x, In x s' <->
           In x state \/
           exists j, 1 <= Z.of_nat j <= Config.DISPLAY_DEPTH /\
                     ancestor nodes j x = Some node_id) /\
        (forall child, In child (child_nodes nodes node) ->
                       In (id child) s') /\
        s' <> state) /\
     (child_nodes nodes node <> [] ->
      (forall child, In child (child_nodes nodes node) ->
                     In (id child) state) ->
      Nodes.on_tap_node nodes node_id state =
      Nodes.hide_children nodes node state /\
      exists s',
        Nodes.on_tap_node nodes node_id state = Ok s' /\
        valid_state nodes s' /\
        (forall x, In x s' <->
           In x state /\ ~ descendant nodes node_id x) /\
        (forall child, In child (child_nodes nodes node) ->
                       ~ In (id child) s') /\
        s' <> state)).
Proof.
  intros Hwf Hs. split; [|split].
  - destruct (on_tap_node_valid nodes Hwf state node_id Hs) as [s' [E _]].
    now exists s'.
  - apply on_tap_node_hidden. apply Hs.
  - intros Hin.
    destruct (on_tap_node_visible nodes Hwf state node_id Hs Hin) as [Eg E].
    pose proof (valid_state_member nodes Hwf state node_id Hs Hin) as Hr.
    set (v := Z.to_nat node_id) in *.
    assert (v < length nodes)%nat as Hv by (unfold len in Hr; lia).
    assert (node_id = Z.of_nat v) as Ev by lia.
    exists (node_at nodes v). split; [exact Eg|].
    split; [rewrite id_node_at; [lia | exact Hwf | exact Hv]|].
    rewrite E. split; [|split].
    + intros Hleaf. apply node_is_leaf_child_nodes in Hleaf.
      now rewrite Hleaf.
    + intros Hinner Hhid.
      assert (Nodes.node_is_leaf nodes (node_at nodes v) = false) as ->.
      { destruct (Nodes.node_is_leaf nodes _) eqn:El; [|reflexivity].
        apply node_is_leaf_child_nodes in El. contradiction. }
      pose proof Hhid as Hhid'.
      apply (node_has_hidden_child_true nodes state _ (vs_ascending _ _ Hs))
        in Hhid'. rewrite Hhid'.
      split; [reflexivity|].
      unfold Nodes.expand_children.
      rewrite (expand_subtree_eq nodes Hwf _ v state Hv).
      set (k := Z.to_nat (Z.max 1 Config.DISPLAY_DEPTH)).
      set (s' := merge state (map Z.of_nat (below nodes k [v]))).
      assert (forall child, In child (child_nodes nodes (node_at nodes v)) ->
                            In (id child) s') as Hall.
      { intros c Hc. rewrite (child_nodes_node_at nodes Hwf v Hv) in Hc.
        apply in_map_iff in Hc. destruct Hc as [u [<- Hu]].
        rewrite (id_node_at nodes Hwf u)
          by (now destruct (kids_inv nodes Hwf v u Hv Hu) as (_ & ? & _)).
        apply merge_In. right. apply in_map. apply (below_level nodes).
        exists 1%nat. split; [unfold k, Config.DISPLAY_DEPTH; lia|].
        simpl. now rewrite app_nil_r. }
      exists s'. split; [reflexivity|]. split; [|split; [|split]].
      * apply (expand_valid nodes Hwf); [exact Hv | exact Hs|].
        now rewrite <- Ev.
      * intros x. unfold s'.
        rewrite merge_In, (below_ancestor nodes Hwf k v x Hv), Ev.
        unfold k, Config.DISPLAY_DEPTH.
        split; (intros [H|[j [Hj Ea]]]; [now left|]); right; exists j;
          (split; [lia | exact Ea]).
      * exact Hall.
      * destruct Hhid as [c [Hc Hnot]]. intros Heq. apply Hnot.
        rewrite <- Heq. now apply Hall.
    + intros Hinner Hall.
      assert (Nodes.node_is_leaf nodes (node_at nodes v) = false) as ->.
      { destruct (Nodes.node_is_leaf nodes _) eqn:El; [|reflexivity].
        apply node_is_leaf_child_nodes in El. contradiction. }
      pose proof Hall as Hall'.
      apply (node_has_hidden_child_false nodes state _
               (vs_ascending _ _ Hs)) in Hall'. rewrite Hall'.
      split; [reflexivity|].
      destruct (hide_children_eq nodes Hwf state v Hv (vs_ascending _ _ Hs))
        as [hs [Eh Hcl]].
      rewrite Eh.
      set (s' := np_delete state
                   (map (searchsorted state) (map Z.of_nat hs))).
      assert (forall x, In x s' <->
                        In x state /\ ~ descendant nodes node_id x) as Hmem.
      { intros x. unfold s'. rewrite Ev.
        rewrite np_delete_searchsorted;
          [|apply Hs | now apply (hidden_closed_members nodes state v)].
        split; intros [Hx Hn]; (split; [exact Hx|]); intros H; apply Hn;
          now apply (hidden_closed_descendants nodes Hwf state v hs
                       (vs_connected _ _ Hs) Hcl). }
      assert (forall child, In child (child_nodes nodes (node_at nodes v)) ->
                            ~ In (id child) s') as Hgone.
      { intros c Hc Hcin. apply Hmem in Hcin. destruct Hcin as [_ Hnot].
        apply Hnot.
        rewrite (child_nodes_node_at nodes Hwf v Hv) in Hc.
        apply in_map_iff in Hc. destruct Hc as [u [<- Hu]].
        rewrite (id_node_at nodes Hwf u)
          by (now destruct (kids_inv nodes Hwf v u Hv Hu) as (_ & ? & _)).
        exists 1%nat. split; [lia|]. cbn [ancestor].
        rewrite (parent_of_kid nodes Hwf v u Hv Hu). now rewrite Ev. }
      exists s'. split; [reflexivity|]. split; [|split; [|split]].
      * now apply (hide_valid nodes Hwf _ v).
      * exact Hmem.
      * exact Hgone.
      * intros Heq.
        destruct (child_nodes nodes (node_at nodes v)) as [|c cs] eqn:Ec;
          [contradiction|].
        apply (Hgone c (or_introl eq_refl)). rewrite Heq.
        apply Hall. now left.
Qed.

Lemma on_tap_node_spec_witness :
  Nodes.on_tap_node scenario_tree 7 [0; 1; 2] = Ok [0; 1; 2] /\
  (exists expanded,
     Nodes.on_tap_node scenario_tree 2 [0; 1; 2] = Ok expanded /\
     In 3 expanded /\ expanded <> [0; 1; 2]) /\
  (exists collapsed,
     Nodes.on_tap_node scenario_tree 0 [0; 1; 2] = Ok collapsed /\
     ~ In 1 collapsed /\ ~ In 2 collapsed /\ collapsed <> [0; 1; 2]).
Proof.
  assert (valid_state scenario_tree [0; 1; 2]) as Hs
    by (apply valid_stateb_ok; reflexivity).
  split; [|split].
  - destruct (on_tap_node_spec scenario_tree [0; 1; 2] 7 eq_refl Hs)
      as (_ & Hnoop & _).
    apply Hnoop. left. unfold len. simpl. lia.
  - destruct (on_tap_node_spec scenario_tree [0; 1; 2] 2 eq_refl Hs)
      as (_ & _ & Htap).
    destruct Htap as (node & Eg & _ & _ & Hexp & _); [simpl; auto|].
    vm_compute in Eg. injection Eg as <-.
    destruct Hexp as (_ & s' & E & _ & _ & Hch & Hne).
    + discriminate.
    + eexists. split; [left; reflexivity|]. simpl. intuition discriminate.
    + exists s'. split; [exact E|]. split; [|exact Hne].
      apply (Hch (leaf_node 3 2)). simpl. auto.
  - destruct (on_tap_node_spec scenario_tree [0; 1; 2] 0 eq_refl Hs)
      as (_ & _ & Htap).
    destruct Htap as (node & Eg & _ & _ & _ & Hcol); [simpl; auto|].
    vm_compute in Eg. injection Eg as <-.
    destruct Hcol as (_ & s' & E & _ & _ & Hch & Hne).
    + discriminate.
    + intros child [<-|[<-|[]]]; simpl; auto.
    + exists s'. split; [exact E|]. split; [|split; [|exact Hne]].
      * apply (Hch (leaf_node 1 0)). simpl. auto.
      * apply (Hch (mkNode 2 (Some 0) (Some 3%nat) None)). simpl. auto.
Defined.

Lemma hide_children_removes_descendants_witness :
  exists s',
    Nodes.hide_children five_node_tree (node_at five_node_tree 1)
      [0; 1; 2; 3; 4] = Ok s' /\
    valid_state five_node_tree s' /\
    forall x, In x s' <->
      In x [0; 1; 2; 3; 4] /\
      ~ descendant five_node_tree (id (node_at five_node_tree 1)) x.
Proof.
  apply (hide_children_removes_descendants five_node_tree eq_refl
           [0; 1; 2; 3; 4] (node_at five_node_tree 1)).
  - apply valid_stateb_ok. reflexivity.
  - simpl. auto.
Defined.

Lemma expand_children_adds_descendants_witness :
  exists s',
    Nodes.expand_children five_node_tree (node_at five_node_tree 2) [0]
      = Ok s' /\
    forall x, In x s' <->
      In x [0] \/
      exists j, 1 <= Z.of_nat j <= Config.DISPLAY_DEPTH /\
                ancestor five_node_tree j x
                = Some (id (node_at five_node_tree 2)).
Proof.
  apply (expand_children_adds_descendants five_node_tree eq_refl
           [0] (node_at five_node_tree 2)).
  simpl. auto.
Defined.

Lemma expand_children_idempotent_witness :
  exists s',
    Nodes.expand_children five_node_tree (node_at five_node_tree 1) [0; 1]
      = Ok s' /\
    Nodes.expand_children five_node_tree (node_at five_node_tree 1) s'
      = Ok s'.
Proof.
  apply (expand_children_idempotent five_node_tree eq_refl
           [0; 1] (node_at five_node_tree 1)).
  - apply ascendingb_ok. reflexivity.
  - simpl. auto.
Defined.

Lemma on_tap_node_twice_restores_witness :
  exists expanded,
    Nodes.on_tap_node five_node_tree 1 [0; 1; 2] = Ok expanded /\
    expanded <> [0; 1; 2] /\
    Nodes.on_tap_node five_node_tree 1 expanded = Ok [0; 1; 2].
Proof.
  apply (on_tap_node_twice_restores five_node_tree eq_refl [0; 1; 2] 1).
  - apply valid_stateb_ok. reflexivity.
  - simpl. auto.
  - intros node E. vm_compute in E. injection E as <-. split.
    + discriminate.
    + intros child [<-|[]] [H|[H|[H|[]]]]; discriminate.
Defined.

(** ** Validation of restored arrays *)

Lemma sublist_In {A : Type} (s l : list A) :
  sublist s l -> forall x, In x s -> In x l.
Proof.
  induction 1 as [|y s l _ IH|y s l _ IH]; intros x Hx.
  - exact Hx.
  - right. now apply IH.
  - destruct Hx as [<-|Hx]; [now left | right; now apply IH].
Qed.

Lemma sublist_length {A : Type} (s l : list A) :
  sublist s l -> (length s <= length l)%nat.
Proof. induction 1; simpl; lia. Qed.

Lemma in_range_prefix_In (nodes : list DecisionTreeNode) (l : list Z) :
  forall x, In x (in_range_prefix nodes l) -> In x l /\ x < len nodes.
Proof.
  induction l as [|y l IH]; intros x Hx; [destruct Hx|].
  cbn [in_range_prefix] in Hx.
  destruct (Z.leb_spec (len nodes) y) as [Hge|Hlt]; [destruct Hx|].
  destruct Hx as [<-|Hx].
  - split; [now left | exact Hlt].
  - destruct (IH x Hx). split; [now right | assumption].
Qed.

Lemma in_range_prefix_length (nodes : list DecisionTreeNode) (l : list Z) :
  (length (in_range_prefix nodes l) <= length l)%nat.
Proof.
  induction l as [|y l IH]; [simpl; lia|]. cbn [in_range_prefix].
  destruct (len nodes <=? y); simpl; lia.
Qed.

Lemma validate_loop_kept (nodes : list DecisionTreeNode) (l : list Z) :
  forall valid in_valid s,
  Nodes.validate_loop nodes l valid in_valid = Ok s ->
  exists kept, s = valid ++ kept /\ sublist kept (in_range_prefix nodes l).
Proof.
  induction l as [|x rest IH]; intros valid in_valid s E.
  - injection E as <-. exists []. rewrite app_nil_r. split; constructor.
  - cbn [Nodes.validate_loop in_range_prefix] in *.
    destruct (len nodes <=? x).
    + injection E as <-. exists []. rewrite app_nil_r. split; constructor.
    + destruct (getitem nodes x) as [node|e|]; cbn [bind] in E;
        try discriminate.
      destruct (parent node) as [p|]; [|discriminate].
      destruct (mem p in_valid).
      * apply IH in E. destruct E as [kept [-> Hsub]].
        exists (x :: kept). rewrite <- app_assoc. split; [reflexivity|].
        now apply sublist_keep.
      * apply IH in E. destruct E as [kept [-> Hsub]].
        exists kept. split; [reflexivity|]. now apply sublist_skip.
Qed.

(** X5. Whatever array is handed in and whatever the tree, an array that
    [_validate_visiblity_state] returns starts with the root id 0 and goes
    on with ids taken, in their order, from the input's second element
    onward, all of them below the node count; it is never longer than the
    input unless the input is empty. *)
Theorem validate_result_shape
  (nodes : list DecisionTreeNode) (raw s : list Z) :
  Nodes._validate_visiblity_state nodes raw = Ok s ->
  exists kept,
    s = 0 :: kept /\
    sublist kept (in_range_prefix nodes (tl raw)) /\
    (forall x, In x kept -> In x (tl raw) /\ x < len nodes) /\
    (length s <= Nat.max 1 (length raw))%nat.
Proof.
  unfold Nodes._validate_visiblity_state. intros E.
  apply validate_loop_kept in E. destruct E as [kept [-> Hsub]].
  exists kept. split; [reflexivity|]. split; [exact Hsub|]. split.
  - intros x Hx. apply in_range_prefix_In. now apply (sublist_In kept).
  - apply sublist_length in Hsub.
    pose proof (in_range_prefix_length nodes (tl raw)).
    destruct raw; simpl in *; lia.
Qed.

Lemma validate_result_shape_witness :
  exists kept,
    [0; 2] = 0 :: kept /\
    sublist kept (in_range_prefix scenario_tree (tl [5; 3; 2; 9; 1])) /\
    (forall x, In x kept ->
       In x (tl [5; 3; 2; 9; 1]) /\ x < len scenario_tree) /\
    (length [0; 2] <= Nat.max 1 (length [5; 3; 2; 9; 1]))%nat.
Proof.
  apply (validate_result_shape scenario_tree [5; 3; 2; 9; 1] [0; 2]).
  reflexivity.
Defined.

Lemma validate_loop_truncates (nodes : list DecisionTreeNode)
  (x : Z) (b : list Z) :
  len nodes <= x ->
  forall a valid in_valid,
  Nodes.validate_loop nodes (a ++ x :: b) valid in_valid =
  Nodes.validate_loop nodes a valid in_valid.
Proof.
  intros Hx. induction a as [|y a IH]; intros valid in_valid.
  - cbn [app Nodes.validate_loop].
    destruct (Z.leb_spec (len nodes) x); [reflexivity | lia].
  - cbn [app Nodes.validate_loop].
    destruct (len nodes <=? y); [reflexivity|].
    destruct (getitem nodes y) as [node|e|]; cbn [bind]; try reflexivity.
    destruct (parent node) as [p|]; [|reflexivity].
    destruct (mem p in_valid); apply IH.
Qed.

(** X6. Validation stops at the first id at or beyond the node count:
    whatever follows such an id, in range or not, has no effect on the
    outcome. *)
Theorem validate_ignores_after_out_of_range
  (nodes : list DecisionTreeNode) (first x : Z) (before after : list Z) :
  len nodes <= x ->
  Nodes._validate_visiblity_state nodes (first :: before ++ x :: after) =
  Nodes._validate_visiblity_state nodes (first :: before).
Proof.
  intros Hx. unfold Nodes._validate_visiblity_state. cbn [tl].
  now apply validate_loop_truncates.
Qed.

Lemma validate_ignores_after_out_of_range_witness :
  Nodes._validate_visiblity_state scenario_tree (0 :: [1] ++ 4 :: [2; 3]) =
  Nodes._validate_visiblity_state scenario_tree (0 :: [1]).
Proof.
  apply (validate_ignores_after_out_of_range scenario_tree 0 4 [1] [2; 3]).
  unfold len. simpl. lia.
Defined.

Lemma validate_spec_loop_parents_first (nodes : list DecisionTreeNode)
  (kept : list Z) :
  forall accepted,
  parents_first nodes accepted kept ->
  (forall x, In x kept -> x < len nodes) ->
  validate_spec_loop nodes kept accepted = accepted ++ kept.
Proof.
  induction kept as [|x kept IH]; intros accepted Hpf Hr.
  - cbn. now rewrite app_nil_r.
  - cbn [validate_spec_loop]. destruct Hpf as [[p [Ep Hp]] Hpf].
    destruct (Z.leb_spec (len nodes) x) as [Hge|_].
    { specialize (Hr x (or_introl eq_refl)). lia. }
    rewrite Ep. apply mem_In in Hp. rewrite Hp.
    rewrite IH; [|exact Hpf | intros y Hy; apply Hr; now right].
    now rewrite <- app_assoc.
Qed.

(** X7. Validation is idempotent: on a well-formed tree, an array whose
    elements after the first are positive is validated to some array, and
    validating that array again returns it unchanged. *)
Theorem validate_idempotent (nodes : list DecisionTreeNode) (raw : list Z) :
  wf_tree nodes = true ->
  Forall (fun x => 0 < x) (tl raw) ->
  exists s,
    Nodes._validate_visiblity_state nodes raw = Ok s /\
    Nodes._validate_visiblity_state nodes s = Ok s.
Proof.
  intros Hwf Hpos. unfold Nodes._validate_visiblity_state.
  rewrite (validate_loop_refines nodes Hwf (tl raw) [0] [0] Hpos)
    by tauto.
  destruct (validate_spec_loop_largest nodes (tl raw) [0])
    as (kept & E & Hsub & Hpf & _).
  rewrite E. eexists. split; [reflexivity|]. cbn [app tl].
  assert (forall x, In x kept -> In x (tl raw) /\ x < len nodes) as Hk.
  { intros x Hx. apply in_range_prefix_In. now apply (sublist_In kept). }
  rewrite (validate_loop_refines nodes Hwf kept [0] [0]); [|  | tauto].
  - f_equal. apply validate_spec_loop_parents_first; [exact Hpf|].
    intros x Hx. now apply Hk.
  - apply Forall_forall. intros x Hx.
    rewrite Forall_forall in Hpos. apply Hpos. now apply Hk.
Qed.

Lemma validate_idempotent_witness :
  exists s,
    Nodes._validate_visiblity_state five_node_tree [0; 4; 2; 2; 3; 1; 7; 3]
      = Ok s /\
    Nodes._validate_visiblity_state five_node_tree s = Ok s.
Proof.
  apply (validate_idempotent five_node_tree [0; 4; 2; 2; 3; 1; 7; 3]
           eq_refl).
  simpl. repeat constructor.
Defined.

(** * Further properties of the handle *)

Lemma progress_pack_unpack (i total : Z) :
  0 <= total < 2 ^ 32 ->
  Z.shiftr (Z.lor (Z.shiftl i 32) total) 32 = i /\
  Z.land (Z.lor (Z.shiftl i 32) total) 4294967295 = total.
Proof.
  intros Ht. split.
  - rewrite Z.shiftr_lor, Z.shiftr_shiftl_l by lia.
    rewrite Z.sub_diag, Z.shiftl_0_r, Z.shiftr_div_pow2 by lia.
    rewrite Z.div_small by lia. apply Z.lor_0_r.
  - change 4294967295 with (Z.ones 32).
    rewrite Z.land_lor_distr_l, !Z.land_ones by lia.
    rewrite Z.shiftl_mul_pow2, Z_mod_mult by lia.
    rewrite Z.mod_small by lia. reflexivity.
Qed.

Lemma progress_pack_range (i total : Z) :
  0 <= i < 2 ^ 31 -> 0 <= total < 2 ^ 32 ->
  0 <= Z.lor (Z.shiftl i 32) total < 2 ^ 63.
Proof.
  intros Hi Ht. destruct (progress_pack_unpack i total Ht) as [E1 E2].
  set (x := Z.lor (Z.shiftl i 32) total) in *.
  rewrite Z.shiftr_div_pow2 in E1 by lia.
  change 4294967295 with (Z.ones 32) in E2.
  rewrite Z.land_ones in E2 by lia.
  pose proof (Z.div_mod x (2 ^ 32)). lia.
Qed.

Section HandleFacts.

Variable CmpAlgorithm : Type.
Variable cmp_algorithms : list CmpAlgorithm.
Variable idx_use_letter_of : CmpAlgorithm -> Z -> bool.
Variable Exception : Type.
Variable IndexError : Exception.

Let holder : Type := NodeHolder.t CmpAlgorithm Exception.
Let generator : Type := CmpAlgorithm -> Z -> NodeHolder.generation Exception.
Let initialize :=
  NodeHolder.initialize cmp_algorithms idx_use_letter_of IndexError.

(** X8. The progress word round-trips: for a count below [2^31] and a total
    below [2^32] the packed word fits the signed 8-byte cell, and
    [get_progress] after [set_progress] returns the pair that was stored. *)
Theorem get_progress_set_progress (h : holder) (i total : Z) :
  0 <= i < 2 ^ 31 -> 0 <= total < 2 ^ 32 ->
  let h' := NodeHolder.set_progress i total h in
  NodeHolder.get_progress h' = (i, total) /\
  0 <= NodeHolder.progress h' < 2 ^ 63.
Proof.
  intros Hi Ht h'. split.
  - unfold NodeHolder.get_progress. cbn [h' NodeHolder.set_progress
      NodeHolder.with_progress NodeHolder.progress].
    destruct (progress_pack_unpack i total Ht) as [-> ->]. reflexivity.
  - now apply progress_pack_range.
Qed.

Lemma fold_progress_last (calls : list (Z * Z)) (i total : Z) (h : holder) :
  NodeHolder.progress
    (fold_left
       (fun h call =>
          NodeHolder.set_progress_and_yield (fst call) (snd call) h)
       (calls ++ [(i, total)]) h)
  = Z.lor (Z.shiftl i 32) total.
Proof. rewrite fold_left_app. reflexivity. Qed.

(** X9. Whether the generator returns or raises, after [initialize] the
    handle reports the last progress pair the generator published, and the
    word in the cell fits it, when every pair the generator publishes has
    its count below [2^31] and its total below [2^32]. *)
Theorem initialize_keeps_last_progress
  (decision_tree : generator) (h : holder) (cmp_algorithm_i N : Z)
  (algorithm : CmpAlgorithm) (calls : list (Z * Z)) (i total : Z) :
  NodeHolder.lock h = false ->
  getitem cmp_algorithms cmp_algorithm_i = Ok algorithm ->
  NodeHolder.progress_calls (decision_tree algorithm N)
    = calls ++ [(i, total)] ->
  Forall (fun call => 0 <= fst call < 2 ^ 31 /\ 0 <= snd call < 2 ^ 32)
         (NodeHolder.progress_calls (decision_tree algorithm N)) ->
  let h' := snd (initialize decision_tree cmp_algorithm_i N h) in
  NodeHolder.get_progress h' = (i, total) /\
  0 <= NodeHolder.progress h' < 2 ^ 63.
Proof.
  intros Hlock Halgo Hcalls Hfit h'.
  assert (0 <= i < 2 ^ 31 /\ 0 <= total < 2 ^ 32) as [Hi Ht].
  { rewrite Hcalls in Hfit. rewrite Forall_forall in Hfit.
    apply (Hfit (i, total)). apply in_or_app. right. now left. }
  assert (NodeHolder.progress h' = Z.lor (Z.shiftl i 32) total) as E.
  { unfold h', initialize, NodeHolder.initialize, NodeHolder._initialize.
    rewrite Hlock, Halgo, Hcalls.
    destruct (NodeHolder.gen_result (decision_tree algorithm N)) as [b|e];
      cbn [snd NodeHolder.with_lock NodeHolder.with_initialized_flag
           NodeHolder.with_initialize_scheduled NodeHolder.print
           NodeHolder.with_built NodeHolder.progress];
      apply fold_progress_last. }
  unfold NodeHolder.get_progress. rewrite E. split.
  - destruct (progress_pack_unpack i total Ht) as [-> ->]. reflexivity.
  - now apply progress_pack_range.
Qed.

(** X10. A build that succeeds on a handle that has been claimed completes
    it: the generator's result is stored, the completion flag is 1, the
    lock is free, waiting returns, and the claim stays taken, so that every
    later claim attempt is refused. *)
Theorem successful_build_completes_handle
  (decision_tree : generator) (h : holder) (cmp_algorithm_i N : Z)
  (algorithm : CmpAlgorithm) (b : NodeHolder.built) :
  NodeHolder.lock h = false ->
  getitem cmp_algorithms cmp_algorithm_i = Ok algorithm ->
  NodeHolder.gen_result (decision_tree algorithm N) = inl b ->
  let claimed := snd (NodeHolder.get_and_set_initialize_scheduled h) in
  let h' := snd (initialize decision_tree cmp_algorithm_i N claimed) in
  fst (initialize decision_tree cmp_algorithm_i N claimed)
    = NodeHolder.Returned tt /\
  NodeHolder.nodes h' = Some (fst (fst b)) /\
  NodeHolder.operation_cnts h' = Some (snd (fst b)) /\
  NodeHolder.leaf_cnt h' = Some (snd b) /\
  NodeHolder.cmp_algorithm h' = Some algorithm /\
  NodeHolder.initialized_flag h' = 1 /\
  NodeHolder.lock h' = false /\
  NodeHolder.wait_until_initialized h' = NodeHolder.Returned tt /\
  fst (NodeHolder.get_and_set_initialize_scheduled h') = true /\
  fst (NodeHolder.get_and_set_initialize_scheduled
         (snd (NodeHolder.get_and_set_initialize_scheduled h'))) = true.
Proof.
  intros Hlock Halgo Hgen claimed h'.
  assert (NodeHolder.lock claimed = false) as Hlock' by exact Hlock.
  subst h'. unfold initialize.
  rewrite (initialize_returns _ cmp_algorithms idx_use_letter_of _ IndexError
             decision_tree claimed cmp_algorithm_i N algorithm b
             Hlock' Halgo Hgen).
  set (d := fold_left _ _ _).
  destruct (fold_progress_fields CmpAlgorithm Exception
              (NodeHolder.progress_calls (decision_tree algorithm N))
              (NodeHolder.print (NodeHolder.Print_init algorithm N)
                 (NodeHolder.with_algorithm algorithm
                    (idx_use_letter_of algorithm N)
                    (NodeHolder.with_lock true claimed))))
    as (_ & H2 & _).
  fold d in H2.
  assert (NodeHolder.cmp_algorithm d = Some algorithm) as Ha.
  { subst d. generalize (NodeHolder.progress_calls (decision_tree algorithm N)).
    intros calls.
    assert (forall (g : holder), NodeHolder.cmp_algorithm g = Some algorithm ->
              NodeHolder.cmp_algorithm
                (fold_left
                   (fun h call =>
                      NodeHolder.set_progress_and_yield (fst call) (snd call) h)
                   calls g) = Some algorithm) as Hf.
    { induction calls as [|c calls IH]; intros g Hg; [exact Hg|].
      simpl. apply IH. exact Hg. }
    apply Hf. reflexivity. }
  cbn [fst snd NodeHolder.with_lock NodeHolder.with_initialized_flag
       NodeHolder.print NodeHolder.with_built NodeHolder.nodes
       NodeHolder.operation_cnts NodeHolder.leaf_cnt NodeHolder.lock
       NodeHolder.initialized_flag NodeHolder.cmp_algorithm
       NodeHolder.get_and_set_initialize_scheduled
       NodeHolder.with_initialize_scheduled
       NodeHolder.initialize_scheduled].
  assert (forall x, Z.testbit (Z.lor x 1) 0 = true) as Hbit.
  { intros x. rewrite Z.lor_spec. apply orb_true_r. }
  repeat (split; [reflexivity || exact Ha|]).
  split; [|apply Hbit].
  rewrite H2. cbn. apply Hbit.
Qed.

(** X11. An algorithm index outside the table makes [initialize] raise
    [IndexError] before the generator is reached; the handle is left exactly
    as it was. The claim flag in particular is not cleared, so a handle that
    was claimed for such a key refuses every later claim and is never
    completed. *)
Theorem initialize_index_error
  (decision_tree : generator) (h : holder) (cmp_algorithm_i N : Z) :
  NodeHolder.lock h = false ->
  cmp_algorithm_i < - len cmp_algorithms \/
  len cmp_algorithms <= cmp_algorithm_i ->
  initialize decision_tree cmp_algorithm_i N h
    = (NodeHolder.Raised IndexError, h) /\
  (fst (NodeHolder.get_and_set_initialize_scheduled h) = true ->
   fst (NodeHolder.get_and_set_initialize_scheduled
          (snd (initialize decision_tree cmp_algorithm_i N h))) = true).
Proof.
  intros Hlock Hrange.
  assert (initialize decision_tree cmp_algorithm_i N h
          = (NodeHolder.Raised IndexError, h)) as E.
  { unfold initialize, NodeHolder.initialize. rewrite Hlock.
    assert (exists e, getitem cmp_algorithms cmp_algorithm_i = Raise e)
      as [e ->].
    { unfold getitem. cbv zeta.
      assert (0 <= len cmp_algorithms) by (unfold len; lia).
      destruct (Z.ltb_spec cmp_algorithm_i 0).
      - destruct (Z.ltb_spec (cmp_algorithm_i + len cmp_algorithms) 0);
          [cbn; eauto | lia].
      - destruct (Z.ltb_spec cmp_algorithm_i 0); [lia|].
        destruct (Z.leb_spec (len cmp_algorithms) cmp_algorithm_i);
          [cbn; eauto | lia]. }
    destruct h; cbn in *; subst; reflexivity. }
  split; [exact E|]. now rewrite E.
Qed.

End HandleFacts.

Lemma get_progress_set_progress_witness :
  NodeHolder.get_progress
    (NodeHolder.set_progress 3 24 (@NodeHolder.__init__ nat nat)) = (3, 24) /\
  0 <= NodeHolder.progress
         (NodeHolder.set_progress 3 24 (@NodeHolder.__init__ nat nat))
    < 2 ^ 63.
Proof.
  apply (get_progress_set_progress nat nat NodeHolder.__init__ 3 24); lia.
Defined.

Lemma initialize_keeps_last_progress_witness :
  let h' := snd (NodeHolder.initialize [7%nat] (fun _ _ => false) 0%nat
                   returning_generator 0 3 NodeHolder.__init__) in
  NodeHolder.get_progress h' = (2, 2) /\
  0 <= NodeHolder.progress h' < 2 ^ 63.
Proof.
  apply (initialize_keeps_last_progress nat [7%nat] (fun _ _ => false)
           nat 0%nat returning_generator NodeHolder.__init__ 0 3 7%nat
           [(1, 2)] 2 2); try reflexivity.
  simpl. repeat constructor; simpl; lia.
Defined.

Lemma successful_build_completes_handle_witness :
  let claimed :=
    snd (NodeHolder.get_and_set_initialize_scheduled
           (@NodeHolder.__init__ nat nat)) in
  let h' := snd (NodeHolder.initialize [7%nat] (fun _ _ => false) 0%nat
                   returning_generator 0 3 claimed) in
  fst (NodeHolder.initialize [7%nat] (fun _ _ => false) 0%nat
         returning_generator 0 3 claimed) = NodeHolder.Returned tt /\
  NodeHolder.nodes h' = Some scenario_tree /\
  NodeHolder.operation_cnts h' = Some [2; 3] /\
  NodeHolder.leaf_cnt h' = Some 3 /\
  NodeHolder.cmp_algorithm h' = Some 7%nat /\
  NodeHolder.initialized_flag h' = 1 /\
  NodeHolder.lock h' = false /\
  NodeHolder.wait_until_initialized h' = NodeHolder.Returned tt /\
  fst (NodeHolder.get_and_set_initialize_scheduled h') = true /\
  fst (NodeHolder.get_and_set_initialize_scheduled
         (snd (NodeHolder.get_and_set_initialize_scheduled h'))) = true.
Proof.
  apply (successful_build_completes_handle nat [7%nat] (fun _ _ => false)
           nat 0%nat returning_generator NodeHolder.__init__ 0 3 7%nat
           (scenario_tree, [2; 3], 3)); reflexivity.
Defined.

Lemma initialize_index_error_witness :
  let claimed :=
    snd (NodeHolder.get_and_set_initialize_scheduled
           (@NodeHolder.__init__ nat nat)) in
  NodeHolder.initialize [7%nat] (fun _ _ => false) 0%nat
    returning_generator 1 3 claimed
    = (NodeHolder.Raised 0%nat, claimed) /\
  (fst (NodeHolder.get_and_set_initialize_scheduled claimed) = true ->
   fst (NodeHolder.get_and_set_initialize_scheduled
          (snd (NodeHolder.initialize [7%nat] (fun _ _ => false) 0%nat
                  returning_generator 1 3 claimed))) = true).
Proof.
  apply (initialize_index_error nat [7%nat] (fun _ _ => false) nat 0%nat
           returning_generator
           (snd (NodeHolder.get_and_set_initialize_scheduled
                   NodeHolder.__init__)) 1 3).
  - reflexivity.
  - right. unfold len. simpl. lia.
Defined.

(** * The cache of handles *)

Section CacheFacts.

Import Nodes.

Lemma key_eqb_eq (a b : key) : key_eqb a b = true <-> a = b.
Proof.
  destruct a as [a1 a2], b as [b1 b2]. unfold key_eqb. cbn [fst snd].
  rewrite andb_true_iff, !Z.eqb_eq. split.
  - now intros [-> ->].
  - intros E. now injection E.
Qed.

Lemma key_eqb_refl (a : key) : key_eqb a a = true.
Proof. now apply key_eqb_eq. Qed.

Lemma key_eqb_neq (a b : key) : a <> b -> key_eqb a b = false.
Proof.
  intros Hne. destruct (key_eqb a b) eqn:E; [|reflexivity].
  apply key_eqb_eq in E. contradiction.
Qed.

Lemma lookup_None (k : key) (items : list (key * nat)) :
  lookup k items = None <-> ~ In k (map fst items).
Proof.
  induction items as [|[k' v] items IH]; cbn [lookup map fst In].
  - tauto.
  - destruct (key_eqb k k') eqn:E.
    + apply key_eqb_eq in E. subst k'. split; [discriminate|tauto].
    + rewrite IH. split; [|tauto].
      intros Hn [->|H]; [|tauto]. now rewrite key_eqb_refl in E.
Qed.

Lemma lookup_Some_In (k : key) (v : nat) (items : list (key * nat)) :
  lookup k items = Some v -> In (k, v) items.
Proof.
  induction items as [|[k' v'] items IH]; cbn [lookup In]; [discriminate|].
  destruct (key_eqb k k') eqn:E.
  - apply key_eqb_eq in E. subst k'. intros [= ->]. now left.
  - intros H. right. now apply IH.
Qed.

Lemma lookup_app (k : key) (a b : list (key * nat)) :
  lookup k (a ++ b) =
  match lookup k a with Some v => Some v | None => lookup k b end.
Proof.
  induction a as [|[k' v] a IH]; cbn [app lookup]; [reflexivity|].
  now destruct (key_eqb k k').
Qed.

Lemma lookup_remove_key (k k' : key) (items : list (key * nat)) :
  lookup k' (remove_key k items) =
  if key_eqb k k' then None else lookup k' items.
Proof.
  induction items as [|[k0 v] items IH]; cbn [remove_key filter lookup fst].
  - now destruct (key_eqb k k').
  - fold (remove_key k items).
    destruct (key_eqb k k0) eqn:E0; cbn [negb].
    + apply key_eqb_eq in E0. subst k0. rewrite IH.
      destruct (key_eqb k k') eqn:E; [reflexivity|].
      destruct (key_eqb k' k) eqn:E'; [|reflexivity].
      apply key_eqb_eq in E'. subst k'. now rewrite key_eqb_refl in E.
    + cbn [lookup]. rewrite IH.
      destruct (key_eqb k k') eqn:E; [|reflexivity].
      apply key_eqb_eq in E. subst k'. now rewrite E0.
Qed.

Lemma remove_key_In (k : key) (items : list (key * nat)) (x : key * nat) :
  In x (remove_key k items) <-> In x items /\ fst x <> k.
Proof.
  unfold remove_key. rewrite filter_In, negb_true_iff. split.
  - intros [H E]. split; [exact H|]. intros Heq. rewrite Heq in E.
    now rewrite key_eqb_refl in E.
  - intros [H Hne]. split; [exact H|]. apply key_eqb_neq. congruence.
Qed.

(** Removing a key keeps the remaining keys, and the remaining handles,
    free of repetitions. *)
Lemma remove_key_NoDup {B : Type} (proj : key * nat -> B) (k : key)
  (items : list (key * nat)) :
  NoDup (map proj items) -> NoDup (map proj (remove_key k items)).
Proof.
  induction items as [|item items IH]; intros Hn; [constructor|].
  cbn [map] in Hn. apply NoDup_cons_iff in Hn. destruct Hn as [Hitem Hn].
  cbn [remove_key filter]. fold (remove_key k items).
  destruct (negb (key_eqb k (fst item))); [|now apply IH].
  cbn [map]. constructor; [|now apply IH].
  intros Hin. apply Hitem. apply in_map_iff in Hin.
  destruct Hin as [y [<- Hy]]. apply remove_key_In in Hy.
  apply in_map. apply Hy.
Qed.

Lemma remove_key_length_present (k : key) (v : nat)
  (items : list (key * nat)) :
  NoDup (map fst items) -> lookup k items = Some v ->
  S (length (remove_key k items)) = length items.
Proof.
  induction items as [|[k0 v0] items IH]; cbn [map fst lookup];
    intros Hn E; [discriminate|].
  apply NoDup_cons_iff in Hn. destruct Hn as [Hk0 Hn].
  cbn [remove_key filter fst]. fold (remove_key k items).
  destruct (key_eqb k k0) eqn:E0; cbn [negb length].
  - apply key_eqb_eq in E0. subst k0. f_equal.
    assert (remove_key k items = items) as ->; [|reflexivity].
    unfold remove_key. apply forallb_filter_id. apply forallb_forall.
    intros [k1 v1] H1. cbn [fst]. apply negb_true_iff. apply key_eqb_neq.
    intros ->. apply Hk0. apply in_map_iff. now exists (k1, v1).
  - f_equal. now apply IH.
Qed.

Lemma last_value (items : list (key * nat)) (k : key) (v : nat) :
  rev (map snd (items ++ [(k, v)])) = v :: rev (map snd items).
Proof. rewrite map_app, rev_app_distr. reflexivity. Qed.

Lemma cache_hit (cmp_algorithm_i N : Z) (c : cache) (v : nat) :
  lookup (cmp_algorithm_i, N) (cached c) = Some v ->
  exists c',
    get_node_holder cmp_algorithm_i N c = Some (v, c') /\
    created c' = created c /\
    cached c' =
      remove_key (cmp_algorithm_i, N) (cached c) ++ [((cmp_algorithm_i, N), v)]
    /\
    forall k, lookup k (cached c') = lookup k (cached c).
Proof.
  intros E. unfold get_node_holder, get_node_holder_max, contains,
    move_to_end. rewrite E, last_value.
  eexists. split; [reflexivity|]. cbn [created cached].
  split; [reflexivity|]. split; [reflexivity|].
  intros k. rewrite lookup_app, lookup_remove_key. cbn [lookup].
  destruct (key_eqb (cmp_algorithm_i, N) k) eqn:Ek.
  - apply key_eqb_eq in Ek. subst k. now rewrite key_eqb_refl.
  - destruct (lookup k (cached c)); [reflexivity|].
    destruct (key_eqb k (cmp_algorithm_i, N)) eqn:Ek'; [|reflexivity].
    apply key_eqb_eq in Ek'. subst k. now rewrite key_eqb_refl in Ek.
Qed.

Lemma cache_request (cmp_algorithm_i N : Z) (c : cache) :
  cache_ok c ->
  exists ret c' items,
    get_node_holder cmp_algorithm_i N c = Some (ret, c') /\
    cache_ok c' /\
    cached c' = items ++ [((cmp_algorithm_i, N), ret)] /\
    lookup (cmp_algorithm_i, N) (cached c') = Some ret.
Proof.
  intros [Hk Hs Hh Hc]. set (k := (cmp_algorithm_i, N)).
  destruct (lookup k (cached c)) as [v|] eqn:E.
  - destruct (cache_hit cmp_algorithm_i N c v E)
      as (c' & Eg & Ecr & Eca & Hl).
    exists v, c', (remove_key k (cached c)).
    split; [exact Eg|]. split; [|split; [exact Eca|]].
    + pose proof (lookup_Some_In _ _ _ E) as Hin.
      split; rewrite ?Eca, ?Ecr.
      * rewrite map_app. cbn [map fst]. apply NoDup_app.
        -- now apply remove_key_NoDup.
        -- repeat constructor. intros [].
        -- intros x Hx [<-|[]]. apply in_map_iff in Hx.
           destruct Hx as [y [Ey Hy]]. apply remove_key_In in Hy.
           now destruct Hy.
      * pose proof (remove_key_length_present k v (cached c) Hk E) as El.
        unfold len in *. rewrite length_app. cbn [length]. fold k. lia.
      * rewrite map_app. cbn [map snd]. apply NoDup_app.
        -- now apply remove_key_NoDup.
        -- repeat constructor. intros [].
        -- intros x Hx [<-|[]]. apply in_map_iff in Hx.
           destruct Hx as [[k1 v1] [Ey Hy]]. cbn [snd] in Ey. subst v1.
           apply remove_key_In in Hy. destruct Hy as [Hy Hne].
           cbn [fst] in Hne. apply Hne.
           clear - Hh Hin Hy. induction (cached c) as [|z l IH];
             [destruct Hin|].
           cbn [map] in Hh. apply NoDup_cons_iff in Hh.
           destruct Hh as [Hz Hh].
           destruct Hin as [->|Hin], Hy as [Ez|Hy].
           ++ now injection Ez.
           ++ exfalso. apply Hz. apply in_map_iff. now exists (k1, v).
           ++ subst z. exfalso. apply Hz. apply in_map_iff.
              now exists (k, v).
           ++ now apply IH.
      * intros x Hx. rewrite map_app in Hx. apply in_app_iff in Hx.
        apply Hc. destruct Hx as [Hx|[<-|[]]].
        -- apply in_map_iff in Hx. destruct Hx as [y [<- Hy]].
           apply remove_key_In in Hy. apply in_map. apply Hy.
        -- apply in_map_iff. now exists (k, v).
    + rewrite Hl. exact E.
  - unfold get_node_holder, get_node_holder_max, contains. fold k.
    rewrite E.
    assert (forall items,
              NoDup (map fst items) -> NoDup (map snd items) ->
              (forall x, In x (map fst items) -> In x (map fst (cached c))) ->
              (forall x, In x (map snd items) -> In x (map snd (cached c))) ->
              len items < Config.MAX_CACHED_DECISION_TREES ->
              cache_ok (mkCache (items ++ [(k, created c)]) (S (created c)))
              /\ lookup k (items ++ [(k, created c)]) = Some (created c))
      as Hins.
    { intros items Hik Hih Hsk Hsh Hlen. split; [split|]; cbn [cached created].
      - rewrite map_app. cbn [map fst]. apply NoDup_app;
          [exact Hik | repeat constructor; intros [] |].
        intros x Hx [<-|[]]. apply lookup_None in E. apply E. now apply Hsk.
      - unfold len in *. rewrite length_app. cbn [length]. lia.
      - rewrite map_app. cbn [map snd]. apply NoDup_app;
          [exact Hih | repeat constructor; intros [] |].
        intros x Hx [<-|[]]. apply Hsh, Hc in Hx. cbn [snd] in Hx. lia.
      - intros x Hx. rewrite map_app in Hx. apply in_app_iff in Hx.
        destruct Hx as [Hx|[<-|[]]]; [|cbn [snd]; lia].
        apply Hsh, Hc in Hx. lia.
      - rewrite lookup_app.
        assert (lookup k items = None) as ->.
        { apply lookup_None. intros Hx. apply lookup_None in E. apply E.
          now apply Hsk. }
        cbn [lookup]. now rewrite key_eqb_refl. }
    destruct (Z.leb_spec Config.MAX_CACHED_DECISION_TREES (len (cached c)))
      as [Hfull|Hroom].
    + destruct (cached c) as [|[k0 v0] rest] eqn:Ec.
      { unfold len, Config.MAX_CACHED_DECISION_TREES in Hfull.
        simpl in Hfull. lia. }
      cbn [popitem_first]. cbn [map fst snd] in Hk, Hh.
      apply NoDup_cons_iff in Hk. apply NoDup_cons_iff in Hh.
      destruct (Hins rest) as [Hok Hl]; try tauto.
      * intros x Hx. now right.
      * intros x Hx. now right.
      * unfold len in *. cbn [length] in Hs. lia.
      * eexists _, _, rest. split; [reflexivity|].
        split; [exact Hok|]. split; [reflexivity | exact Hl].
    + destruct (Hins (cached c)) as [Hok Hl]; try tauto.
      eexists _, _, (cached c). split; [reflexivity|].
      split; [exact Hok|]. split; [reflexivity | exact Hl].
Qed.

(** X12. A request for a key that is in the cache returns the handle stored
    under it and creates none; afterwards every key is bound to the handle
    it was bound to before, and the requested key is the most recently used
    one. *)
Theorem get_node_holder_hit (cmp_algorithm_i N : Z) (c : cache) (v : nat) :
  lookup (cmp_algorithm_i, N) (cached c) = Some v ->
  exists c',
    get_node_holder cmp_algorithm_i N c = Some (v, c') /\
    created c' = created c /\
    cached c' =
      remove_key (cmp_algorithm_i, N) (cached c) ++ [((cmp_algorithm_i, N), v)]
    /\
    forall k, lookup k (cached c') = lookup k (cached c).
Proof. apply cache_hit. Qed.

(** X13. Starting from a cache without repeated keys, with at most
    [MAX_CACHED_DECISION_TREES] items whose handles are distinct and were
    created earlier, a request never raises and leaves such a cache; the
    handle it returns is the one the key is bound to afterwards, in the most
    recently used place. *)
Theorem get_node_holder_keeps_cache_ok
  (cmp_algorithm_i N : Z) (c : cache) :
  cache_ok c ->
  exists ret c' items,
    get_node_holder cmp_algorithm_i N c = Some (ret, c') /\
    cache_ok c' /\
    cached c' = items ++ [((cmp_algorithm_i, N), ret)] /\
    lookup (cmp_algorithm_i, N) (cached c') = Some ret.
Proof. apply cache_request. Qed.

(** X14. A request for a new key on a full cache drops the least recently
    used item, whatever the state of its handle, and binds the key to a
    handle created for it. The dropped key is then unknown: the next request
    for it creates another handle, different from the one it had. *)
Theorem get_node_holder_evicts_oldest
  (cmp_algorithm_i N : Z) (c : cache) (k0 : key) (v0 : nat)
  (rest : list (key * nat)) :
  cache_ok c ->
  cached c = (k0, v0) :: rest ->
  len (cached c) = Config.MAX_CACHED_DECISION_TREES ->
  lookup (cmp_algorithm_i, N) (cached c) = None ->
  exists c',
    get_node_holder cmp_algorithm_i N c = Some (created c, c') /\
    cached c' = rest ++ [((cmp_algorithm_i, N), created c)] /\
    lookup k0 (cached c') = None /\
    exists v1 c'',
      get_node_holder (fst k0) (snd k0) c' = Some (v1, c'') /\ v1 <> v0.
Proof.
  intros [Hk Hs Hh Hc] Ec Hfull E. set (k := (cmp_algorithm_i, N)) in *.
  assert (lookup k0 (rest ++ [(k, created c)]) = None) as Hgone.
  { rewrite Ec in Hk, E. cbn [map fst] in Hk. apply NoDup_cons_iff in Hk.
    rewrite lookup_app.
    assert (lookup k0 rest = None) as -> by (apply lookup_None; tauto).
    cbn [lookup] in *. destruct (key_eqb k k0) eqn:Ek; [discriminate|].
    destruct (key_eqb k0 k) eqn:Ek'; [|reflexivity].
    apply key_eqb_eq in Ek'. subst k0. now rewrite key_eqb_refl in Ek. }
  exists (mkCache (rest ++ [(k, created c)]) (S (created c))).
  split; [|split; [reflexivity|split; [exact Hgone|]]].
  - unfold get_node_holder, get_node_holder_max, contains. fold k.
    rewrite E, Hfull, Z.leb_refl, Ec. reflexivity.
  - unfold get_node_holder, get_node_holder_max, contains.
    rewrite <- surjective_pairing. cbn [cached created]. rewrite Hgone.
    assert ((Config.MAX_CACHED_DECISION_TREES
             <=? len (rest ++ [(k, created c)])) = true) as ->.
    { apply Z.leb_le. rewrite <- Hfull, Ec. unfold len.
      rewrite length_app. cbn [length]. lia. }
    assert (exists items, popitem_first (rest ++ [(k, created c)])
                          = Some items) as [items ->].
    { destruct rest; cbn; eauto. }
    eexists _, _. split; [reflexivity|].
    assert (v0 < created c)%nat; [|lia].
    apply Hc. rewrite Ec. now left.
Qed.

(** X15. The key of the latest request is never the one dropped by the next
    request: after a request for a key, one more request, for any key,
    leaves that key bound to the handle that was returned for it. *)
Theorem get_node_holder_keeps_most_recent
  (cmp_algorithm_i N cmp_algorithm_i' N' : Z) (c c1 : cache) (v : nat) :
  cache_ok c ->
  get_node_holder cmp_algorithm_i N c = Some (v, c1) ->
  exists v' c2,
    get_node_holder cmp_algorithm_i' N' c1 = Some (v', c2) /\
    lookup (cmp_algorithm_i, N) (cached c2) = Some v.
Proof.
  intros Hok E1.
  destruct (cache_request cmp_algorithm_i N c Hok)
    as (ret & c1' & items & E1' & Hok1 & Eitems & Hl1).
  rewrite E1 in E1'. injection E1' as <- <-.
  set (k := (cmp_algorithm_i, N)) in *. set (k' := (cmp_algorithm_i', N')).
  destruct (lookup k' (cached c1)) as [v'|] eqn:E'.
  - destruct (cache_hit cmp_algorithm_i' N' c1 v' E')
      as (c2 & E2 & _ & _ & Hl).
    exists v', c2. split; [exact E2|]. now rewrite Hl.
  - unfold get_node_holder, get_node_holder_max, contains. fold k'.
    rewrite E'.
    destruct (Z.leb_spec Config.MAX_CACHED_DECISION_TREES (len (cached c1)))
      as [Hfull|Hroom].
    + rewrite Eitems in *. destruct items as [|[k0 v0] items].
      { unfold len, Config.MAX_CACHED_DECISION_TREES in Hfull.
        simpl in Hfull. lia. }
      cbn [app popitem_first]. eexists _, _. split; [reflexivity|].
      cbn [cached]. destruct Hok1 as [Hk _ _ _]. rewrite Eitems in Hk.
      cbn [app map fst] in Hk. apply NoDup_cons_iff in Hk.
      destruct Hk as [_ Hk]. rewrite map_app in Hk. cbn [map fst] in Hk.
      rewrite !lookup_app.
      assert (lookup k items = None) as ->.
      { apply lookup_None. intros Hin.
        apply NoDup_remove_2 in Hk. apply Hk. rewrite app_nil_r. exact Hin. }
      cbn [lookup]. now rewrite key_eqb_refl.
    + eexists _, _. split; [reflexivity|]. cbn [cached].
      rewrite lookup_app, Hl1. reflexivity.
Qed.

End CacheFacts.

Ltac no_dup :=
  repeat (constructor; [simpl; intuition (try discriminate; try lia)|]);
  try constructor.

Lemma two_item_cache_ok : Nodes.cache_ok two_item_cache.
Proof.
  split; cbn.
  - no_dup.
  - unfold len, Config.MAX_CACHED_DECISION_TREES. simpl. lia.
  - no_dup.
  - intuition lia.
Qed.

Lemma full_cache_ok : Nodes.cache_ok full_cache.
Proof.
  split; cbn.
  - no_dup.
  - unfold len, Config.MAX_CACHED_DECISION_TREES. simpl. lia.
  - no_dup.
  - intuition lia.
Qed.

Lemma get_node_holder_hit_witness :
  exists c',
    Nodes.get_node_holder 2 5 two_item_cache = Some (0%nat, c') /\
    Nodes.created c' = Nodes.created two_item_cache /\
    Nodes.cached c' =
      Nodes.remove_key (2, 5) (Nodes.cached two_item_cache)
      ++ [((2, 5), 0%nat)] /\
    forall k, Nodes.lookup k (Nodes.cached c')
              = Nodes.lookup k (Nodes.cached two_item_cache).
Proof.
  apply (get_node_holder_hit 2 5 two_item_cache 0). reflexivity.
Defined.

Lemma get_node_holder_keeps_cache_ok_witness :
  exists ret c' items,
    Nodes.get_node_holder 0 17 full_cache = Some (ret, c') /\
    Nodes.cache_ok c' /\
    Nodes.cached c' = items ++ [((0, 17), ret)] /\
    Nodes.lookup (0, 17) (Nodes.cached c') = Some ret.
Proof.
  apply (get_node_holder_keeps_cache_ok 0 17 full_cache). apply full_cache_ok.
Defined.

Lemma get_node_holder_evicts_oldest_witness :
  exists c',
    Nodes.get_node_holder 0 17 full_cache
      = Some (Nodes.created full_cache, c') /\
    Nodes.cached c' =
      tl (Nodes.cached full_cache)
      ++ [((0, 17), Nodes.created full_cache)] /\
    Nodes.lookup (0, 0) (Nodes.cached c') = None /\
    exists v1 c'',
      Nodes.get_node_holder (fst (0, 0)) (snd (0, 0)) c' = Some (v1, c'') /\
      v1 <> 0%nat.
Proof.
  apply (get_node_holder_evicts_oldest 0 17 full_cache (0, 0) 0%nat
           (tl (Nodes.cached full_cache))).
  - apply full_cache_ok.
  - reflexivity.
  - reflexivity.
  - reflexivity.
Defined.

Lemma get_node_holder_keeps_most_recent_witness :
  exists v' c2,
    Nodes.get_node_holder 0 17
      (Nodes.mkCache
         (Nodes.remove_key (0, 0) (Nodes.cached full_cache)
          ++ [((0, 0), 0%nat)]) 10) = Some (v', c2) /\
    Nodes.lookup (0, 0) (Nodes.cached c2) = Some 0%nat.
Proof.
  apply (get_node_holder_keeps_most_recent 0 0 0 17 full_cache _ 0%nat).
  - apply full_cache_ok.
  - reflexivity.
Defined.

(** * Rendering the visible subset *)

Section RenderFacts.

Variable Label EdgeData : Type.
Variable nodes : list DecisionTreeNode.
Hypothesis Hwf : wf_tree nodes = true.
Variable idx_use_letter : bool.
Variable get_label : DecisionTreeNode -> bool -> Z -> Label.
Variable edge_data : DecisionTreeNode -> bool -> EdgeData.
Variable state : list Z.





End RenderFacts.

Lemma render_loop_bad_id {Label EdgeData : Type}
  (nodes : list DecisionTreeNode) (idx_use_letter : bool)
  (get_label : DecisionTreeNode -> bool -> Z -> Label)
  (edge_data : DecisionTreeNode -> bool -> EdgeData)
  (state : list Z) (show_full_labels : bool) (l : list Z) :
  (exists x, In x l /\ (x < - len nodes \/ len nodes <= x)) ->
  Nodes.visible_elements_loop nodes idx_use_letter get_label edge_data state
    show_full_labels l = Raise IndexError.
Proof.
  assert (forall x, getitem nodes x = Raise IndexError \/
                    exists node, getitem nodes x = Ok node) as Hget.
  { intros x. unfold getitem. cbv zeta.
    destruct (_ || _); [now left|].
    destruct (nth_error nodes _); [right; eauto | now left]. }
  assert (forall x, x < - len nodes \/ len nodes <= x ->
                    getitem nodes x = Raise IndexError) as Hbad.
  { intros x Hx. unfold getitem. cbv zeta.
    assert (0 <= len nodes) by (unfold len; lia).
    destruct (Z.ltb_spec x 0).
    - destruct (Z.ltb_spec (x + len nodes) 0); [reflexivity | lia].
    - destruct (Z.ltb_spec x 0); [lia|].
      destruct (Z.leb_spec (len nodes) x); [reflexivity | lia]. }
  induction l as [|y l IH]; intros [x [Hin Hx]]; [destruct Hin|].
  cbn [Nodes.visible_elements_loop].
  destruct Hin as [->|Hin].
  - now rewrite (Hbad x Hx).
  - destruct (Hget y) as [->|[node ->]]; [reflexivity|]. cbn [bind].
    rewrite IH by eauto. reflexivity.
Qed.

(** X17. The rendering does not validate the array: an id outside
    [-len, len), where [len] is the node count, makes it raise
    [IndexError], wherever in the array the id stands. *)
Theorem visible_elements_index_error {Label EdgeData : Type}
  (nodes : list DecisionTreeNode) (idx_use_letter : bool)
  (get_label : DecisionTreeNode -> bool -> Z -> Label)
  (edge_data : DecisionTreeNode -> bool -> EdgeData)
  (state : list Z) (show_full_labels : bool) (x : Z) :
  In x state -> x < - len nodes \/ len nodes <= x ->
  Nodes.visible_elements nodes idx_use_letter get_label edge_data state
    show_full_labels = Raise IndexError.
Proof.
  intros Hin Hx. apply render_loop_bad_id. eauto.
Qed.


Lemma visible_elements_index_error_witness :
  Nodes.visible_elements scenario_tree true (fun node _ _ => id node)
    (fun node _ => parent node) [0; 1; 4] false = Raise IndexError.
Proof.
  apply (visible_elements_index_error scenario_tree true
           (fun node _ _ => id node) (fun node _ => parent node)
           [0; 1; 4] false 4).
  - simpl. auto.
  - right. unfold len. simpl. lia.
Defined.

(** * Further properties of the eager view *)

Section ViewFacts.

Import Elements.

(** X18. A label of at most [LABEL_MAX_LENGTH] characters is stored as it
    is; a longer one is stored as its first [LABEL_MAX_LENGTH - 3]
    characters followed by three dots. In both cases the cropped label has
    [min (len label) LABEL_MAX_LENGTH] characters. *)
Theorem crop_label_length (label : list ascii) :
  (len label <= Config.LABEL_MAX_LENGTH -> crop_label label = label) /\
  (Config.LABEL_MAX_LENGTH < len label ->
   crop_label label =
   firstn (Z.to_nat (Config.LABEL_MAX_LENGTH - 3)) label
   ++ ["."; "."; "."]%char) /\
  len (crop_label label) = Z.min (len label) Config.LABEL_MAX_LENGTH.
Proof.
  unfold crop_label, len, Config.LABEL_MAX_LENGTH.
  destruct (Z.ltb_spec 300 (Z.of_nat (length label))) as [Hlong|Hshort].
  - split; [lia|]. split; [reflexivity|].
    rewrite length_app, length_firstn. cbn [length]. lia.
  - split; [reflexivity|]. split; [lia | lia].
Qed.

Lemma element_eta (e : Element) : mkElement (data e) (visibility e) = e.
Proof. now destruct e. Qed.

(** X19. Writing back the string that [get_visiblity] returns changes
    nothing; the string has one character per dict. *)
Theorem set_visiblity_get_visiblity (E : list Element) :
  set_visiblity E (get_visiblity E) = E /\
  String.length (get_visiblity E) = length E.
Proof.
  induction E as [|e E [IH1 IH2]]; [split; reflexivity|].
  cbn [get_visiblity set_visiblity String.length length].
  rewrite IH1, IH2. split; [|reflexivity]. f_equal.
  destruct e as [d [|]]; reflexivity.
Qed.

(** X20. A string of "0" and "1" with one character per dict is read back
    by [get_visiblity] as it was written by [set_visiblity]; the data of
    the dicts are untouched. *)
Theorem get_visiblity_set_visiblity (E : list Element)
  (visiblity : String.string) :
  binary visiblity -> String.length visiblity = length E ->
  get_visiblity (set_visiblity E visiblity) = visiblity /\
  map data (set_visiblity E visiblity) = map data E.
Proof.
  revert visiblity. induction E as [|e E IH]; intros [|c s] Hb Hl;
    try discriminate; [split; reflexivity|].
  cbn [binary String.length length] in *. destruct Hb as [Hc Hb].
  destruct (IH s Hb) as [IH1 IH2]; [lia|].
  cbn [set_visiblity get_visiblity map visibility data].
  rewrite IH1, IH2. split; [|reflexivity]. f_equal.
  destruct Hc as [-> | ->]; reflexivity.
Qed.

End ViewFacts.

Lemma get_visiblity_set_visiblity_witness :
  Elements.get_visiblity
    (Elements.set_visiblity
       (Elements.elements (Elements.__init__ two_node_tree))
       forged_visiblity) = forged_visiblity /\
  map Elements.data
    (Elements.set_visiblity
       (Elements.elements (Elements.__init__ two_node_tree))
       forged_visiblity)
  = map Elements.data (Elements.elements (Elements.__init__ two_node_tree)).
Proof.
  apply (get_visiblity_set_visiblity
           (Elements.elements (Elements.__init__ two_node_tree))
           forged_visiblity).
  - simpl. auto.
  - reflexivity.
Defined.

Section ViewInvariants.

Import Elements.

Lemma mirrored_ext (E E' : list Element) (n : ElementNode) :
  (forall j, In j (slots n) -> vis E' j = vis E j) ->
  mirrored E n -> mirrored E' n.
Proof.
  induction n as [|nd ed l IHl r IHr]; intros Hsame Hm; [exact I|].
  cbn [mirrored slots] in *. destruct Hm as (Hown & Hl & Hr).
  split; [|split].
  - intros e ->. rewrite !Hsame.
    + now apply Hown.
    + now left.
    + right. apply in_or_app. left. now left.
  - apply IHl; [|exact Hl]. intros j Hj. apply Hsame. right.
    apply in_or_app. right. apply in_or_app. now left.
  - apply IHr; [|exact Hr]. intros j Hj. apply Hsame. right.
    apply in_or_app. right. apply in_or_app. now right.
Qed.

Lemma shown_to_ext (dd : Z) (E E' : list Element) (n : ElementNode) :
  forall depth,
  (forall j, In j (slots n) -> vis E' j = vis E j) ->
  shown_to dd E n depth -> shown_to dd E' n depth.
Proof.
  induction n as [|nd ed l IHl r IHr]; intros depth Hsame Hm; [exact I|].
  cbn [shown_to slots] in *. destruct Hm as (Hnd & Hed & Hl & Hr).
  split; [|split; [|split]].
  - rewrite Hsame; [exact Hnd | now left].
  - intros e ->. rewrite Hsame; [now apply Hed|].
    right. apply in_or_app. left. now left.
  - apply IHl; [|exact Hl]. intros j Hj. apply Hsame. right.
    apply in_or_app. right. apply in_or_app. now left.
  - apply IHr; [|exact Hr]. intros j Hj. apply Hsame. right.
    apply in_or_app. right. apply in_or_app. now right.
Qed.

Lemma shown_to_mirrored (dd : Z) (E : list Element) (n : ElementNode) :
  forall depth, shown_to dd E n depth -> mirrored E n.
Proof.
  induction n as [|nd ed l IHl r IHr]; intros depth Hs; [exact I|].
  cbn [shown_to mirrored] in *. destruct Hs as (Hnd & Hed & Hl & Hr).
  split; [|split; eauto]. intros e He. rewrite Hnd. now apply Hed.
Qed.

Lemma shown_to_same (dd : Z) (E E' : list Element) (n : ElementNode) :
  forall depth,
  shown_to dd E n depth -> shown_to dd E' n depth ->
  forall j, In j (slots n) -> vis E j = vis E' j.
Proof.
  induction n as [|nd ed l IHl r IHr]; intros depth Hs Hs' j Hj;
    [destruct Hj|].
  cbn [shown_to slots] in *.
  destruct Hs as (Hnd & Hed & Hl & Hr). destruct Hs' as (Hnd' & Hed' & Hl' & Hr').
  destruct Hj as [<-|Hj]; [congruence|].
  apply in_app_or in Hj. destruct Hj as [Hj|Hj].
  - destruct ed as [e|]; [|destruct Hj]. destruct Hj as [<-|[]].
    rewrite (Hed e eq_refl), (Hed' e eq_refl). reflexivity.
  - apply in_app_or in Hj. destruct Hj as [Hj|Hj]; eauto.
Qed.

(** Hidden nodes with mirrored edges below the display depth are shown as
    the display depth asks. *)
Lemma hidden_shown_to (dd : Z) (E : list Element) (n : ElementNode) :
  forall depth,
  dd <= depth -> all_hidden E n -> mirrored E n -> shown_to dd E n depth.
Proof.
  induction n as [|nd ed l IHl r IHr]; intros depth Hd Hh Hm; [exact I|].
  cbn [all_hidden mirrored shown_to] in *.
  destruct Hh as (Hnd & Hl & Hr). destruct Hm as (Hed & Hml & Hmr).
  assert ((depth <? dd) = false) as -> by (apply Z.ltb_ge; lia).
  split; [exact Hnd|]. split; [|split].
  - intros e He. rewrite (Hed e He). exact Hnd.
  - apply IHl; [lia | assumption | assumption].
  - apply IHr; [lia | assumption | assumption].
Qed.

Lemma vis_set_vis_false (E : list Element) (i : nat) :
  vis (set_vis E i false) i = false.
Proof.
  destruct (Nat.lt_ge_cases i (length E)) as [Hlt|Hge].
  - now apply vis_set_vis_same.
  - destruct (vis (set_vis E i false) i) eqn:Ev; [|reflexivity].
    apply vis_in_range in Ev. rewrite set_vis_length in Ev. lia.
Qed.

Lemma set_visible_false_own (E : list Element) (nd : nat) (ed : option nat)
  (l r : ElementNode) :
  let E' := set_visible E (ElemNode nd ed l r) false in
  vis E' nd = false /\ forall e, ed = Some e -> vis E' e = false.
Proof.
  destruct ed as [e|]; cbn [set_visible].
  - split.
    + destruct (Nat.eq_dec e nd) as [->|Hne]; [apply vis_set_vis_false|].
      rewrite vis_set_vis_other by exact Hne. apply vis_set_vis_false.
    + intros e' [= <-]. apply vis_set_vis_false.
  - split; [apply vis_set_vis_false | discriminate].
Qed.

Lemma set_visible_true_own (E : list Element) (nd : nat) (ed : option nat)
  (l r : ElementNode) :
  (nd < length E)%nat -> (forall e, ed = Some e -> (e < length E)%nat) ->
  let E' := set_visible E (ElemNode nd ed l r) true in
  vis E' nd = true /\ forall e, ed = Some e -> vis E' e = true.
Proof.
  intros Hnd Hed. destruct ed as [e|]; cbn [set_visible].
  - specialize (Hed e eq_refl). split.
    + destruct (Nat.eq_dec e nd) as [->|Hne].
      * apply vis_set_vis_same. now rewrite set_vis_length.
      * rewrite vis_set_vis_other by exact Hne.
        now apply vis_set_vis_same.
    + intros e' [= <-]. apply vis_set_vis_same. now rewrite set_vis_length.
  - split; [now apply vis_set_vis_same | discriminate].
Qed.

Lemma set_vis_data (E : list Element) (i : nat) (b : bool) :
  map data (set_vis E i b) = map data E.
Proof.
  revert i. induction E as [|e E IH]; intros [|i]; cbn; try reflexivity.
  now rewrite IH.
Qed.

Lemma set_visible_data (E : list Element) (n : ElementNode) (b : bool) :
  map data (set_visible E n b) = map data E.
Proof.
  destruct n as [|nd [e|] l r]; cbn [set_visible];
    now rewrite ?set_vis_data.
Qed.

Lemma hide_child_data (child : ElementNode) :
  forall E, map data (hide_child child E) = map data E.
Proof.
  induction child as [|nd ed l IHl r IHr]; intros E; [reflexivity|].
  cbn [hide_child]. destruct (vis E nd); [|reflexivity].
  rewrite dfs_hidden_unfold, IHr, IHl. apply set_visible_data.
Qed.

Lemma dfs_hidden_data (n : ElementNode) (E : list Element) :
  map data (dfs_hidden n E) = map data E.
Proof.
  destruct n as [|nd ed l r]; [reflexivity|].
  now rewrite dfs_hidden_unfold, !hide_child_data.
Qed.

Lemma dfs_visible_data (dd : Z) (n : ElementNode) :
  forall depth E, map data (dfs_visible dd n depth E) = map data E.
Proof.
  induction n as [|nd ed l IHl r IHr]; intros depth E; [reflexivity|].
  cbn [dfs_visible]. destruct (dd <=? depth); [reflexivity|].
  rewrite IHr, IHl. apply set_visible_data.
Qed.

Lemma connected_view_subnode (E : list Element) (n root : ElementNode) :
  subnode n root -> connected_view E root -> connected_view E n.
Proof.
  induction 1 as [nd ed l r|n nd ed l r _ IH|n nd ed l r _ IH]; intros Hc.
  - exact Hc.
  - apply IH. cbn [connected_view] in Hc. tauto.
  - apply IH. cbn [connected_view] in Hc. tauto.
Qed.

Lemma NoDup_subnode (n root : ElementNode) :
  subnode n root -> NoDup (slots root) -> NoDup (slots n).
Proof.
  induction 1 as [nd ed l r|n nd ed l r _ IH|n nd ed l r _ IH]; intros Hn.
  - exact Hn.
  - apply IH. now apply NoDup_slots_inv in Hn.
  - apply IH. now apply NoDup_slots_inv in Hn.
Qed.

(** A change confined to the subtree of [n] that leaves this subtree
    mirrored leaves the whole tree mirrored. *)
Lemma mirrored_subnode (E E' : list Element) (n root : ElementNode) :
  subnode n root -> NoDup (slots root) ->
  (forall j, ~ In j (slots n) -> vis E' j = vis E j) ->
  mirrored E root -> mirrored E' n -> mirrored E' root.
Proof.
  induction 1 as [nd ed l r|n nd ed l r Hsub IH|n nd ed l r Hsub IH];
    intros Hnd Hframe Hm Hn.
  - exact Hn.
  - pose proof (NoDup_slots_inv nd ed l r Hnd) as (Hown & Hl & Hr & Hndl & _).
    cbn [mirrored] in *. destruct Hm as (Hed & Hml & Hmr).
    assert (forall j, In j (slots n) -> In j (slots l)) as Hin
      by (apply subnode_slots; exact Hsub).
    split; [|split].
    + intros e He. rewrite !Hframe.
      * now apply Hed.
      * intros Hj. apply Hin, Hl in Hj. tauto.
      * intros Hj. apply Hin, Hl in Hj. subst ed. cbn in Hj. tauto.
    + now apply IH.
    + apply (mirrored_ext E); [|exact Hmr]. intros j Hj. apply Hframe.
      intros Hjn. apply Hin, Hl in Hjn. tauto.
  - pose proof (NoDup_slots_inv nd ed l r Hnd) as (Hown & Hl & Hr & _ & Hndr).
    cbn [mirrored] in *. destruct Hm as (Hed & Hml & Hmr).
    assert (forall j, In j (slots n) -> In j (slots r)) as Hin
      by (apply subnode_slots; exact Hsub).
    split; [|split].
    + intros e He. rewrite !Hframe.
      * now apply Hed.
      * intros Hj. apply Hin, Hr in Hj. tauto.
      * intros Hj. apply Hin, Hr in Hj. subst ed. cbn in Hj. tauto.
    + apply (mirrored_ext E); [|exact Hml]. intros j Hj. apply Hframe.
      intros Hjn. apply Hin in Hjn. apply Hl in Hj. tauto.
    + now apply IH.
Qed.

Lemma hide_child_mirrored (child : ElementNode) :
  forall E, NoDup (slots child) -> mirrored E child ->
            mirrored (hide_child child E) child.
Proof.
  induction child as [|nd ed l IHl r IHr]; intros E Hnd Hm; [exact I|].
  cbn [hide_child]. destruct (vis E nd) eqn:Ev; [|exact Hm].
  rewrite dfs_hidden_unfold.
  pose proof (NoDup_slots_inv nd ed l r Hnd) as (Hown & Hl & Hr & Hndl & Hndr).
  set (E1 := set_visible E (ElemNode nd ed l r) false).
  destruct (set_visible_false_own E nd ed l r) as [Hnd1 Hed1].
  fold E1 in Hnd1, Hed1.
  cbn [mirrored] in Hm. destruct Hm as (_ & Hml & Hmr).
  assert (mirrored E1 l) as Hml1.
  { apply (mirrored_ext E); [|exact Hml]. intros j Hj.
    apply set_visible_frame; now apply Hl in Hj. }
  assert (mirrored E1 r) as Hmr1.
  { apply (mirrored_ext E); [|exact Hmr]. intros j Hj.
    apply set_visible_frame; now apply Hr in Hj. }
  destruct (hide_child_facts l E1) as (_ & Hfl & _).
  destruct (hide_child_facts r (hide_child l E1)) as (_ & Hfr & _).
  cbn [mirrored]. split; [|split].
  - intros e He.
    assert (~ In nd (slots l) /\ ~ In nd (slots r) /\
            ~ In e (slots l) /\ ~ In e (slots r)) as (A & B & C & D).
    { subst ed. repeat split; intros Hj.
      - apply Hl in Hj. tauto.
      - apply Hr in Hj. tauto.
      - apply Hl in Hj. cbn in Hj. tauto.
      - apply Hr in Hj. cbn in Hj. tauto. }
    rewrite !Hfr, !Hfl by assumption. rewrite Hnd1. now apply Hed1.
  - apply (mirrored_ext (hide_child l E1)).
    + intros j Hj. apply Hfr. intros Hjr. apply Hl in Hj. tauto.
    + now apply IHl.
  - now apply IHr; [|apply (mirrored_ext E1);
                      [intros j Hj; apply Hfl; intros Hjl;
                       apply Hl in Hjl; tauto|]].
Qed.

Lemma dfs_hidden_mirrored (n : ElementNode) (E : list Element) :
  NoDup (slots n) -> mirrored E n -> mirrored (dfs_hidden n E) n.
Proof.
  destruct n as [|nd ed l r]; intros Hnd Hm; [exact I|].
  rewrite dfs_hidden_unfold.
  pose proof (NoDup_slots_inv nd ed l r Hnd) as (Hown & Hl & Hr & Hndl & Hndr).
  destruct (hide_child_facts l E) as (_ & Hfl & _).
  destruct (hide_child_facts r (hide_child l E)) as (_ & Hfr & _).
  cbn [mirrored] in *. destruct Hm as (Hed & Hml & Hmr).
  split; [|split].
  - intros e He.
    assert (~ In nd (slots l) /\ ~ In nd (slots r) /\
            ~ In e (slots l) /\ ~ In e (slots r)) as (A & B & C & D).
    { subst ed. repeat split; intros Hj.
      - apply Hl in Hj. tauto.
      - apply Hr in Hj. tauto.
      - apply Hl in Hj. cbn in Hj. tauto.
      - apply Hr in Hj. cbn in Hj. tauto. }
    rewrite !Hfr, !Hfl by assumption. now apply Hed.
  - apply (mirrored_ext (hide_child l E)).
    + intros j Hj. apply Hfr. intros Hjr. apply Hl in Hj. tauto.
    + now apply hide_child_mirrored.
  - apply hide_child_mirrored; [exact Hndr|].
    apply (mirrored_ext E); [|exact Hmr].
    intros j Hj. apply Hfl. intros Hjl. apply Hl in Hjl. tauto.
Qed.

Lemma dfs_visible_mirrored (dd : Z) (n : ElementNode) :
  forall depth E,
  NoDup (slots n) -> (forall i, In i (slots n) -> (i < length E)%nat) ->
  mirrored E n -> mirrored (dfs_visible dd n depth E) n.
Proof.
  induction n as [|nd ed l IHl r IHr]; intros depth E Hnd Hrange Hm;
    [exact I|].
  cbn [dfs_visible]. destruct (dd <=? depth); [exact Hm|].
  pose proof (NoDup_slots_inv nd ed l r Hnd) as (Hown & Hl & Hr & Hndl & Hndr).
  set (E1 := set_visible E (ElemNode nd ed l r) true).
  destruct (set_visible_true_own E nd ed l r) as [Hnd1 Hed1].
  { apply Hrange. now left. }
  { intros e ->. apply Hrange. right. now left. }
  fold E1 in Hnd1, Hed1.
  assert (length E1 = length E) as L1 by apply set_visible_length.
  cbn [mirrored] in Hm. destruct Hm as (_ & Hml & Hmr).
  destruct (dfs_visible_facts dd l (depth + 1) E1) as (L2 & Hfl & _).
  set (E2 := dfs_visible dd l (depth + 1) E1) in *.
  destruct (dfs_visible_facts dd r (depth + 1) E2) as (L3 & Hfr & _).
  assert (forall i, In i (slots l) -> In i (slots (ElemNode nd ed l r)))
    as Hinl.
  { intros i Hi. right. apply in_or_app. right. apply in_or_app. now left. }
  assert (forall i, In i (slots r) -> In i (slots (ElemNode nd ed l r)))
    as Hinr.
  { intros i Hi. right. apply in_or_app. right. apply in_or_app. now right. }
  cbn [mirrored]. split; [|split].
  - intros e He.
    assert (~ In nd (slots l) /\ ~ In nd (slots r) /\
            ~ In e (slots l) /\ ~ In e (slots r)) as (A & B & C & D).
    { subst ed. repeat split; intros Hj.
      - apply Hl in Hj. tauto.
      - apply Hr in Hj. tauto.
      - apply Hl in Hj. cbn in Hj. tauto.
      - apply Hr in Hj. cbn in Hj. tauto. }
    rewrite !Hfr, !Hfl by assumption. rewrite Hnd1. now apply Hed1.
  - apply (mirrored_ext E2).
    + intros j Hj. apply Hfr. intros Hjr. apply Hl in Hj. tauto.
    + apply IHl; [exact Hndl | |].
      * intros i Hi. rewrite L1. apply Hrange. now apply Hinl.
      * apply (mirrored_ext E); [|exact Hml]. intros j Hj.
        apply set_visible_frame; now apply Hl in Hj.
  - apply IHr; [exact Hndr | |].
    + intros i Hi. rewrite L2, L1. apply Hrange. now apply Hinr.
    + apply (mirrored_ext E); [|exact Hmr]. intros j Hj.
      rewrite Hfl by (intros Hjl; apply Hl in Hjl; tauto).
      apply set_visible_frame; now apply Hr in Hj.
Qed.

End ViewInvariants.

Section ViewTheorems.

Import Elements.

Lemma build_child_shown (dd : Z) (child : DecisionTree) :
  (forall edge depth start pre post,
     length pre = start ->
     (forall e, edge = Some e ->
        vis (pre ++ snd (build dd child edge depth start) ++ post) e
        = (depth <? dd)) ->
     shown_to dd (pre ++ snd (build dd child edge depth start) ++ post)
       (fst (build dd child edge depth start)) depth) ->
  forall parent_id depth start pre post,
  length pre = start ->
  shown_to dd (pre ++ snd (build_child dd parent_id child depth start) ++ post)
    (fst (build_child dd parent_id child depth start)) (depth + 1).
Proof.
  intros IH parent_id depth start pre post Hpre.
  destruct child as [|cid cxy cl cr]; [exact I|].
  cbn [build_child fst snd].
  set (edge := mkElement (EdgeData parent_id cid) (depth + 1 <? dd)).
  specialize (IH (Some start) (depth + 1) (S start) (pre ++ [edge]) post).
  rewrite <- app_assoc in IH. apply IH.
  - rewrite length_app. simpl. lia.
  - intros e [= <-]. cbn [app]. rewrite <- Hpre. apply vis_middle.
Qed.

Lemma build_shown (dd : Z) (node : DecisionTree) :
  forall edge depth start pre post,
  length pre = start ->
  (forall e, edge = Some e ->
     vis (pre ++ snd (build dd node edge depth start) ++ post) e
     = (depth <? dd)) ->
  shown_to dd (pre ++ snd (build dd node edge depth start) ++ post)
    (fst (build dd node edge depth start)) depth.
Proof.
  induction node as [|id cmp_xy l IHl r IHr];
    intros edge depth start pre post Hpre Hedge; [exact I|].
  destruct cmp_xy as [xy|].
  - rewrite build_unfold in *. cbv zeta in *. cbn [fst snd] in *.
    pose proof (build_child_shown dd l IHl id depth (S start)) as Hl.
    set (bl := build_child dd id l depth (S start)) in *.
    pose proof (build_child_shown dd r IHr id depth
                  (S start + length (snd bl))%nat) as Hr.
    set (br := build_child dd id r depth
                 (S start + length (snd bl))%nat) in *.
    set (nd := mkElement (NodeData id) (depth <? dd)) in *.
    set (E := pre ++ (nd :: snd bl ++ snd br) ++ post) in *.
    assert (E = (pre ++ [nd]) ++ snd bl ++ (snd br ++ post)) as El.
    { unfold E. cbn [app]. now rewrite <- !app_assoc. }
    assert (E = (pre ++ nd :: snd bl) ++ snd br ++ post) as Er.
    { unfold E. cbn [app]. now rewrite <- !app_assoc. }
    cbn [shown_to]. split; [|split; [exact Hedge|split]].
    + unfold E. cbn [app]. rewrite <- Hpre. apply vis_middle.
    + rewrite El. apply Hl. rewrite length_app. simpl. lia.
    + rewrite Er. apply Hr. rewrite length_app. simpl. lia.
  - cbn [build fst snd shown_to] in *.
    split; [|split; [exact Hedge | split; exact I]].
    cbn [app]. rewrite <- Hpre. apply vis_middle.
Qed.

Lemma build_child_slots (dd : Z) (parent_id : nat) (child : DecisionTree)
  (depth : Z) (start : nat) :
  (forall edge depth start i,
     (start <= i < start + length (snd (build dd child edge depth start)))%nat
     -> In i (slots (fst (build dd child edge depth start)))) ->
  forall i,
  (start <= i
   < start + length (snd (build_child dd parent_id child depth start)))%nat ->
  In i (slots (fst (build_child dd parent_id child depth start))).
Proof.
  intros IH i Hi. destruct child as [|cid cxy cl cr];
    cbn [build_child fst snd length] in *; [lia|].
  destruct (build_root_shape dd cid cxy cl cr (Some start) (depth + 1)
              (S start)) as (el & er & Eroot).
  destruct (Nat.eq_dec i start) as [->|Hne].
  - rewrite Eroot. cbn [slots opt_list app]. right. now left.
  - apply IH. lia.
Qed.

Lemma build_cover (dd : Z) (node : DecisionTree) :
  forall edge depth start i,
  (start <= i < start + length (snd (build dd node edge depth start)))%nat ->
  In i (slots (fst (build dd node edge depth start))).
Proof.
  induction node as [|id cmp_xy l IHl r IHr]; intros edge depth start i Hi.
  - cbn in Hi. lia.
  - destruct cmp_xy as [xy|].
    + rewrite build_unfold in *. cbv zeta in *. cbn [fst snd] in *.
      pose proof (build_child_slots dd id l depth (S start) IHl) as Hl.
      set (bl := build_child dd id l depth (S start)) in *.
      pose proof (build_child_slots dd id r depth
                    (S start + length (snd bl))%nat IHr) as Hr.
      set (br := build_child dd id r depth
                   (S start + length (snd bl))%nat) in *.
      cbn [length] in Hi. rewrite length_app in Hi.
      cbn [slots]. destruct (Nat.eq_dec i start) as [->|Hne]; [now left|].
      right. apply in_or_app. right. apply in_or_app.
      destruct (Nat.lt_ge_cases i (S start + length (snd bl))) as [Hlt|Hge].
      * left. apply Hl. lia.
      * right. apply Hr. lia.
    + cbn [build fst snd length slots] in *. left. lia.
Qed.

Lemma reached_positive (id : nat) (cmp_xy : option (Z * Z))
  (l r : DecisionTree) :
  (1 <= reached (Node id cmp_xy l r))%nat.
Proof. destruct cmp_xy; cbn; lia. Qed.

Lemma build_length (dd : Z) (node : DecisionTree) :
  forall edge depth start,
  length (snd (build dd node edge depth start))
  = (2 * reached node - 1)%nat.
Proof.
  induction node as [|id cmp_xy l IHl r IHr]; intros edge depth start;
    [reflexivity|].
  destruct cmp_xy as [xy|]; [|reflexivity].
  rewrite build_unfold. cbv zeta. cbn [fst snd length reached].
  rewrite length_app.
  assert (forall child parent_id depth start,
            (forall edge depth start,
               length (snd (build dd child edge depth start))
               = (2 * reached child - 1)%nat) ->
            length (snd (build_child dd parent_id child depth start))
            = (2 * reached child)%nat) as Hchild.
  { intros [|cid cxy cl cr] parent_id depth' start' IH; [reflexivity|].
    cbn [build_child snd length]. rewrite IH.
    pose proof (reached_positive cid cxy cl cr). lia. }
  rewrite (Hchild l), (Hchild r) by assumption. lia.
Qed.

Lemma vis_cons (e : Element) (E : list Element) (j : nat) :
  vis (e :: E) (S j) = vis E j.
Proof. reflexivity. Qed.

Lemma elements_ext (E E' : list Element) :
  map data E = map data E' ->
  (forall j, (j < length E)%nat -> vis E j = vis E' j) ->
  E = E'.
Proof.
  revert E'. induction E as [|e E IH]; intros [|e' E'] Hd Hv;
    try discriminate; [reflexivity|].
  cbn [map] in Hd. injection Hd as Hd Hd'.
  f_equal.
  - specialize (Hv 0%nat). cbn in Hv.
    destruct e, e'; cbn in *. f_equal; [exact Hd | apply Hv; lia].
  - apply IH; [exact Hd'|]. intros j Hj.
    specialize (Hv (S j)). rewrite !vis_cons in Hv. apply Hv.
    cbn [length]. lia.
Qed.

(** After [set_child_hidden], [set_child_visible] shows the tree down to
    the display depth and nothing else of it. *)
Lemma dfs_visible_shown (dd : Z) (n : ElementNode) :
  forall depth E,
  NoDup (slots n) -> (forall i, In i (slots n) -> (i < length E)%nat) ->
  mirrored E n ->
  match n with
  | NoElement => True
  | ElemNode _ _ l r => all_hidden E l /\ all_hidden E r
  end ->
  (dd <= depth -> visible E n = false) ->
  shown_to dd (dfs_visible dd n depth E) n depth.
Proof.
  induction n as [|nd ed l IHl r IHr];
    intros depth E Hnd Hrange Hm Hbelow Hown; [exact I|].
  destruct Hbelow as [Hhl Hhr]. cbn [dfs_visible].
  destruct (Z.leb_spec dd depth) as [Hdeep|Hshallow].
  - apply hidden_shown_to; [exact Hdeep | | exact Hm].
    cbn [all_hidden]. split; [now apply Hown | split; assumption].
  - pose proof (NoDup_slots_inv nd ed l r Hnd)
      as (Hnded & Hl & Hr & Hndl & Hndr).
    set (E1 := set_visible E (ElemNode nd ed l r) true).
    destruct (set_visible_true_own E nd ed l r) as [Hnd1 Hed1].
    { apply Hrange. now left. }
    { intros e ->. apply Hrange. right. now left. }
    fold E1 in Hnd1, Hed1.
    assert (length E1 = length E) as L1 by apply set_visible_length.
    cbn [mirrored] in Hm. destruct Hm as (_ & Hml & Hmr).
    destruct (dfs_visible_facts dd l (depth + 1) E1) as (L2 & Hfl & _).
    set (E2 := dfs_visible dd l (depth + 1) E1) in *.
    destruct (dfs_visible_facts dd r (depth + 1) E2) as (L3 & Hfr & _).
    assert (forall i, In i (slots l) -> In i (slots (ElemNode nd ed l r)))
      as Hinl.
    { intros i Hi. right. apply in_or_app. right. apply in_or_app.
      now left. }
    assert (forall i, In i (slots r) -> In i (slots (ElemNode nd ed l r)))
      as Hinr.
    { intros i Hi. right. apply in_or_app. right. apply in_or_app.
      now right. }
    assert (forall j, In j (slots l) -> vis E1 j = vis E j) as Hsame_l.
    { intros j Hj. apply set_visible_frame; now apply Hl in Hj. }
    assert (forall j, In j (slots r) -> vis E2 j = vis E j) as Hsame_r.
    { intros j Hj. rewrite Hfl by (intros Hjl; apply Hl in Hjl; tauto).
      apply set_visible_frame; now apply Hr in Hj. }
    assert (forall c E', all_hidden E' c ->
              match c with
              | NoElement => True
              | ElemNode _ _ cl cr => all_hidden E' cl /\ all_hidden E' cr
              end /\ visible E' c = false) as Hsplit.
    { intros [|cnd ced cl cr] E' Hh; [split; [exact I | reflexivity]|].
      cbn [all_hidden visible] in *. tauto. }
    assert (all_hidden E1 l) as Hhl1 by now apply (all_hidden_ext E).
    assert (all_hidden E2 r) as Hhr2 by now apply (all_hidden_ext E).
    destruct (Hsplit l E1 Hhl1) as [Hbl Hvl].
    destruct (Hsplit r E2 Hhr2) as [Hbr Hvr].
    assert ((depth <? dd) = true) as Hlt by (apply Z.ltb_lt; lia).
    cbn [shown_to]. rewrite Hlt. split; [|split; [|split]].
    + rewrite Hfr, Hfl; [exact Hnd1 | |]; intros Hj.
      * apply Hl in Hj. tauto.
      * apply Hr in Hj. tauto.
    + intros e He. rewrite Hfr, Hfl; [now apply Hed1 | |]; intros Hj.
      * apply Hl in Hj. subst ed. cbn in Hj. tauto.
      * apply Hr in Hj. subst ed. cbn in Hj. tauto.
    + apply (shown_to_ext dd E2).
      * intros j Hj. apply Hfr. intros Hjr. apply Hl in Hj. tauto.
      * apply IHl; [exact Hndl | | | exact Hbl | now intros _].
        -- intros i Hi. rewrite L1. apply Hrange. now apply Hinl.
        -- now apply (mirrored_ext E).
    + apply IHr; [exact Hndr | | | exact Hbr | now intros _].
      * intros i Hi. rewrite L2, L1. apply Hrange. now apply Hinr.
      * now apply (mirrored_ext E).
Qed.

(** [element_nodes[0]] is the root's element node when the root alone
    carries id 0. *)
Lemma element_nodes_root (cmp_xy : option (Z * Z)) (l r : DecisionTree) :
  id_free 0 l = true -> id_free 0 r = true ->
  let tree := Node 0 cmp_xy l r in
  exists rest,
    element_nodes (__init__ tree)
    = fst (build Config.DISPLAY_DEPTH tree None 0 0) :: rest.
Proof.
  intros Hl Hr tree. destruct (init_elements tree) as [_ Een].
  rewrite Een.
  destruct (build_root_shape Config.DISPLAY_DEPTH 0 cmp_xy l r None 0 0)
    as (el & er & Eroot).
  fold tree in Eroot. rewrite Eroot. unfold tree.
  cbn [index_nodes place]. destruct cmp_xy; [|eauto].
  destruct (index_nodes_head l el (ElemNode 0 None el er) [] Hl)
    as [rest1 ->].
  now apply index_nodes_head.
Qed.

Lemma mirrored_sub (E : list Element) (n root : ElementNode) :
  subnode n root -> mirrored E root -> mirrored E n.
Proof.
  induction 1 as [nd ed l r|n nd ed l r _ IH|n nd ed l r _ IH]; intros Hm.
  - exact Hm.
  - apply IH. cbn [mirrored] in Hm. tauto.
  - apply IH. cbn [mirrored] in Hm. tauto.
Qed.

Lemma dfs_visible_own (dd : Z) (nd : nat) (ed : option nat)
  (l r : ElementNode) (depth : Z) (E : list Element) :
  depth < dd ->
  (nd < length E)%nat -> ~ In nd (opt_list ed) ->
  vis (dfs_visible dd (ElemNode nd ed l r) depth E) nd = true.
Proof.
  intros Hd Hnd Hed. cbn [dfs_visible].
  destruct (Z.leb_spec dd depth); [lia|].
  apply dfs_visible_facts. apply dfs_visible_facts.
  now apply set_visible_own.
Qed.

(** X21. The view that [__init__] builds holds one node dict for each node
    the traversal reaches and one edge dict for each of them but the root,
    every one of them referred to by the tree of element nodes. Exactly
    the nodes less than [DISPLAY_DEPTH] levels below the root are visible,
    and every edge dict carries the flag of the node it leads to. *)
Theorem init_shows_display_depth (id : nat) (cmp_xy : option (Z * Z))
  (l r : DecisionTree) :
  let tree := Node id cmp_xy l r in
  let self := __init__ tree in
  let root := fst (build Config.DISPLAY_DEPTH tree None 0 0) in
  length (elements self) = (2 * reached tree - 1)%nat /\
  (forall i, (i < length (elements self))%nat -> In i (slots root)) /\
  shown_to Config.DISPLAY_DEPTH (elements self) root 0 /\
  mirrored (elements self) root.
Proof.
  intros tree self root. destruct (init_elements tree) as [Eel _].
  fold self in Eel. rewrite Eel.
  assert (shown_to Config.DISPLAY_DEPTH
            (snd (build Config.DISPLAY_DEPTH tree None 0 0)) root 0) as Hs.
  { pose proof (build_shown Config.DISPLAY_DEPTH tree None 0 0%nat [] []
                  eq_refl) as H.
    rewrite app_nil_r in H. apply H. discriminate. }
  split; [apply build_length|]. split; [|split; [exact Hs|]].
  - intros i Hi. apply build_cover. lia.
  - now apply (shown_to_mirrored Config.DISPLAY_DEPTH _ root 0).
Qed.

(** X22. [set_child_visible] and [set_child_hidden], on any node of a view
    in which every edge dict carries the flag of the node it leads to,
    leave such a view, and change the data of no dict. *)
Theorem show_hide_keep_edges_mirrored (E : list Element)
  (n root : ElementNode) :
  subnode n root -> wf_view E root -> mirrored E root ->
  mirrored (set_child_visible n E) root /\
  map data (set_child_visible n E) = map data E /\
  mirrored (set_child_hidden n E) root /\
  map data (set_child_hidden n E) = map data E.
Proof.
  intros Hsub [Hnd Hrange] Hm.
  pose proof (NoDup_subnode n root Hsub Hnd) as Hndn.
  pose proof (mirrored_sub E n root Hsub Hm) as Hmn.
  pose proof (subnode_slots n root Hsub) as Hin.
  split; [|split; [apply dfs_visible_data|split; [|apply dfs_hidden_data]]].
  - apply (mirrored_subnode E _ n root Hsub Hnd); [|exact Hm|].
    + apply dfs_visible_facts.
    + apply dfs_visible_mirrored; [exact Hndn | | exact Hmn].
      intros i Hi. apply Hrange. now apply Hin.
  - apply (mirrored_subnode E _ n root Hsub Hnd); [|exact Hm|].
    + apply dfs_hidden_facts.
    + now apply dfs_hidden_mirrored.
Qed.

(** X23. On a connected view, [set_child_hidden] on a node hides every
    node below it and changes no flag outside the two subtrees below it;
    the node itself keeps its flag, and [update_classes] then marks it
    [has_hidden_child] unless it is a leaf. *)
Theorem set_child_hidden_hides_subtree (E : list Element)
  (nd : nat) (ed : option nat) (l r root : ElementNode) :
  let n := ElemNode nd ed l r in
  subnode n root -> NoDup (slots root) -> connected_view E root ->
  let E' := set_child_hidden n E in
  all_hidden E' l /\ all_hidden E' r /\
  (forall j, ~ In j (slots l) -> ~ In j (slots r) -> vis E' j = vis E j) /\
  visible E' n = visible E n /\
  (is_leaf n = false -> update_classes E' n = Class_has_hidden_child).
Proof.
  intros n Hsub Hnd Hc E'.
  pose proof (NoDup_subnode n root Hsub Hnd) as Hndn.
  pose proof (connected_view_subnode E n root Hsub Hc) as Hcn.
  destruct (dfs_hidden_below nd ed l r E Hndn Hcn) as [Hl Hr].
  fold n in Hl, Hr. fold (set_child_hidden n E) in Hl, Hr. fold E' in Hl, Hr.
  assert (forall j, ~ In j (slots l) -> ~ In j (slots r) ->
                    vis E' j = vis E j) as Hframe.
  { intros j Hjl Hjr. unfold E', set_child_hidden, n.
    rewrite dfs_hidden_unfold.
    destruct (hide_child_facts l E) as (_ & Hfl & _).
    destruct (hide_child_facts r (hide_child l E)) as (_ & Hfr & _).
    now rewrite Hfr, Hfl. }
  split; [exact Hl|]. split; [exact Hr|]. split; [exact Hframe|].
  pose proof (NoDup_slots_inv nd ed l r Hndn) as (_ & Hsl & Hsr & _).
  split.
  - cbn [n visible]. apply Hframe; intros Hj.
    + apply Hsl in Hj. tauto.
    + apply Hsr in Hj. tauto.
  - intros Hleaf. unfold update_classes. rewrite Hleaf.
    assert (has_hidden_child E' n = true) as ->; [|reflexivity].
    cbn [n has_hidden_child is_leaf] in *.
    destruct l as [|lnd led ll lr].
    + destruct r as [|rnd red rl rr]; [discriminate|].
      cbn [all_hidden visible] in *. destruct Hr as [-> _]. reflexivity.
    + cbn [all_hidden visible] in *. destruct Hl as [-> _]. reflexivity.
Qed.

(** X24. [set_child_visible] on a node of a view shows the node and its
    children, so that [has_hidden_child] is false of it afterwards; it
    hides nothing and changes no flag outside the node's subtree. *)
Theorem set_child_visible_shows_children (E : list Element)
  (n root : ElementNode) :
  subnode n root -> wf_view E root ->
  let E' := set_child_visible n E in
  visible E' n = true /\
  has_hidden_child E' n = false /\
  (forall j, vis E j = true -> vis E' j = true) /\
  (forall j, ~ In j (slots n) -> vis E' j = vis E j).
Proof.
  intros Hsub [Hnd Hrange] E'.
  pose proof (NoDup_subnode n root Hsub Hnd) as Hndn.
  pose proof (subnode_slots n root Hsub) as Hin.
  assert (forall i, In i (slots n) -> (i < length E)%nat) as Hrn
    by (intros i Hi; apply Hrange; now apply Hin).
  unfold E', set_child_visible.
  destruct (dfs_visible_facts Config.DISPLAY_DEPTH n 0 E)
    as (_ & Hframe & Hmono).
  assert (exists nd ed l r, n = ElemNode nd ed l r)
    as (nd & ed & l & r & ->)
    by (clear - Hsub; induction Hsub; [do 4 eexists; reflexivity | |];
        assumption).
  split; [|split; [|split; assumption]].
  - cbn [visible]. apply dfs_visible_own;
      [reflexivity | apply Hrn; now left | now apply NoDup_slots_inv in Hndn].
  - pose proof (NoDup_slots_inv nd ed l r Hndn)
      as (Hown & Hl & Hr & Hndl & Hndr).
    cbn [dfs_visible]. change (Config.DISPLAY_DEPTH <=? 0) with false.
    cbv iota. set (E1 := set_visible E (ElemNode nd ed l r) true).
    assert (length E1 = length E) as L1 by apply set_visible_length.
    destruct (dfs_visible_facts Config.DISPLAY_DEPTH l (0 + 1) E1)
      as (L2 & _ & _).
    set (E2 := dfs_visible Config.DISPLAY_DEPTH l (0 + 1) E1) in *.
    destruct (dfs_visible_facts Config.DISPLAY_DEPTH r (0 + 1) E2)
      as (_ & _ & Hmr).
    cbn [has_hidden_child]. apply orb_false_iff. split.
    + destruct l as [|lnd led ll lr]; [reflexivity|].
      cbn [visible]. apply negb_false_iff. apply Hmr.
      apply dfs_visible_own; [reflexivity | |].
      * rewrite L1. apply Hrn. right. apply in_or_app. right.
        apply in_or_app. left. now left.
      * now apply NoDup_slots_inv in Hndl.
    + destruct r as [|rnd red rl rr]; [reflexivity|].
      cbn [visible]. apply negb_false_iff.
      apply dfs_visible_own; [reflexivity | |].
      * rewrite L2, L1. apply Hrn. right. apply in_or_app. right.
        apply in_or_app. right. now left.
      * now apply NoDup_slots_inv in Hndr.
Qed.

(** X25. [reset] restores the view that [__init__] built: from any
    connected flags on the dicts of that view in which every edge dict
    carries the flag of the node it leads to, [reset] returns the initial
    view itself, when the root alone carries id 0. *)
Theorem reset_restores_initial_view (cmp_xy : option (Z * Z))
  (l r : DecisionTree) (E : list Element) :
  let tree := Node 0 cmp_xy l r in
  let self := __init__ tree in
  let root := fst (build Config.DISPLAY_DEPTH tree None 0 0) in
  id_free 0 l = true -> id_free 0 r = true ->
  map data E = map data (elements self) ->
  connected_view E root -> mirrored E root ->
  reset (mk E (element_nodes self)) = Ok self.
Proof.
  intros tree self root Hl Hr Hdata Hc Hm.
  destruct (element_nodes_root cmp_xy l r Hl Hr) as [rest Een].
  fold tree in Een. fold self in Een. fold root in Een.
  destruct (build_root_shape Config.DISPLAY_DEPTH 0 cmp_xy l r None 0 0)
    as (el & er & Eroot).
  fold tree in Eroot. fold root in Eroot.
  destruct (init_elements tree) as [Eel _]. fold self in Eel.
  destruct (build_spec Config.DISPLAY_DEPTH tree None 0 0%nat)
    as (Hnd & Hrange & _).
  fold root in Hnd, Hrange. rewrite <- Eel in Hrange.
  assert (NoDup (slots root)) as Hnodup by (apply Hnd; discriminate).
  assert (length E = length (elements self)) as HE.
  { rewrite <- (length_map data E), Hdata. apply length_map. }
  assert (forall i, In i (slots root) -> (i < length E)%nat) as Hin.
  { intros i Hi. destruct (Hrange i Hi) as [[]|H]. rewrite HE. lia. }
  set (E1 := set_child_hidden root E).
  assert (length E1 = length E) as L1 by apply dfs_hidden_facts.
  assert (shown_to Config.DISPLAY_DEPTH (set_child_visible root E1) root 0)
    as Hs.
  { apply dfs_visible_shown.
    - exact Hnodup.
    - intros i Hi. rewrite L1. now apply Hin.
    - now apply dfs_hidden_mirrored.
    - unfold E1, set_child_hidden. rewrite Eroot.
      apply dfs_hidden_below; rewrite <- Eroot; assumption.
    - unfold Config.DISPLAY_DEPTH. lia. }
  assert (shown_to Config.DISPLAY_DEPTH (elements self) root 0) as Hs0.
  { rewrite Eel.
    pose proof (build_shown Config.DISPLAY_DEPTH tree None 0 0%nat [] []
                  eq_refl) as H.
    rewrite app_nil_r in H. apply H. discriminate. }
  assert (set_child_visible root E1 = elements self) as Hback.
  { apply elements_ext.
    - unfold set_child_visible, E1, set_child_hidden.
      now rewrite dfs_visible_data, dfs_hidden_data.
    - intros j Hj.
      apply (shown_to_same Config.DISPLAY_DEPTH _ _ root 0 Hs Hs0).
      apply build_cover. unfold set_child_visible in Hj.
      destruct (dfs_visible_facts Config.DISPLAY_DEPTH root 0 E1) as (L & _).
      rewrite L, L1, HE, Eel in Hj. lia. }
  unfold reset. cbn [element_nodes elements]. rewrite Een.
  assert (getitem (root :: rest) 0 = Ok root) as ->.
  { unfold getitem, len. cbn [length].
    destruct (Z.leb_spec (Z.of_nat (S (length rest))) 0); [lia|].
    reflexivity. }
  cbn [bind]. rewrite Eroot at 1. fold E1. rewrite Hback, <- Een.
  f_equal. clearbody self. now destruct self.
Qed.

End ViewTheorems.

Lemma two_node_view_wf :
  Elements.wf_view (Elements.elements (Elements.__init__ two_node_tree))
    (fst (Elements.build Config.DISPLAY_DEPTH two_node_tree None 0 0)).
Proof.
  split; cbn.
  - no_dup.
  - intuition lia.
Qed.

Lemma two_node_view_mirrored :
  Elements.mirrored (Elements.elements (Elements.__init__ two_node_tree))
    (fst (Elements.build Config.DISPLAY_DEPTH two_node_tree None 0 0)).
Proof.
  cbn. repeat split; try discriminate. now intros e [= <-].
Qed.

Lemma two_node_view_connected :
  Elements.connected_view
    (Elements.elements (Elements.__init__ two_node_tree))
    (fst (Elements.build Config.DISPLAY_DEPTH two_node_tree None 0 0)).
Proof. cbn. repeat split; try discriminate; reflexivity. Qed.

Lemma show_hide_keep_edges_mirrored_witness :
  let E := Elements.elements (Elements.__init__ two_node_tree) in
  let root :=
    fst (Elements.build Config.DISPLAY_DEPTH two_node_tree None 0 0) in
  Elements.mirrored (Elements.set_child_visible root E) root /\
  map Elements.data (Elements.set_child_visible root E)
  = map Elements.data E /\
  Elements.mirrored (Elements.set_child_hidden root E) root /\
  map Elements.data (Elements.set_child_hidden root E)
  = map Elements.data E.
Proof.
  apply (show_hide_keep_edges_mirrored
           (Elements.elements (Elements.__init__ two_node_tree))
           (fst (Elements.build Config.DISPLAY_DEPTH two_node_tree None 0 0))
           (fst (Elements.build Config.DISPLAY_DEPTH two_node_tree None 0 0))).
  - apply Elements.sub_here.
  - apply two_node_view_wf.
  - apply two_node_view_mirrored.
Defined.

Lemma set_child_hidden_hides_subtree_witness :
  let E := Elements.elements (Elements.__init__ two_node_tree) in
  let leaf := Elements.ElemNode 2 (Some 1%nat)
                Elements.NoElement Elements.NoElement in
  let n := Elements.ElemNode 0 None leaf Elements.NoElement in
  let E' := Elements.set_child_hidden n E in
  Elements.all_hidden E' leaf /\ Elements.all_hidden E' Elements.NoElement /\
  (forall j, ~ In j (Elements.slots leaf) ->
             ~ In j (Elements.slots Elements.NoElement) ->
             Elements.vis E' j = Elements.vis E j) /\
  Elements.visible E' n = Elements.visible E n /\
  (Elements.is_leaf n = false ->
   Elements.update_classes E' n = Elements.Class_has_hidden_child).
Proof.
  apply (set_child_hidden_hides_subtree
           (Elements.elements (Elements.__init__ two_node_tree))
           0 None
           (Elements.ElemNode 2 (Some 1%nat)
              Elements.NoElement Elements.NoElement)
           Elements.NoElement
           (fst (Elements.build Config.DISPLAY_DEPTH two_node_tree None 0 0))).
  - apply Elements.sub_here.
  - apply two_node_view_wf.
  - apply two_node_view_connected.
Defined.

Lemma set_child_visible_shows_children_witness :
  let E := Elements.set_visiblity
             (Elements.elements (Elements.__init__ two_node_tree))
             forged_visiblity in
  let root :=
    fst (Elements.build Config.DISPLAY_DEPTH two_node_tree None 0 0) in
  let E' := Elements.set_child_visible root E in
  Elements.visible E' root = true /\
  Elements.has_hidden_child E' root = false /\
  (forall j, Elements.vis E j = true -> Elements.vis E' j = true) /\
  (forall j, ~ In j (Elements.slots root) ->
             Elements.vis E' j = Elements.vis E j).
Proof.
  apply (set_child_visible_shows_children
           (Elements.set_visiblity
              (Elements.elements (Elements.__init__ two_node_tree))
              forged_visiblity)
           (fst (Elements.build Config.DISPLAY_DEPTH two_node_tree None 0 0))
           (fst (Elements.build Config.DISPLAY_DEPTH two_node_tree None 0 0))).
  - apply Elements.sub_here.
  - split; cbn.
    + no_dup.
    + intuition lia.
Defined.

Lemma reset_restores_initial_view_witness :
  let self := Elements.__init__ two_node_tree in
  let root :=
    fst (Elements.build Config.DISPLAY_DEPTH two_node_tree None 0 0) in
  Elements.reset
    (Elements.mk (Elements.set_child_hidden root (Elements.elements self))
                 (Elements.element_nodes self)) = Ok self.
Proof.
  apply (reset_restores_initial_view (Some (0, 1))
           (Elements.Node 1 None Elements.NoNode Elements.NoNode)
           Elements.NoNode
           (Elements.set_child_hidden
              (fst (Elements.build Config.DISPLAY_DEPTH two_node_tree
                      None 0 0))
              (Elements.elements (Elements.__init__ two_node_tree)))).
  - reflexivity.
  - reflexivity.
  - reflexivity.
  - cbn. repeat split; try discriminate; reflexivity.
  - cbn. repeat split; try discriminate. now intros e [= <-].
Defined.

(** * expand_all on a tree that does not fit *)

Section ExpandAllFacts.

Variable nodes : list DecisionTreeNode.
Hypothesis Hwf : wf_tree nodes = true.

Let n : nat := length nodes.

(** The loop has stopped right after popping node [a - 1], whose children
    took the count to [cap]. *)
Let stop_at (cap : Z) (a : nat) : Prop :=
  (0 < a)%nat /\
  Z.of_nat (first_child nodes (a - 1)) < cap <= Z.of_nat (first_child nodes a).

Lemma expand_all_loop_stop (cap : Z) (fuel : nat) :
  Z.of_nat n >= cap ->
  forall a t : nat,
  (a <= t <= n)%nat ->
  (Z.of_nat t < cap -> t = first_child nodes a) ->
  (cap <= Z.of_nat t -> stop_at cap a) ->
  (cap - Z.of_nat a <= Z.of_nat fuel) ->
  exists a' t',
    Nodes.expand_all_loop nodes cap fuel
      (map (node_at nodes) (seq a (t - a))) (Z.of_nat t)
      (map Z.of_nat (seq 0 a)) =
    Ok (map Z.of_nat (seq 0 a'), Z.of_nat t') /\
    (a' <= n)%nat /\ cap <= Z.of_nat t' /\ stop_at cap a'.
Proof.
  intros Hbig.
  assert (forall a, Z.of_nat a < cap -> a = first_child nodes a -> False)
    as Hnot_done.
  { intros a Hc Hfc.
    destruct (Nat.lt_ge_cases a n) as [Hlt|Hge]; [|lia].
    pose proof (first_child_gt nodes Hwf a Hlt). lia. }
  induction fuel as [|fuel IH]; intros a t Hat Hfc Hstop Hfuel.
  - exists a, t.
    destruct (t - a)%nat as [|d] eqn:Ed; cbn [seq map Nodes.expand_all_loop].
    + assert (a = t) as <- by lia.
      destruct (Z.lt_ge_cases (Z.of_nat a) cap) as [Hc|Hc].
      * exfalso. apply (Hnot_done a Hc). now apply Hfc.
      * split; [reflexivity|]. split; [lia|]. split; [lia|]. now apply Hstop.
    + destruct (Z.ltb_spec (Z.of_nat t) cap); [lia|].
      split; [reflexivity|]. split; [lia|]. split; [lia|]. now apply Hstop.
  - destruct (t - a)%nat as [|d] eqn:Ed.
    + exists a, t. cbn [seq map Nodes.expand_all_loop].
      assert (a = t) as <- by lia.
      destruct (Z.lt_ge_cases (Z.of_nat a) cap) as [Hc|Hc].
      * exfalso. apply (Hnot_done a Hc). now apply Hfc.
      * split; [reflexivity|]. split; [lia|]. split; [lia|]. now apply Hstop.
    + rewrite seq_cons. cbn [map Nodes.expand_all_loop].
      destruct (Z.ltb_spec (Z.of_nat t) cap) as [Hc|Hc].
      * assert (a < n)%nat as Han by lia.
        specialize (Hfc Hc).
        rewrite expand_all_step_eq.
        rewrite (child_nodes_node_at nodes Hwf a Han),
                (kids_seq nodes Hwf a Han).
        rewrite <- Hfc.
        set (k := length (kids nodes a)).
        set (m := Z.to_nat (cap - Z.of_nat t)).
        rewrite firstn_map, firstn_seq_min.
        rewrite <- map_app.
        assert (seq (S a) d ++ seq t (Nat.min m k) =
                seq (S a) ((t + Nat.min m k) - S a)) as ->.
        { replace ((t + Nat.min m k) - S a)%nat
            with (d + Nat.min m k)%nat by lia.
          rewrite seq_app. do 2 f_equal. lia. }
        rewrite (id_node_at nodes Hwf) by exact Han.
        assert (map Z.of_nat (seq 0 a) ++ [Z.of_nat a] =
                map Z.of_nat (seq 0 (S a))) as ->.
        { rewrite seq_S, map_app. reflexivity. }
        unfold len. rewrite length_map, length_seq.
        rewrite <- Nat2Z.inj_add.
        assert (t + k <= n)%nat as Htk.
        { destruct k as [|k'] eqn:Ek; [lia|].
          assert (In (t + k')%nat (kids nodes a)) as Hin.
          { rewrite (kids_seq nodes Hwf a Han). fold k. rewrite Ek, <- Hfc.
            apply in_seq. lia. }
          destruct (kids_inv nodes Hwf a _ Han Hin) as (_ & ? & _).
          fold n. lia. }
        pose proof (first_child_succ nodes a Han) as Hsucc. fold k in Hsucc.
        apply (IH (S a) (t + Nat.min m k)%nat).
        -- lia.
        -- intros Hc'. rewrite Hsucc, <- Hfc. subst m. lia.
        -- intros Hc'. unfold stop_at. split; [lia|].
           replace (S a - 1)%nat with a by lia.
           rewrite Hsucc, <- Hfc. subst m. lia.
        -- lia.
      * exists a, t. split; [reflexivity|]. split; [lia|]. split; [lia|].
        now apply Hstop.
Qed.

(** X26. On a well-formed tree with [MAX_ELEMENTS] nodes or more,
    [expand_all] reports [False] and shows the nodes up to and including
    the parent of node [MAX_ELEMENTS - 1], the node whose children took the
    count to the bound: fewer than [MAX_ELEMENTS] ids. *)
Theorem expand_all_truncated :
  Config.MAX_ELEMENTS <= len nodes ->
  exists p,
    parent_of nodes (Config.MAX_ELEMENTS - 1) = Some (Z.of_nat p) /\
    Nodes.expand_all nodes = Ok (map Z.of_nat (seq 0 (S p)), false) /\
    len (map Z.of_nat (seq 0 (S p))) < Config.MAX_ELEMENTS.
Proof.
  intros Hbig. unfold len in Hbig. fold n in Hbig.
  destruct (wf_tree_inv nodes Hwf) as (Hn & _).
  destruct (expand_all_loop_stop Config.MAX_ELEMENTS
              (Z.to_nat Config.MAX_ELEMENTS) ltac:(lia) 0 1)
    as (a' & t' & E & Ha' & Ht' & Hpos & Hlo & Hhi).
  - fold n. unfold Config.MAX_ELEMENTS in Hbig. lia.
  - intros _. reflexivity.
  - unfold Config.MAX_ELEMENTS. lia.
  - unfold Config.MAX_ELEMENTS. lia.
  - destruct a' as [|p]; [lia|].
    replace (S p - 1)%nat with p in Hlo by lia.
    assert (p < n)%nat as Hp by lia.
    set (c := Z.to_nat (Config.MAX_ELEMENTS - 1)).
    assert (In c (kids nodes p)) as Hkid.
    { rewrite (kids_seq nodes Hwf p Hp). apply in_seq.
      pose proof (first_child_succ nodes p Hp).
      unfold c, Config.MAX_ELEMENTS in *. lia. }
    destruct (kids_inv nodes Hwf p c Hp Hkid) as (Hpc & _ & _).
    exists p. split; [|split].
    + rewrite <- (parent_of_kid nodes Hwf p c Hp Hkid).
      f_equal; unfold c, Config.MAX_ELEMENTS; lia.
    + unfold Nodes.expand_all, Nodes.expand_all_cap.
      rewrite (getitem_node_at nodes 0) by (unfold len; lia).
      cbn [bind]. cbn [seq map Nat.sub] in E.
      change (Z.to_nat 0) with 0%nat. change (Z.of_nat 1) with 1 in E.
      rewrite E. cbn [bind fst snd]. do 2 f_equal.
      apply Z.ltb_ge. exact Ht'.
    + unfold len. rewrite length_map, length_seq.
      unfold c, Config.MAX_ELEMENTS in *. lia.
Qed.

End ExpandAllFacts.

Lemma expand_all_truncated_witness :
  exists p,
    parent_of (heap_tree 600) (Config.MAX_ELEMENTS - 1) = Some (Z.of_nat p) /\
    Nodes.expand_all (heap_tree 600) = Ok (map Z.of_nat (seq 0 (S p)), false)
    /\
    len (map Z.of_nat (seq 0 (S p))) < Config.MAX_ELEMENTS.
Proof.
  apply (expand_all_truncated (heap_tree 600)).
  - vm_compute. reflexivity.
  - vm_compute. discriminate.
Defined.

(** * The rendered list of the eager view *)

Section RenderedView.

Import Elements.

Lemma data_at_middle (pre post : list Element) (e : Element) :
  data_at (pre ++ e :: post) (length pre) = Some (data e).
Proof.
  unfold data_at. rewrite nth_error_app2 by lia.
  now rewrite Nat.sub_diag.
Qed.

Lemma data_at_map (E E' : list Element) :
  map data E' = map data E -> forall j, data_at E' j = data_at E j.
Proof.
  intros Hd j. unfold data_at. rewrite <- !nth_error_map. now rewrite Hd.
Qed.

Lemma wired_ext (E E' : list Element) (n : ElementNode) :
  (forall j, data_at E' j = data_at E j) -> wired E n -> wired E' n.
Proof.
  intros Hd. induction n as [|nd ed l IHl r IHr]; intros Hw; [exact I|].
  cbn [wired] in *. destruct Hw as (i & Hi & Hch & Hl & Hr).
  exists i. rewrite Hd. split; [exact Hi|]. split; [|split; auto].
  intros cd e cl cr Hc. destruct (Hch cd e cl cr Hc) as (ci & H1 & H2).
  exists ci. now rewrite !Hd.
Qed.

Lemma build_child_wired (dd : Z) (child : DecisionTree) :
  (forall edge depth start pre post,
     length pre = start ->
     let E := pre ++ snd (build dd child edge depth start) ++ post in
     wired E (fst (build dd child edge depth start)) /\
     forall id cmp_xy l r, child = Node id cmp_xy l r ->
                           data_at E start = Some (NodeData id)) ->
  forall parent_id depth start pre post,
  length pre = start ->
  let E := pre ++ snd (build_child dd parent_id child depth start) ++ post in
  wired E (fst (build_child dd parent_id child depth start)) /\
  forall child_data e cl cr,
    fst (build_child dd parent_id child depth start)
    = ElemNode child_data (Some e) cl cr ->
    exists child_id,
      data_at E e = Some (EdgeData parent_id child_id) /\
      data_at E child_data = Some (NodeData child_id).
Proof.
  intros IH parent_id depth start pre post Hpre E.
  destruct child as [|cid cxy cl cr].
  - split; [exact I | discriminate].
  - subst E. cbn [build_child fst snd].
    set (edge := mkElement (EdgeData parent_id cid) (depth + 1 <? dd)).
    destruct (IH (Some start) (depth + 1) (S start) (pre ++ [edge]) post)
      as [Hw Hid].
    { rewrite length_app. simpl. lia. }
    rewrite <- app_assoc in Hw, Hid. cbn [app] in Hw, Hid.
    split; [exact Hw|].
    intros child_data e cl' cr' Eshape.
    destruct (build_root_shape dd cid cxy cl cr (Some start) (depth + 1)
                (S start)) as (el & er & Eroot).
    rewrite Eroot in Eshape. injection Eshape as <- <- _ _.
    exists cid. split.
    + cbn [app]. rewrite <- Hpre. apply data_at_middle.
    + now apply (Hid cid cxy cl cr).
Qed.

Lemma build_wired (dd : Z) (node : DecisionTree) :
  forall edge depth start pre post,
  length pre = start ->
  let E := pre ++ snd (build dd node edge depth start) ++ post in
  wired E (fst (build dd node edge depth start)) /\
  forall id cmp_xy l r, node = Node id cmp_xy l r ->
                        data_at E start = Some (NodeData id).
Proof.
  induction node as [|id cmp_xy l IHl r IHr];
    intros edge depth start pre post Hpre E; [split; [exact I|discriminate]|].
  subst E. destruct cmp_xy as [xy|].
  - rewrite build_unfold. cbv zeta. cbn [fst snd].
    pose proof (build_child_wired dd l IHl id depth (S start)) as Hl.
    set (bl := build_child dd id l depth (S start)) in *.
    pose proof (build_child_wired dd r IHr id depth
                  (S start + length (snd bl))%nat) as Hr.
    set (br := build_child dd id r depth
                 (S start + length (snd bl))%nat) in *.
    set (nd := mkElement (NodeData id) (depth <? dd)) in *.
    set (E := pre ++ (nd :: snd bl ++ snd br) ++ post) in *.
    assert (E = (pre ++ [nd]) ++ snd bl ++ (snd br ++ post)) as El.
    { unfold E. cbn [app]. now rewrite <- !app_assoc. }
    assert (E = (pre ++ nd :: snd bl) ++ snd br ++ post) as Er.
    { unfold E. cbn [app]. now rewrite <- !app_assoc. }
    assert (data_at E start = Some (NodeData id)) as Hown.
    { unfold E. cbn [app]. rewrite <- Hpre. apply data_at_middle. }
    destruct (Hl (pre ++ [nd]) (snd br ++ post)) as [Hwl Hcl].
    { rewrite length_app. simpl. lia. }
    destruct (Hr (pre ++ nd :: snd bl) post) as [Hwr Hcr].
    { rewrite length_app. simpl. lia. }
    cbv zeta in Hwl, Hcl, Hwr, Hcr.
    rewrite <- El in Hwl, Hcl. rewrite <- Er in Hwr, Hcr.
    split.
    + cbn [wired]. exists id. split; [exact Hown|].
      split; [|split; assumption].
      intros cd e cl cr [Hc|Hc]; [now apply (Hcl cd e cl cr) |
                                  now apply (Hcr cd e cl cr)].
    + intros id' c' l' r' [= <- _ _ _]. exact Hown.
  - cbn [build fst snd].
    assert (data_at (pre ++ [mkElement (NodeData id) (depth <? dd)] ++ post)
              start = Some (NodeData id)) as Hown.
    { cbn [app]. rewrite <- Hpre. apply data_at_middle. }
    split.
    + cbn [wired]. exists id. split; [exact Hown|].
      split; [|split; exact I]. intros cd e cl cr [Hc|Hc]; discriminate.
    + intros id' c' l' r' [= <- _ _ _]. exact Hown.
Qed.

(** A node dict with id [i] is in the rendered list. *)
Let rendered_node (E : list Element) (i : nat) : Prop :=
  exists a, In a (filter visibility E) /\ data a = NodeData i.

Lemma vis_rendered_node (E : list Element) (j i : nat) :
  vis E j = true -> data_at E j = Some (NodeData i) -> rendered_node E i.
Proof.
  unfold vis, data_at. intros Hv Hd.
  destruct (nth_error E j) as [a|] eqn:Ea; [|discriminate].
  exists a. split.
  - apply filter_In. split; [now apply nth_error_In in Ea | exact Hv].
  - cbn in Hd. congruence.
Qed.

Lemma edges_below_rendered (E : list Element) (n : ElementNode) :
  wired E n -> mirrored E n -> connected_view E n ->
  forall j s t,
    match n with
    | NoElement => False
    | ElemNode nd _ l r => j = nd \/ In j (slots l) \/ In j (slots r)
    end ->
    vis E j = true -> data_at E j = Some (EdgeData s t) ->
    rendered_node E s /\ rendered_node E t.
Proof.
  induction n as [|nd ed l IHl r IHr]; intros Hw Hm Hc j s t Hj Hv Hd;
    [destruct Hj|].
  cbn [wired mirrored connected_view] in Hw, Hm, Hc.
  destruct Hw as (i & Hi & Hch & Hwl & Hwr).
  destruct Hm as (_ & Hml & Hmr).
  destruct Hc as (Hcl & Hcr & Hccl & Hccr).
  assert (forall c,
            (c = l \/ c = r) ->
            wired E c -> mirrored E c -> connected_view E c ->
            (visible E c = true -> vis E nd = true) ->
            (forall j s t,
               match c with
               | NoElement => False
               | ElemNode cnd _ cl cr =>
                   j = cnd \/ In j (slots cl) \/ In j (slots cr)
               end ->
               vis E j = true -> data_at E j = Some (EdgeData s t) ->
               rendered_node E s /\ rendered_node E t) ->
            In j (slots c) -> rendered_node E s /\ rendered_node E t)
    as Hchild.
  { intros [|cnd ced cl cr] Hwhich Hwc Hmc Hcc Hup IH Hin; [destruct Hin|].
    cbn [slots] in Hin. destruct Hin as [<-|Hin].
    - apply (IH cnd s t); auto.
    - apply in_app_or in Hin. destruct Hin as [Hin|Hin].
      + destruct ced as [e|]; [|destruct Hin]. destruct Hin as [<-|[]].
        destruct (Hch cnd e cl cr) as (ci & He & Hcn).
        { destruct Hwhich as [<-|<-]; [now left | now right]. }
        rewrite Hd in He. injection He as -> ->.
        cbn [mirrored] in Hmc. destruct Hmc as (Hedge & _).
        assert (vis E cnd = true) as Hvc by (rewrite <- (Hedge e eq_refl); exact Hv).
        split.
        * apply (vis_rendered_node E nd); [now apply Hup | exact Hi].
        * now apply (vis_rendered_node E cnd).
      + apply (IH j s t); auto. right. now apply in_app_or. }
  destruct Hj as [->|[Hj|Hj]].
  - rewrite Hd in Hi. discriminate.
  - apply (Hchild l); auto. intros j' s' t'. now apply IHl.
  - apply (Hchild r); auto. intros j' s' t'. now apply IHr.
Qed.

Lemma update_all_classes_ok (E : list Element) (nodes : list ElementNode) :
  Forall (fun n => n <> NoElement) nodes ->
  update_all_classes E nodes = Ok (map (update_classes E) nodes).
Proof.
  induction nodes as [|n nodes IH]; intros Hall; [reflexivity|].
  apply Forall_cons_iff in Hall. destruct Hall as [Hn Hall].
  destruct n as [|nd ed l r]; [contradiction|].
  cbn [update_all_classes map]. now rewrite (IH Hall).
Qed.

Lemma update_all_classes_none (E : list Element) (nodes : list ElementNode) :
  In NoElement nodes -> update_all_classes E nodes = Raise AttributeError.
Proof.
  induction nodes as [|n nodes IH]; intros Hin; [destruct Hin|].
  destruct n as [|nd ed l r]; [reflexivity|].
  destruct Hin as [Hin|Hin]; [discriminate|].
  cbn [update_all_classes]. now rewrite (IH Hin).
Qed.

(** X27. The rendered list has no dangling edge. For the view that
    [__init__] builds from a tree whose ids leave no entry of
    [element_nodes] empty, and for any connected flags on its dicts in
    which every edge dict carries the flag of the node it leads to,
    [visible_elements] returns the dicts flagged visible, and each edge
    dict among them comes with the node dicts of its source and of its
    target. *)
Theorem visible_elements_no_dangling_edge (id : nat)
  (cmp_xy : option (Z * Z)) (l r : DecisionTree) (E : list Element) :
  let tree := Node id cmp_xy l r in
  let self := __init__ tree in
  let root := fst (build Config.DISPLAY_DEPTH tree None 0 0) in
  Forall (fun n => n <> NoElement) (element_nodes self) ->
  map data E = map data (elements self) ->
  connected_view E root -> mirrored E root ->
  exists shown,
    visible_elements (mk E (element_nodes self)) = Ok shown /\
    (forall e, In e shown <-> In e E /\ visibility e = true) /\
    forall e source target,
      In e shown -> data e = EdgeData source target ->
      (exists a, In a shown /\ data a = NodeData source) /\
      (exists b, In b shown /\ data b = NodeData target).
Proof.
  intros tree self root Hfull Hdata Hc Hm.
  exists (filter visibility E). split; [|split].
  { unfold visible_elements. cbn [elements element_nodes].
    now rewrite (update_all_classes_ok E _ Hfull). }
  { intros e. apply filter_In. }
  intros e s t Hin He.
  destruct (init_elements tree) as [Eel _]. fold self in Eel.
  destruct (build_root_shape Config.DISPLAY_DEPTH id cmp_xy l r None 0 0)
    as (el & er & Eroot).
  fold tree in Eroot. fold root in Eroot.
  assert (wired E root) as Hw.
  { apply (wired_ext (elements self)); [now apply data_at_map|].
    rewrite Eel.
    destruct (build_wired Config.DISPLAY_DEPTH tree None 0 0%nat [] []
                eq_refl) as [H _].
    cbv zeta in H. now rewrite app_nil_r in H. }
  apply filter_In in Hin. destruct Hin as [Hin Hv].
  apply In_nth_error in Hin. destruct Hin as [j Hj].
  assert (j < length E)%nat as Hlt by (apply nth_error_Some; congruence).
  assert (length E = length (elements self)) as HE.
  { rewrite <- (length_map data E), Hdata. apply length_map. }
  assert (In j (slots root)) as Hslot.
  { apply build_cover. rewrite <- Eel. lia. }
  apply (edges_below_rendered E root Hw Hm Hc j s t).
  - rewrite Eroot in Hslot |- *. cbn [slots opt_list app] in Hslot.
    destruct Hslot as [<-|Hslot]; [now left|].
    right. now apply in_app_or.
  - unfold vis. now rewrite Hj.
  - unfold data_at. rewrite Hj. cbn. now rewrite He.
Qed.

(** X30. [visible_elements] raises [AttributeError] on a view one of whose
    [element_nodes] entries is [None], whatever the flags: this is the
    view of a tree whose ids leave a gap. *)
Theorem visible_elements_attribute_error (self : t) :
  In NoElement (element_nodes self) ->
  visible_elements self = Raise AttributeError.
Proof.
  intros Hin. unfold visible_elements.
  now rewrite (update_all_classes_none _ _ Hin).
Qed.

End RenderedView.

Lemma visible_elements_no_dangling_edge_witness :
  let self := Elements.__init__ two_node_tree in
  exists shown,
    Elements.visible_elements self = Ok shown /\
    (exists a, In a shown /\ Elements.data a = Elements.NodeData 0) /\
    (exists b, In b shown /\ Elements.data b = Elements.NodeData 1).
Proof.
  destruct (visible_elements_no_dangling_edge 0 (Some (0, 1))
              (Elements.Node 1 None Elements.NoNode Elements.NoNode)
              Elements.NoNode
              (Elements.elements (Elements.__init__ two_node_tree)))
    as (shown & E & Hshown & Hedges).
  - cbn. repeat constructor; discriminate.
  - reflexivity.
  - apply two_node_view_connected.
  - apply two_node_view_mirrored.
  - exists shown. split; [exact E|].
    apply (Hedges (Elements.mkElement (Elements.EdgeData 0 1) true)
             0%nat 1%nat).
    + apply Hshown. split; [simpl; auto | reflexivity].
    + reflexivity.
Defined.

Lemma visible_elements_attribute_error_witness :
  Elements.visible_elements (Elements.__init__ gap_tree)
  = Raise AttributeError.
Proof.
  apply (visible_elements_attribute_error (Elements.__init__ gap_tree)).
  simpl. auto.
Defined.

(** * Taps on the root of the default view *)

Section DefaultViewFacts.

Variable nodes : list DecisionTreeNode.
Hypothesis Hwf : wf_tree nodes = true.
Hypothesis Hsize : (2 <= length nodes)%nat.

Lemma root_has_child :
  exists c, In c (kids nodes 0) /\ (0 < c < length nodes)%nat.
Proof.
  destruct (has_parent nodes Hwf 1) as [p [Hp Hk]]; [lia|].
  assert (p = 0)%nat as -> by lia.
  exists 1%nat. split; [exact Hk | lia].
Qed.

(** X28. In a well-formed tree of two nodes or more, a tap on the root of
    the default view collapses the view to the root alone, and a tap on the
    root of that view brings the default view back. *)
Theorem tap_root_of_default_view (validate : bool) :
  exists default,
    Nodes.__init__ nodes None validate = Ok default /\
    Nodes.on_tap_node nodes 0 default = Ok [0] /\
    Nodes.on_tap_node nodes 0 [0] = Ok default.
Proof.
  set (k := Z.to_nat Config.DISPLAY_DEPTH).
  set (default := merge [0] (map Z.of_nat (below nodes k [0%nat]))).
  exists default. split; [apply (init_default_eq nodes Hwf)|].
  destruct root_has_child as (c & Hc & Hcn).
  assert (0 < length nodes)%nat as Hn by lia.
  assert (valid_state nodes [0]) as Hroot
    by (apply (prefix_valid nodes Hwf 1); lia).
  assert (valid_state nodes default) as Hdef.
  { apply (expand_valid nodes Hwf k 0 [0] Hn Hroot). now left. }
  assert (Nodes.node_is_leaf nodes (node_at nodes 0) = false) as Hleaf.
  { destruct (Nodes.node_is_leaf nodes (node_at nodes 0)) eqn:El;
      [|reflexivity].
    apply node_is_leaf_child_nodes in El.
    rewrite (child_nodes_node_at nodes Hwf 0 Hn) in El.
    destruct (kids nodes 0); [destruct Hc | discriminate]. }
  split.
  - (* every child of the root is shown: the tap collapses *)
    assert (In 0 default) as H0 by apply Hdef.
    destruct (on_tap_node_visible nodes Hwf default 0 Hdef H0) as [_ ->].
    change (Z.to_nat 0) with 0%nat. rewrite Hleaf.
    assert (Nodes.node_has_hidden_child nodes default (node_at nodes 0)
            = false) as ->.
    { apply node_has_hidden_child_false; [apply Hdef|].
      intros child Hch.
      rewrite (child_nodes_node_at nodes Hwf 0 Hn) in Hch.
      apply in_map_iff in Hch. destruct Hch as [u [<- Hu]].
      rewrite (id_node_at nodes Hwf u)
        by (now destruct (kids_inv nodes Hwf 0 u Hn Hu) as (_ & ? & _)).
      apply merge_In. right. apply in_map. apply (below_level nodes).
      exists 1%nat. split; [unfold k, Config.DISPLAY_DEPTH; lia|].
      simpl. now rewrite app_nil_r. }
    destruct (hide_children_eq nodes Hwf default 0 Hn (vs_ascending _ _ Hdef))
      as [hs [E Hcl]].
    rewrite E. f_equal.
    pose proof (hide_valid nodes Hwf default 0 hs Hdef Hcl) as Hres.
    apply ascending_ext; [apply Hres | apply Hroot|].
    intros x.
    rewrite np_delete_searchsorted;
      [|apply Hdef | now apply (hidden_closed_members nodes default 0)].
    split.
    + intros [Hx Hnot].
      apply merge_In in Hx. destruct Hx as [Hx|Hx]; [exact Hx|].
      exfalso. apply Hnot.
      apply (hidden_closed_descendants nodes Hwf default 0 hs
               (vs_connected _ _ Hdef) Hcl x).
      * apply merge_In. now right.
      * apply (below_ancestor nodes Hwf k 0 x Hn) in Hx.
        destruct Hx as [j [Hj Ea]]. exists j. split; [lia | exact Ea].
    + intros [<-|[]]. split; [apply Hdef|].
      intros Hin.
      apply (hidden_closed_descendants nodes Hwf default 0 hs
               (vs_connected _ _ Hdef) Hcl 0) in Hin; [|apply Hdef].
      destruct Hin as [j [Hj Ea]].
      destruct j as [|j]; [lia|]. cbn [ancestor] in Ea.
      destruct (wf_tree_inv nodes Hwf) as (_ & Hpar & _).
      pose proof (parent_of_node_at nodes 0 Hn) as Ep.
      change (Z.of_nat 0) with 0 in Ep.
      rewrite Ep, Hpar in Ea. discriminate.
  - (* no child of the root is shown: the tap expands *)
    destruct (on_tap_node_visible nodes Hwf [0] 0 Hroot (or_introl eq_refl))
      as [_ ->].
    change (Z.to_nat 0) with 0%nat. rewrite Hleaf.
    assert (Nodes.node_has_hidden_child nodes [0] (node_at nodes 0) = true)
      as ->.
    { apply node_has_hidden_child_true; [apply Hroot|].
      exists (node_at nodes c). split.
      - rewrite (child_nodes_node_at nodes Hwf 0 Hn). now apply in_map.
      - rewrite (id_node_at nodes Hwf c) by lia. intros [H|[]]. lia. }
    unfold Nodes.expand_children.
    now rewrite (expand_subtree_eq nodes Hwf _ 0 [0] Hn).
Qed.

End DefaultViewFacts.

Lemma tap_root_of_default_view_witness :
  exists default,
    Nodes.__init__ five_node_tree None true = Ok default /\
    Nodes.on_tap_node five_node_tree 0 default = Ok [0] /\
    Nodes.on_tap_node five_node_tree 0 [0] = Ok default.
Proof.
  apply (tap_root_of_default_view five_node_tree eq_refl).
  simpl. lia.
Defined.

(** * Queries on the visibility array *)

(** X29. On an ascending array the two queries answer by membership:
    [node_id_visiblity] holds of exactly the ids in the array, and
    [node_has_hidden_child] holds of exactly the nodes with a child whose
    id is not in the array. *)
Theorem visibility_queries_on_ascending
  (nodes : list DecisionTreeNode) (state : list Z) :
  ascending state ->
  (forall node_id,
     Nodes.node_id_visiblity state node_id = true <-> In node_id state) /\
  (forall node,
     Nodes.node_has_hidden_child nodes state node = true <->
     exists child, In child (child_nodes nodes node) /\
                   ~ In (id child) state).
Proof.
  intros Ha. split.
  - intros node_id. now apply node_id_visiblity_In.
  - intros node. now apply node_has_hidden_child_true.
Qed.

Lemma visibility_queries_on_ascending_witness :
  (forall node_id,
     Nodes.node_id_visiblity [0; 1; 2] node_id = true <->
     In node_id [0; 1; 2]) /\
  (forall node,
     Nodes.node_has_hidden_child scenario_tree [0; 1; 2] node = true <->
     exists child, In child (child_nodes scenario_tree node) /\
                   ~ In (id child) [0; 1; 2]).
Proof.
  apply (visibility_queries_on_ascending scenario_tree [0; 1; 2]).
  apply ascendingb_ok. reflexivity.
Defined.
